(** * The pessimistic transaction lock manager (transaction_lock_mgr.cc)

    A shallow embedding of [TransactionLockMgr]: the lock table
    ([LockInfo], [LockMapStripe], [LockMap]), the registry of lock maps with
    its thread-local cache, the acquire and release paths, and the wait-for
    graph used by deadlock detection.

    The code runs against collaborators it does not own: a clock, the
    transaction database (the steal callback), and the mutex and condition
    variable of each stripe.  Their answers come from an environment [Env];
    every call is recorded in a trace.

    The embedding follows one thread.  The other threads act where this
    thread sleeps on a condition variable; what they do there is part of
    the environment.  An [assert] of the source is a check of debug builds
    and has no counterpart in the definitions; the comments say where one
    stands. *)

From stdpp Require Import gmap strings list fin_maps sorting.
From Stdlib Require Import ZArith Lia.

Local Open Scope Z_scope.

(** ** Machine integers *)

(** [uint64_t] arithmetic: the result modulo 2^64. *)
Definition u64 (z : Z) : Z := z mod 2 ^ 64.

(** [int64_t] arithmetic, and the conversion of a [uint64_t] to [int64_t]. *)
Definition i64 (z : Z) : Z := (z + 2 ^ 63) mod 2 ^ 64 - 2 ^ 63.

Definition is_int64 (z : Z) : Prop := - 2 ^ 63 <= z < 2 ^ 63.

(** Modelled from the spec: [rev_wait_txn_map_] is declared in
    transaction_lock_mgr.h, outside this translation unit; the spec gives
    its values as u32 ([blocker_refcount: TxnId -> u32]).  [++] and [--] on
    such a counter wrap modulo 2^32. *)
Definition u32_incr (c : N) : N := ((c + 1) mod 2 ^ 32)%N.
Definition u32_decr (c : N) : N := ((c + (2 ^ 32 - 1)) mod 2 ^ 32)%N.

(** ** Status *)

(** [Status] is declared in rocksdb/status.h.  Here are the codes and
    subcodes that transaction_lock_mgr.cc produces or tests, and the timeout
    of a mutex or condition variable; a status coming from one of these may
    carry any other code.  The message of [InvalidArgument] is left out. *)
Inductive Code : Set :=
| kOk | kInvalidArgument | kTimedOut | kBusy | kOtherCode (n : nat).

Inductive SubCode : Set :=
| kNone | kMutexTimeout | kLockTimeout | kLockLimit | kDeadlock
| kOtherSubCode (n : nat).

Record Status : Set := mkStatus { code : Code; subcode : SubCode }.

Module Status.
Definition OK : Status := mkStatus kOk kNone.
Definition InvalidArgument : Status := mkStatus kInvalidArgument kNone.
Definition TimedOut (s : SubCode) : Status := mkStatus kTimedOut s.
Definition Busy (s : SubCode) : Status := mkStatus kBusy s.

Definition ok (s : Status) : bool :=
  match code s with kOk => true | _ => false end.
Definition IsTimedOut (s : Status) : bool :=
  match code s with kTimedOut => true | _ => false end.
Definition IsBusy (s : Status) : bool :=
  match code s with kBusy => true | _ => false end.
End Status.

(** ** The lock table *)

(** [TransactionID] is a [uint64_t]; identifiers are only compared. *)
Abbreviation TransactionID := N.

Record LockInfo : Set := mkLockInfo {
  txn_id : TransactionID;
  (* Transaction locks are not valid after this time in us *)
  expiration_time : Z
}.

(** The mutex and the condition variable of a stripe have no content of
    their own: the calls made on them appear in the trace, named by the lock
    map and the stripe number. *)
Record LockMapStripe : Type := mkStripe {
  keys : gmap string LockInfo
}.

Record LockMap : Type := mkLockMap {
  num_stripes_ : nat;
  (* Only maintained if max_num_locks_ is positive. *)
  lock_cnt : Z;
  lock_map_stripes_ : list LockMapStripe
}.

Definition new_LockMap (num_stripes : nat) : LockMap :=
  mkLockMap num_stripes 0 (replicate num_stripes (mkStripe ∅)).

(** Assignment to [lock_map_stripes_[s]->keys] and to [lock_cnt]. *)
Definition with_keys (lock_map : LockMap) (s : nat)
    (ks : gmap string LockInfo) : LockMap :=
  mkLockMap (num_stripes_ lock_map) (lock_cnt lock_map)
            (<[s := mkStripe ks]> (lock_map_stripes_ lock_map)).

Definition with_lock_cnt (lock_map : LockMap) (c : Z) : LockMap :=
  mkLockMap (num_stripes_ lock_map) c (lock_map_stripes_ lock_map).

(** ** The transaction handle *)

(** What the accessors of [TransactionImpl] return. *)
Record TransactionImpl : Set := mkTxn {
  GetID : TransactionID;
  GetExpirationTime : Z;
  GetLockTimeout : Z;
  IsDeadlockDetect : bool;
  GetDeadlockDetectDepth : Z
}.

(** ** Calls to the collaborators *)

Inductive Event : Type :=
| EvNowMicros (now : Z)
| EvTryStealingExpiredTransactionLocks (holder : TransactionID) (answer : bool)
| EvMutexLock (lock_map : positive) (stripe : nat) (result : Status)
| EvMutexTryLockFor (lock_map : positive) (stripe : nat) (timeout : Z)
                    (result : Status)
| EvMutexUnLock (lock_map : positive) (stripe : nat)
| EvCvWait (lock_map : positive) (stripe : nat) (result : Status)
| EvCvWaitFor (lock_map : positive) (stripe : nat) (timeout : Z)
              (result : Status)
| EvCvNotifyAll (lock_map : positive) (stripe : nat)
| EvSetWaitingTxn (id : TransactionID) (cf : N) (key : option string).

Definition is_cv_wait (e : Event) : bool :=
  match e with
  | EvCvWait _ _ _ | EvCvWaitFor _ _ _ _ => true
  | _ => false
  end.

Definition is_notify (e : Event) : bool :=
  match e with
  | EvCvNotifyAll _ _ => true
  | _ => false
  end.

(** ** The state of the manager, as one thread sees it *)

(** A [std::shared_ptr<LockMap>] is an address into [heap]: the registry
    [lock_maps_] and the thread-local cache [lock_maps_cache_] hold addresses
    of the same objects.  [ticks] counts the calls made to the environment,
    [attempts] (ghost) the calls of [AcquireLocked]. *)
Record World : Type := mkWorld {
  heap : gmap positive LockMap;
  lock_maps_ : gmap N positive;
  lock_maps_cache_ : option (gmap N positive);
  wait_txn_map_ : gmap N N;
  rev_wait_txn_map_ : gmap N N;
  ticks : nat;
  attempts : nat;
  trace : list Event
}.

Definition set_heap (h : gmap positive LockMap) (w : World) : World :=
  mkWorld h (lock_maps_ w) (lock_maps_cache_ w) (wait_txn_map_ w)
          (rev_wait_txn_map_ w) (ticks w) (attempts w) (trace w).

Definition set_lock_maps (m : gmap N positive) (w : World) : World :=
  mkWorld (heap w) m (lock_maps_cache_ w) (wait_txn_map_ w)
          (rev_wait_txn_map_ w) (ticks w) (attempts w) (trace w).

Definition set_cache (c : option (gmap N positive)) (w : World) : World :=
  mkWorld (heap w) (lock_maps_ w) c (wait_txn_map_ w)
          (rev_wait_txn_map_ w) (ticks w) (attempts w) (trace w).

Definition set_graph (wm rm : gmap N N) (w : World) : World :=
  mkWorld (heap w) (lock_maps_ w) (lock_maps_cache_ w) wm rm
          (ticks w) (attempts w) (trace w).

Definition emit (e : Event) (w : World) : World :=
  mkWorld (heap w) (lock_maps_ w) (lock_maps_cache_ w) (wait_txn_map_ w)
          (rev_wait_txn_map_ w) (S (ticks w)) (attempts w) (e :: trace w).

Definition count_attempt (w : World) : World :=
  mkWorld (heap w) (lock_maps_ w) (lock_maps_cache_ w) (wait_txn_map_ w)
          (rev_wait_txn_map_ w) (ticks w) (S (attempts w)) (trace w).

Definition empty_World : World :=
  mkWorld ∅ ∅ None ∅ ∅ 0 0 [].

(** The collaborators.  The [n]-th call made to the environment is answered
    by the function at [n].  [others n] is what the other threads did to the
    shared structures while this thread slept in its [n]-th call, a wait on a
    condition variable. *)
Record Env : Type := mkEnv {
  NowMicros : nat → Z;
  TryStealingExpiredTransactionLocks : nat → TransactionID → bool;
  mutex_result : nat → Status;
  cv_result : nat → Status;
  others : nat → World → World
}.

(** ** Computations *)

(** A computation runs on a [World]; [None] is a run that did not finish:
    the loop of [AcquireWithTimeout] out of fuel, or an address or a stripe
    number without an object behind it (which shared ownership and
    [GetStripe] exclude in the program). *)
Definition M (A : Type) : Type := World → option (A * World).

Definition ret {A} (a : A) : M A := λ w, Some (a, w).

Definition bind {A B} (m : M A) (k : A → M B) : M B :=
  λ w, match m w with
       | Some (a, w') => k a w'
       | None => None
       end.

Definition stuck {A} : M A := λ _, None.

Definition modify (f : World → World) : M unit := λ w, Some (tt, f w).

Definition gets {A} (f : World → A) : M A := λ w, Some (f w, w).

Declare Scope lockmgr_scope.
Delimit Scope lockmgr_scope with lockmgr.
Notation "x <~ m ;; k" := (bind m (λ x, k))
  (at level 100, m at next level, right associativity,
   format "'[v' x  <~  m  ;;  '/' k ']'") : lockmgr_scope.
Notation "m ;;; k" := (bind m (λ _, k))
  (at level 100, right associativity) : lockmgr_scope.

(** ** Concrete states and collaborators

    One column family (id 1) with a single stripe, a hash that sends every
    key to stripe 0, and a few transactions. *)

Module Scenario.

Definition hash0 : string → nat := λ _, 0%nat.

(** The clock reads 100, the database lets every lock be stolen, the mutex
    is always obtained, a wait on the condition variable times out, and no
    other thread runs. *)
Definition env0 : Env :=
  mkEnv (λ _, 100) (λ _ _, true) (λ _, Status.OK)
        (λ _, Status.TimedOut kMutexTimeout) (λ _ w, w).

(** As [env0], but the stripe mutex is contended: it cannot be obtained. *)
Definition env_contended : Env :=
  mkEnv (λ _, 100) (λ _ _, true) (λ _, Status.TimedOut kMutexTimeout)
        (λ _, Status.TimedOut kMutexTimeout) (λ _ w, w).

Definition txn1 : TransactionImpl := mkTxn 1 0 0 true 10.
Definition txn2 : TransactionImpl := mkTxn 2 0 0 true 10.

(** Transaction 1 holds ["a"] until time 50. *)
Definition held_a : LockInfo := mkLockInfo 1 50.
Definition stripe_a : LockMapStripe := mkStripe {["a" := held_a]}.
Definition lock_map_a : LockMap := mkLockMap 1 1 [stripe_a].

(** Transaction 1 holds ["a"] without expiration. *)
Definition held_forever : LockInfo := mkLockInfo 1 0.
Definition stripe_forever : LockMapStripe := mkStripe {["a" := held_forever]}.
Definition lock_map_forever : LockMap := mkLockMap 1 1 [stripe_forever].

(** In column family 2, transaction 1 holds ["b"]. *)
Definition held_b : LockInfo := mkLockInfo 1 0.
Definition lock_map_b : LockMap := mkLockMap 1 1 [mkStripe {["b" := held_b]}].

Definition world_of (h : gmap positive LockMap) (m : gmap N positive)
    : World :=
  mkWorld h m None ∅ ∅ 0 0 [].

(** Column family 1 just added, nothing locked. *)
Definition w_fresh : World :=
  world_of {[1%positive := new_LockMap 1]} {[1%N := 1%positive]}.

Definition w_held : World :=
  world_of {[1%positive := lock_map_a]} {[1%N := 1%positive]}.

Definition w_forever : World :=
  world_of {[1%positive := lock_map_forever]} {[1%N := 1%positive]}.

Definition w_two : World :=
  world_of {[1%positive := lock_map_a; 2%positive := lock_map_b]}
           {[1%N := 1%positive; 2%N := 2%positive]}.

(** Transaction 1 waits for transaction 2. *)
Definition w_waiting : World :=
  mkWorld ∅ ∅ None {[1%N := 2%N]} {[2%N := 1%N]} 0 0 [].

(** Transaction 1 holds ["a"] until time 200, which the clock of [env0]
    has not reached. *)
Definition held_late : LockInfo := mkLockInfo 1 200.
Definition stripe_late : LockMapStripe := mkStripe {["a" := held_late]}.
Definition lock_map_late : LockMap := mkLockMap 1 1 [stripe_late].

Definition w_late : World :=
  world_of {[1%positive := lock_map_late]} {[1%N := 1%positive]}.

(** Transaction 2 with a timeout of 5 microseconds, and transaction 3 with
    one of 100. *)
Definition txn2_patient : TransactionImpl := mkTxn 2 0 5 true 10.
Definition txn3 : TransactionImpl := mkTxn 3 0 100 true 10.

(** Transaction 1 holds ["a"] without expiration and waits for
    transaction 2. *)
Definition w_forever_waiting : World :=
  mkWorld {[1%positive := lock_map_forever]} {[1%N := 1%positive]} None
          {[1%N := 2%N]} {[2%N := 1%N]} 0 0 [].

(** As [env0], but the clock reads 100 once and 300 ever after. *)
Definition env_late_clock : Env :=
  mkEnv (λ n, match n with O => 100 | S _ => 300 end) (λ _ _, true)
        (λ _, Status.OK) (λ _, Status.TimedOut kMutexTimeout) (λ _ w, w).

(** A hash that sends a key to its length, and a lock map of two stripes:
    transaction 1 holds ["ab"] in stripe 0 and ["a"] in stripe 1, where
    transaction 2 holds ["c"]. *)
Definition hash_length : string → nat := String.length.

Definition lock_map_wide : LockMap :=
  mkLockMap 2 3
    [mkStripe {["ab" := held_forever]};
     mkStripe {["a" := held_forever; "c" := mkLockInfo 2 0]}].

Definition w_wide : World :=
  world_of {[1%positive := lock_map_wide]} {[1%N := 1%positive]}.

(** Column family 1 just added with two stripes, nothing locked. *)
Definition w_two_stripes : World :=
  world_of {[1%positive := new_LockMap 2]} {[1%N := 1%positive]}.

End Scenario.

Local Open Scope lockmgr_scope.

(** ** The manager *)

Section TransactionLockMgr.

(** [murmur_hash] is defined in util/murmurhash.h, outside this file:
    any function from keys to [size_t] stands for it. *)
Context (hash : string → nat).

(** The constants of the manager, and the collaborators. *)
Context (default_num_stripes_ : nat) (max_num_locks_ : Z) (env : Env).

(** The source asserts [num_stripes_ > 0]. *)
Definition GetStripe (lock_map : LockMap) (key : string) : nat :=
  Nat.modulo (hash key) (num_stripes_ lock_map).

(** *** Calls to the collaborators *)

Definition env_NowMicros : M Z := λ w,
  let now := NowMicros env (ticks w) in
  Some (now, emit (EvNowMicros now) w).

Definition txn_db_TryStealingExpiredTransactionLocks
    (holder : TransactionID) : M bool := λ w,
  let answer := TryStealingExpiredTransactionLocks env (ticks w) holder in
  Some (answer, emit (EvTryStealingExpiredTransactionLocks holder answer) w).

Definition stripe_mutex_Lock (p : positive) (s : nat) : M Status := λ w,
  let r := mutex_result env (ticks w) in
  Some (r, emit (EvMutexLock p s r) w).

Definition stripe_mutex_TryLockFor (p : positive) (s : nat) (timeout : Z)
    : M Status := λ w,
  let r := mutex_result env (ticks w) in
  Some (r, emit (EvMutexTryLockFor p s timeout r) w).

Definition stripe_mutex_UnLock (p : positive) (s : nat) : M unit :=
  modify (emit (EvMutexUnLock p s)).

(** While the thread sleeps the other threads run: they may change every
    shared structure, and a [RemoveColumnFamily] of theirs scrapes this
    thread's cache too.  The thread's own record of calls is its own. *)
Definition sleep (n : nat) (w : World) : World :=
  let w' := others env n w in
  mkWorld (heap w') (lock_maps_ w') (lock_maps_cache_ w')
          (wait_txn_map_ w') (rev_wait_txn_map_ w')
          (ticks w) (attempts w) (trace w).

Definition stripe_cv_Wait (p : positive) (s : nat) : M Status := λ w,
  let n := ticks w in
  let r := cv_result env n in
  Some (r, sleep n (emit (EvCvWait p s r) w)).

Definition stripe_cv_WaitFor (p : positive) (s : nat) (timeout : Z)
    : M Status := λ w,
  let n := ticks w in
  let r := cv_result env n in
  Some (r, sleep n (emit (EvCvWaitFor p s timeout r) w)).

Definition stripe_cv_NotifyAll (p : positive) (s : nat) : M unit :=
  modify (emit (EvCvNotifyAll p s)).

Definition SetWaitingTxn (id : TransactionID) (cf : N)
    (key : option string) : M unit :=
  modify (emit (EvSetWaitingTxn id cf key)).

(** *** Access to the lock maps *)

Definition load_LockMap (p : positive) : M LockMap := λ w,
  match heap w !! p with
  | Some lock_map => Some (lock_map, w)
  | None => None
  end.

(** [lock_map->lock_map_stripes_.at(s)] *)
Definition load_stripe (p : positive) (s : nat) : M LockMapStripe :=
  lock_map <~ load_LockMap p ;;
  match lock_map_stripes_ lock_map !! s with
  | Some stripe => ret stripe
  | None => stuck
  end.

Definition store_keys (p : positive) (s : nat) (ks : gmap string LockInfo)
    : M unit :=
  lock_map <~ load_LockMap p ;;
  modify (λ w, set_heap (<[p := with_keys lock_map s ks]> (heap w)) w).

Definition store_lock_cnt (p : positive) (c : Z) : M unit :=
  lock_map <~ load_LockMap p ;;
  modify (λ w, set_heap (<[p := with_lock_cnt lock_map c]> (heap w)) w).

(** *** The registry and the thread-local cache *)

Definition AddColumnFamily (column_family_id : N) : M unit := λ w,
  match lock_maps_ w !! column_family_id with
  | None =>
      let p := fresh (dom (heap w)) in
      Some (tt, set_lock_maps (<[column_family_id := p]> (lock_maps_ w))
                  (set_heap (<[p := new_LockMap default_num_stripes_]>
                               (heap w)) w))
  | Some _ =>
      (* column_family already exists in lock map: assert(false) *)
      Some (tt, w)
  end.

(** The entry leaves the registry, and [Scrape] empties every thread-local
    cache.  The lock map itself stays in [heap]: whoever still holds its
    address keeps using it.  The source asserts that the entry is there:
    for an id that the registry does not hold it goes on to erase
    [lock_maps_.end()], which is undefined, so the call has no result. *)
Definition RemoveColumnFamily (column_family_id : N) : M unit := λ w,
  match lock_maps_ w !! column_family_id with
  | Some _ =>
      Some (tt,
            set_cache None
              (set_lock_maps (delete column_family_id (lock_maps_ w)) w))
  | None => None
  end.

(** Look up the address of the lock map of a column family.  The registry
    mutex brackets the lookup in [lock_maps_]. *)
Definition GetLockMap (column_family_id : N) : M (option positive) := λ w,
  (* First check thread-local cache *)
  let lock_maps_cache :=
    match lock_maps_cache_ w with
    | None => ∅
    | Some c => c
    end in
  match lock_maps_cache !! column_family_id with
  | Some p => Some (Some p, set_cache (Some lock_maps_cache) w)
  | None =>
      (* Not found in local cache, check shared LockMaps *)
      match lock_maps_ w !! column_family_id with
      | None => Some (None, set_cache (Some lock_maps_cache) w)
      | Some p =>
          Some (Some p,
                set_cache (Some (<[column_family_id := p]> lock_maps_cache))
                          w)
      end
  end.

(** *** Expiration *)

(** Returns whether the lock has expired and can be acquired by another
    transaction, together with the value written to [*expire_time]. *)
Definition IsLockExpired (lock_info : LockInfo) : M (bool * Z) :=
  now <~ env_NowMicros ;;
  let expired :=
    (0 <? expiration_time lock_info)
    && (expiration_time lock_info <=? now) in
  if negb expired && (0 <? expiration_time lock_info) then
    ret (expired, expiration_time lock_info)
  else
    success <~ txn_db_TryStealingExpiredTransactionLocks (txn_id lock_info) ;;
    ret (if negb success then false else expired, 0).

(** *** One attempt, under the stripe mutex *)

(** [lock_cnt] is an atomic counter of the lock map, shared by all its
    stripes, and the stripe mutex does not guard it.  The attempt on a key
    that is not locked therefore takes two steps, between which the
    insertions that other threads make into other stripes can fall: the
    limit check, which loads the counter
    ([lock_cnt.load(std::memory_order_acquire) >= max_num_locks_]), *)
Definition lock_limit_reached (p : positive) : M bool :=
  lock_map <~ load_LockMap p ;;
  ret ((0 <? max_num_locks_) && (max_num_locks_ <=? lock_cnt lock_map)).

(** and the insertion [stripe->keys.insert({key, txn_lock_info})] with the
    increment [lock_map->lock_cnt++], an atomic operation of its own on the
    counter as it is by then. *)
Definition insert_lock (p : positive) (s : nat) (key : string)
    (txn_lock_info : LockInfo) : M unit :=
  stripe <~ load_stripe p s ;;
  store_keys p s (<[key := txn_lock_info]> (keys stripe)) ;;;
  (* Maintain lock count if there is a limit on the number of locks *)
  if decide (max_num_locks_ ≠ 0) then
    lock_map <~ load_LockMap p ;;
    store_lock_cnt p (i64 (lock_cnt lock_map + 1))
  else ret tt.

(** [AcquireLocked] is the attempt as one thread runs it when no other
    thread comes between its steps.  [expire_time] and [txn_id_out] are the
    values of the two out-parameters on entry; the result carries their
    values on exit. *)
Definition AcquireLocked (p : positive) (s : nat) (key : string)
    (txn_lock_info : LockInfo) (expire_time : Z)
    (txn_id_out : TransactionID) : M (Status * Z * TransactionID) :=
  modify count_attempt ;;;
  stripe <~ load_stripe p s ;;
  match keys stripe !! key with
  | Some lock_info =>
      (* Lock already held *)
      if decide (txn_id lock_info ≠ txn_id txn_lock_info) then
        (* locked by another txn.  Check if it's expired *)
        r <~ IsLockExpired lock_info ;;
        if r.1 then
          (* lock is expired, can steal it; lock_cnt does not change *)
          store_keys p s
            (<[key := mkLockInfo (txn_id txn_lock_info)
                                 (expiration_time txn_lock_info)]>
               (keys stripe)) ;;;
          ret (Status.OK, r.2, txn_id_out)
        else
          ret (Status.TimedOut kLockTimeout, r.2, txn_id lock_info)
      else ret (Status.OK, expire_time, txn_id_out)
  | None =>
      (* Lock not held.  Check lock limit *)
      limit_reached <~ lock_limit_reached p ;;
      if limit_reached then
        ret (Status.Busy kLockLimit, expire_time, txn_id_out)
      else
        (* acquire lock *)
        insert_lock p s key txn_lock_info ;;;
        ret (Status.OK, expire_time, txn_id_out)
  end.

(** *** The wait-for graph *)

(** The source asserts that [id] is registered:
    [wait_txn_map_.count(id) > 0]. *)
Definition DecrementWaitersImpl (txn : TransactionImpl)
    (wait_id : TransactionID) : M unit :=
  let id := GetID txn in
  modify (λ w,
    let wait_txn_map := delete id (wait_txn_map_ w) in
    (* rev_wait_txn_map_[wait_id]-- *)
    let rev :=
      <[wait_id := u32_decr (default 0%N (rev_wait_txn_map_ w !! wait_id))]>
        (rev_wait_txn_map_ w) in
    if decide (rev !! wait_id = Some 0%N) then
      set_graph wait_txn_map (delete wait_id rev) w
    else set_graph wait_txn_map rev w).

(** The graph mutex brackets the call and nothing else. *)
Definition DecrementWaiters (txn : TransactionImpl)
    (wait_id : TransactionID) : M unit :=
  DecrementWaitersImpl txn wait_id.

(** How the walk along the chain of blockers ends: at [id] itself, at a
    transaction that waits for nobody (both with the value of the loop
    counter), or with the counter at the depth. *)
Inductive Walk : Set :=
| WalkCycle (i : nat)
| WalkEnd (i : nat)
| WalkTooBig.

(** [for (int i = 0; i < depth; i++)], with [remaining] iterations to go.
    The type of [GetDeadlockDetectDepth()] is declared in
    transaction_impl.h; here the depth is an integer and the counter runs
    over [0..depth], as in the spec. *)
Fixpoint walk (wait_txn_map : gmap N N) (id next : TransactionID)
    (i remaining : nat) : Walk :=
  match remaining with
  | O => WalkTooBig
  | S remaining' =>
      if decide (next = id) then WalkCycle i
      else match wait_txn_map !! next with
           | None => WalkEnd i
           | Some next' => walk wait_txn_map id next' (S i) remaining'
           end
  end.

(** The source asserts that [id] is not registered yet:
    [wait_txn_map_.count(id) == 0]. *)
Definition IncrementWaiters (txn : TransactionImpl)
    (wait_id : TransactionID) : M bool :=
  let id := GetID txn in
  modify (λ w,
    set_graph (<[id := wait_id]> (wait_txn_map_ w))
      (<[wait_id := u32_incr (default 0%N (rev_wait_txn_map_ w !! wait_id))]>
         (rev_wait_txn_map_ w)) w) ;;;
  rev <~ gets rev_wait_txn_map_ ;;
  match rev !! id with
  | None =>
      (* No deadlock if nobody is waiting on self. *)
      ret false
  | Some _ =>
      wait_txn_map <~ gets wait_txn_map_ ;;
      match walk wait_txn_map id wait_id 0
                 (Z.to_nat (GetDeadlockDetectDepth txn)) with
      | WalkCycle _ => DecrementWaitersImpl txn wait_id ;;; ret true
      | WalkEnd _ => ret false
      | WalkTooBig =>
          (* Wait cycle too big, just assume deadlock. *)
          DecrementWaitersImpl txn wait_id ;;; ret true
      end
  end.

(** *** Acquiring with a timeout *)

(** How an iteration of the retry loop leaves it: by the [return] of the
    deadlock path, or through the loop condition. *)
Inductive LoopExit : Set :=
| Return (result : Status)
| Break (result : Status).

(** The [do ... while (!result.ok() && !timed_out)] loop.  [timed_out] is
    false on entry of every iteration, since the loop goes on only while it
    is. *)
Fixpoint retry_loop (fuel : nat) (txn : TransactionImpl) (p : positive)
    (s : nat) (column_family_id : N) (key : string) (timeout : Z)
    (lock_info : LockInfo) (end_time : Z) (result : Status)
    (expire_time_hint : Z) (wait_id : TransactionID) : M LoopExit :=
  match fuel with
  | O => stuck
  | S fuel' =>
      (* Decide how long to wait *)
      let cv_end_time :=
        if (0 <? expire_time_hint)
           && ((timeout <? 0)
               || ((0 <? timeout) && (expire_time_hint <? end_time)))
        then i64 expire_time_hint
        else if 0 <=? timeout then i64 end_time
        else -1 in
      (* assert(result.IsBusy() || wait_id != 0) *)
      (* We are dependent on a transaction to finish, so perform deadlock
         detection. *)
      deadlock <~
        (if decide (wait_id ≠ 0%N) then
           if IsDeadlockDetect txn then IncrementWaiters txn wait_id
           else ret false
         else ret false) ;;
      if (deadlock : bool) then
        stripe_mutex_UnLock p s ;;;
        ret (Return (Status.Busy kDeadlock))
      else
        (if decide (wait_id ≠ 0%N) then
           SetWaitingTxn wait_id column_family_id (Some key)
         else ret tt) ;;;
        result <~
          (if cv_end_time <? 0 then
             (* Wait indefinitely *)
             stripe_cv_Wait p s
           else
             now <~ env_NowMicros ;;
             if now <? u64 cv_end_time then
               stripe_cv_WaitFor p s (i64 (u64 (cv_end_time - now)))
             else ret result) ;;
        (if decide (wait_id ≠ 0%N) then
           SetWaitingTxn 0%N 0%N None ;;;
           if IsDeadlockDetect txn then DecrementWaiters txn wait_id
           else ret tt
         else ret tt) ;;;
        let timed_out := Status.IsTimedOut result in
        r <~
          (if Status.ok result || Status.IsTimedOut result then
             AcquireLocked p s key lock_info expire_time_hint wait_id
           else ret (result, expire_time_hint, wait_id)) ;;
        if negb (Status.ok r.1.1) && negb timed_out then
          retry_loop fuel' txn p s column_family_id key timeout lock_info
                     end_time r.1.1 r.1.2 r.2
        else ret (Break r.1.1)
  end.

Definition AcquireWithTimeout (fuel : nat) (txn : TransactionImpl)
    (p : positive) (s : nat) (column_family_id : N) (key : string)
    (timeout : Z) (lock_info : LockInfo) : M Status :=
  end_time <~
    (if 0 <? timeout then
       start_time <~ env_NowMicros ;;
       ret (u64 (start_time + timeout))
     else ret 0) ;;
  result <~
    (if timeout <? 0 then
       (* If timeout is negative, we wait indefinitely to acquire the lock *)
       stripe_mutex_Lock p s
     else stripe_mutex_TryLockFor p s timeout) ;;
  if negb (Status.ok result) then
    (* failed to acquire mutex *)
    ret result
  else
    (* Acquire lock if we are able to *)
    r <~ AcquireLocked p s key lock_info 0 0%N ;;
    if negb (Status.ok r.1.1) && negb (timeout =? 0) then
      (* If we weren't able to acquire the lock, we will keep retrying as
         long as the timeout allows. *)
      exit <~ retry_loop fuel txn p s column_family_id key timeout lock_info
                         end_time r.1.1 r.1.2 r.2 ;;
      match exit with
      | Return result => ret result
      | Break result => stripe_mutex_UnLock p s ;;; ret result
      end
    else
      stripe_mutex_UnLock p s ;;;
      ret r.1.1.

Definition TryLock (fuel : nat) (txn : TransactionImpl)
    (column_family_id : N) (key : string) : M Status :=
  (* Lookup lock map for this column family id *)
  lock_map_ptr <~ GetLockMap column_family_id ;;
  match lock_map_ptr with
  | None => ret Status.InvalidArgument
  | Some p =>
      lock_map <~ load_LockMap p ;;
      (* Need to lock the mutex for the stripe that this key hashes to *)
      let stripe_num := GetStripe lock_map key in
      _ <~ load_stripe p stripe_num ;;
      let lock_info := mkLockInfo (GetID txn) (GetExpirationTime txn) in
      AcquireWithTimeout fuel txn p stripe_num column_family_id key
                         (GetLockTimeout txn) lock_info
  end.

(** *** Release *)

(** What both [UnLock] functions do for one key under the stripe mutex. *)
Definition unlock_key (p : positive) (s : nat) (id : TransactionID)
    (key : string) : M unit :=
  stripe <~ load_stripe p s ;;
  match keys stripe !! key with
  | Some lock_info =>
      if decide (txn_id lock_info = id) then
        (* Found the key we locked.  unlock it. *)
        store_keys p s (delete key (keys stripe)) ;;;
        if 0 <? max_num_locks_ then
          (* Maintain lock count if there is a limit on the number of
             locks.  assert(lock_cnt > 0) *)
          lock_map <~ load_LockMap p ;;
          store_lock_cnt p (i64 (lock_cnt lock_map - 1))
        else ret tt
      else
        (* This key is locked by someone else.  The source asserts that the
           unlocking transaction has expired. *)
        ret tt
  | None =>
      (* This key is not locked; same assert. *)
      ret tt
  end.

Definition UnLock (txn : TransactionImpl) (column_family_id : N)
    (key : string) : M unit :=
  lock_map_ptr <~ GetLockMap column_family_id ;;
  match lock_map_ptr with
  | None =>
      (* Column Family must have been dropped. *)
      ret tt
  | Some p =>
      lock_map <~ load_LockMap p ;;
      (* Lock the mutex for the stripe that this key hashes to *)
      let stripe_num := GetStripe lock_map key in
      _ <~ load_stripe p stripe_num ;;
      _ <~ stripe_mutex_Lock p stripe_num ;;
      unlock_key p stripe_num (GetID txn) key ;;;
      stripe_mutex_UnLock p stripe_num ;;;
      (* Signal waiting threads to retry locking *)
      stripe_cv_NotifyAll p stripe_num
  end.

(** [keys_by_stripe[stripe_num].push_back(&key)].  The source keeps the
    buckets in a [std::unordered_map], whose iteration order it does not
    fix; here they are kept in the order their stripes first come up.  What
    is proved of the batch below does not depend on that order. *)
Fixpoint bucket_add (stripe_num : nat) (key : string)
    (buckets : list (nat * list string)) : list (nat * list string) :=
  match buckets with
  | [] => [(stripe_num, [key])]
  | (s, ks) :: rest =>
      if decide (s = stripe_num) then (s, ks ++ [key]) :: rest
      else (s, ks) :: bucket_add stripe_num key rest
  end.

Definition keys_by_stripe (lock_map : LockMap) (ks : list string)
    : list (nat * list string) :=
  fold_left (λ buckets key, bucket_add (GetStripe lock_map key) key buckets)
            ks [].

Fixpoint unlock_keys (p : positive) (s : nat) (id : TransactionID)
    (stripe_keys : list string) : M unit :=
  match stripe_keys with
  | [] => ret tt
  | key :: rest => unlock_key p s id key ;;; unlock_keys p s id rest
  end.

(** For each stripe, grab the stripe mutex and unlock all keys in this
    stripe. *)
Fixpoint unlock_stripes (p : positive) (id : TransactionID)
    (buckets : list (nat * list string)) : M unit :=
  match buckets with
  | [] => ret tt
  | (stripe_num, stripe_keys) :: rest =>
      _ <~ load_stripe p stripe_num ;;
      _ <~ stripe_mutex_Lock p stripe_num ;;
      unlock_keys p stripe_num id stripe_keys ;;;
      stripe_mutex_UnLock p stripe_num ;;;
      stripe_cv_NotifyAll p stripe_num ;;;
      unlock_stripes p id rest
  end.

(** The batch [UnLock]: [key_map] lists the column families in the order
    the iteration over the [TransactionKeyMap] visits them, each with its
    keys. *)
Fixpoint UnLock_batch (txn : TransactionImpl)
    (key_map : list (N * list string)) : M unit :=
  match key_map with
  | [] => ret tt
  | (column_family_id, ks) :: rest =>
      lock_map_ptr <~ GetLockMap column_family_id ;;
      match lock_map_ptr with
      | None =>
          (* Column Family must have been dropped. *)
          ret tt
      | Some p =>
          lock_map <~ load_LockMap p ;;
          unlock_stripes p (GetID txn) (keys_by_stripe lock_map ks) ;;;
          UnLock_batch txn rest
      end
  end.

(** *** What the statements below are about *)

Definition stripe_at (w : World) (p : positive) (s : nat)
    : option LockMapStripe :=
  match heap w !! p with
  | Some lock_map => lock_map_stripes_ lock_map !! s
  | None => None
  end.

Definition record_at (w : World) (p : positive) (s : nat) (key : string)
    : option LockInfo :=
  match stripe_at w p s with
  | Some stripe => keys stripe !! key
  | None => None
  end.

(** The lock [held] can be taken over at [w]: it has an expiration time,
    the clock has reached it, and the transaction database, asked next,
    agrees. *)
Definition stealable (w : World) (held : LockInfo) : Prop :=
  0 < expiration_time held
  ∧ expiration_time held <= NowMicros env (ticks w)
  ∧ TryStealingExpiredTransactionLocks env (S (ticks w)) (txn_id held) = true.

Definition cv_waits (w : World) : nat :=
  length (filter (λ e, is_cv_wait e = true) (trace w)).

Definition notifications (w : World) : list Event :=
  filter (λ e, is_notify e = true) (trace w).

Definition erased (lock_map : LockMap) (s : nat) (stripe : LockMapStripe)
    (key : string) : LockMap :=
  let without := with_keys lock_map s (delete key (keys stripe)) in
  if 0 <? max_num_locks_
  then with_lock_cnt without (i64 (lock_cnt lock_map - 1))
  else without.

(** The world in which the stripe mutex has been asked for, and the answer
    it gave. *)
Definition mutex_asked (p : positive) (s : nat) (timeout : Z) (w : World)
    : Status * World :=
  let w_t :=
    if 0 <? timeout then emit (EvNowMicros (NowMicros env (ticks w))) w
    else w in
  let r := mutex_result env (ticks w_t) in
  (r, emit (if timeout <? 0 then EvMutexLock p s r
            else EvMutexTryLockFor p s timeout r) w_t).

(** Neither the registry nor the thread-local cache knows [cf]: the
    lookup of its lock map fails. *)
Definition unknown_cf (w : World) (cf : N) : Prop :=
  lock_maps_ w !! cf = None
  ∧ ∀ c, lock_maps_cache_ w = Some c → c !! cf = None.

Definition same_registry (w w' : World) : Prop :=
  lock_maps_ w' = lock_maps_ w ∧ lock_maps_cache_ w' = lock_maps_cache_ w.

(** The transaction reached from [x] in [n] steps along the edges. *)
Fixpoint chain (wait_txn_map : gmap N N) (x : TransactionID) (n : nat)
    : option TransactionID :=
  match n with
  | O => Some x
  | S n' =>
      match wait_txn_map !! x with
      | Some y => chain wait_txn_map y n'
      | None => None
      end
  end.

(** A cycle of [len] edges leads from [id] back to [id]. *)
Definition cycle_through (wait_txn_map : gmap N N) (id : TransactionID)
    (len : nat) : Prop :=
  (0 < len)%nat ∧ chain wait_txn_map id len = Some id.

(** The number of transactions that wait for [b]. *)
Definition waiters_on (wait_txn_map : gmap N N) (b : TransactionID) : N :=
  N.of_nat (size (filter (λ kv : N * N, kv.2 = b) wait_txn_map)).

(** [rev_wait_txn_map_] counts the waiters of every transaction, and holds
    no zero. *)
Definition graph_accounting (w : World) : Prop :=
  ∀ b, rev_wait_txn_map_ w !! b
       = if decide (waiters_on (wait_txn_map_ w) b = 0%N) then None
         else Some (waiters_on (wait_txn_map_ w) b).

(** The graphs that the calls of [AcquireWithTimeout] build from the empty
    one: a transaction registers a wait only while it has none, it
    unregisters the wait it has registered, and fewer than 2^32
    transactions wait at a time. *)
Inductive reachable_graph : World → Prop :=
| reachable_empty w :
    wait_txn_map_ w = ∅ → rev_wait_txn_map_ w = ∅ → reachable_graph w
| reachable_register w txn wait_id r w' :
    reachable_graph w →
    wait_txn_map_ w !! GetID txn = None →
    (N.of_nat (size (wait_txn_map_ w)) < 2 ^ 32 - 1)%N →
    IncrementWaiters txn wait_id w = Some (r, w') →
    reachable_graph w'
| reachable_unregister w txn wait_id w' :
    reachable_graph w →
    wait_txn_map_ w !! GetID txn = Some wait_id →
    DecrementWaiters txn wait_id w = Some (tt, w') →
    reachable_graph w'.

(** The graph with the edge of the new wait, before the search. *)
Definition registered (txn : TransactionImpl) (wait_id : TransactionID)
    (w : World) : World :=
  set_graph (<[GetID txn := wait_id]> (wait_txn_map_ w))
    (<[wait_id := u32_incr (default 0%N (rev_wait_txn_map_ w !! wait_id))]>
       (rev_wait_txn_map_ w)) w.

Definition reports_deadlock (txn : TransactionImpl)
    (wait_id : TransactionID) (w : World) : bool :=
  match rev_wait_txn_map_ (registered txn wait_id w) !! GetID txn with
  | None => false
  | Some _ =>
      match walk (wait_txn_map_ (registered txn wait_id w)) (GetID txn)
                 wait_id 0 (Z.to_nat (GetDeadlockDetectDepth txn)) with
      | WalkEnd _ => false
      | _ => true
      end
  end.

(** The invariant that carries the accounting: the counters are exact and
    have not wrapped. *)
Definition graph_ok (w : World) : Prop :=
  graph_accounting w ∧ (N.of_nat (size (wait_txn_map_ w)) < 2 ^ 32)%N.

(** *** Further notions: the registry *)

(** Every address in the thread-local cache is the one the registry holds
    for the same column family. *)
Definition cache_coherent (w : World) : Prop :=
  ∀ c cf p,
    lock_maps_cache_ w = Some c → c !! cf = Some p →
    lock_maps_ w !! cf = Some p.

(** *** Further notions: the count of locks *)

(** The number of records in the stripes of a lock map. *)
Definition locked_keys (lock_map : LockMap) : nat :=
  sum_list_with (λ stripe, size (keys stripe)) (lock_map_stripes_ lock_map).

(** [lock_cnt] is the number of records, and fits its type. *)
Definition count_consistent (lock_map : LockMap) : Prop :=
  lock_cnt lock_map = Z.of_nat (locked_keys lock_map)
  ∧ is_int64 (lock_cnt lock_map).

(** *** Further notions: the steps of the retry loop *)

Definition is_mutex_unlock (e : Event) : bool :=
  match e with
  | EvMutexUnLock _ _ => true
  | _ => false
  end.

Definition mutex_unlocks (w : World) : nat :=
  length (filter (λ e, is_mutex_unlock e = true) (trace w)).

(** The key is locked, and by [id]. *)
Definition holds (w : World) (p : positive) (s : nat) (key : string)
    (id : TransactionID) : Prop :=
  ∃ info, record_at w p s key = Some info ∧ txn_id info = id.

Definition graph_of (w : World) : gmap N N * gmap N N :=
  (wait_txn_map_ w, rev_wait_txn_map_ w).

(** The other threads leave the wait-for graph alone. *)
Definition graph_undisturbed : Prop :=
  ∀ n w, graph_of (others env n w) = graph_of w.

(** The five steps of an iteration of [retry_loop], in the order the loop
    takes them. *)
Definition register_step (txn : TransactionImpl) (wait_id : TransactionID)
    : M bool :=
  if decide (wait_id ≠ 0%N) then
    if IsDeadlockDetect txn then IncrementWaiters txn wait_id
    else ret false
  else ret false.

Definition announce_step (wait_id : TransactionID) (column_family_id : N)
    (key : string) : M unit :=
  if decide (wait_id ≠ 0%N) then
    SetWaitingTxn wait_id column_family_id (Some key)
  else ret tt.

Definition wait_step (p : positive) (s : nat) (timeout end_time : Z)
    (result : Status) (expire_time_hint : Z) : M Status :=
  let cv_end_time :=
    if (0 <? expire_time_hint)
       && ((timeout <? 0)
           || ((0 <? timeout) && (expire_time_hint <? end_time)))
    then i64 expire_time_hint
    else if 0 <=? timeout then i64 end_time
    else -1 in
  if cv_end_time <? 0 then stripe_cv_Wait p s
  else
    now <~ env_NowMicros ;;
    if now <? u64 cv_end_time then
      stripe_cv_WaitFor p s (i64 (u64 (cv_end_time - now)))
    else ret result.

Definition unregister_step (txn : TransactionImpl)
    (wait_id : TransactionID) : M unit :=
  if decide (wait_id ≠ 0%N) then
    SetWaitingTxn 0%N 0%N None ;;;
    if IsDeadlockDetect txn then DecrementWaiters txn wait_id
    else ret tt
  else ret tt.

Definition attempt_step (p : positive) (s : nat) (key : string)
    (lock_info : LockInfo) (result : Status) (expire_time_hint : Z)
    (wait_id : TransactionID) : M (Status * Z * TransactionID) :=
  if Status.ok result || Status.IsTimedOut result then
    AcquireLocked p s key lock_info expire_time_hint wait_id
  else ret (result, expire_time_hint, wait_id).

(** *** Further notions: stripes and batches *)

(** A lock map as its constructor makes it: as many stripes as
    [num_stripes_] says, and at least one. *)
Definition wf_LockMap (lock_map : LockMap) : Prop :=
  num_stripes_ lock_map = length (lock_map_stripes_ lock_map)
  ∧ (0 < num_stripes_ lock_map)%nat.

(** What a release by [id] leaves of a record. *)
Definition release (id : TransactionID) (o : option LockInfo)
    : option LockInfo :=
  match o with
  | Some info => if decide (txn_id info = id) then None else Some info
  | None => None
  end.

(** Whether [key] is in the bucket of stripe [s]. *)
Fixpoint bucket_has (buckets : list (nat * list string)) (s : nat)
    (key : string) : bool :=
  match buckets with
  | [] => false
  | (s0, ks) :: rest =>
      bool_decide (s = s0 ∧ key ∈ ks) || bucket_has rest s key
  end.

(** *** Lock status *)

(** [LockStatusData]: a multimap from the column family id to a key and
    the id of the transaction that holds it, kept here as the list of its
    entries in the order they are inserted. *)
Definition LockStatusData : Type := list (N * (string * TransactionID)).

(** The records of one stripe as
    [data.insert({i, {it.first, it.second.txn_id}})] adds them. *)
Definition stripe_entries (cf : N) (stripe : LockMapStripe)
    : LockStatusData :=
  (λ kv, (cf, (kv.1, txn_id kv.2))) <$> map_to_list (keys stripe).

(** [lock_maps_[i]]: the ids are those of the registry; an id that is not
    there would give a null pointer. *)
Definition lock_maps_at (cf : N) : M positive := λ w,
  match lock_maps_ w !! cf with
  | Some p => Some (p, w)
  | None => None
  end.

(** Iterate and lock all stripes in ascending order. *)
Fixpoint lock_stripes_from (p : positive) (cf : N) (js : list nat)
    : M LockStatusData :=
  match js with
  | [] => ret []
  | j :: rest =>
      _ <~ stripe_mutex_Lock p j ;;
      stripe <~ load_stripe p j ;;
      more <~ lock_stripes_from p cf rest ;;
      ret (stripe_entries cf stripe ++ more)
  end.

Fixpoint lock_column_families (cf_ids : list N) : M LockStatusData :=
  match cf_ids with
  | [] => ret []
  | i :: rest =>
      p <~ lock_maps_at i ;;
      lock_map <~ load_LockMap p ;;
      here <~ lock_stripes_from p i
                (seq 0 (length (lock_map_stripes_ lock_map))) ;;
      more <~ lock_column_families rest ;;
      ret (here ++ more)
  end.

(** Unlock everything. *)
Fixpoint unlock_stripes_from (p : positive) (js : list nat) : M unit :=
  match js with
  | [] => ret tt
  | j :: rest => stripe_mutex_UnLock p j ;;; unlock_stripes_from p rest
  end.

Fixpoint unlock_column_families (cf_ids : list N) : M unit :=
  match cf_ids with
  | [] => ret tt
  | i :: rest =>
      p <~ lock_maps_at i ;;
      lock_map <~ load_LockMap p ;;
      unlock_stripes_from p (seq 0 (length (lock_map_stripes_ lock_map))) ;;;
      unlock_column_families rest
  end.

(** [GetLockStatusData]: the ids of the registry are sorted
    ([std::sort]), then every stripe of every column family is locked and
    read, then every stripe is unlocked.  The registry mutex is held
    throughout. *)
Definition GetLockStatusData : M LockStatusData := λ w,
  let cf_ids := merge_sort N.le (map_to_list (lock_maps_ w)).*1 in
  (data <~ lock_column_families cf_ids ;;
   unlock_column_families cf_ids ;;;
   ret data) w.

(** Every lock map of the registry is allocated. *)
Definition lock_maps_allocated (w : World) : Prop :=
  ∀ cf p, lock_maps_ w !! cf = Some p → is_Some (heap w !! p).

(** The lock maps, the registry, the cache and the wait-for graph are the
    same in both worlds. *)
Definition same_state (w w' : World) : Prop :=
  heap w' = heap w
  ∧ same_registry w w'
  ∧ graph_of w' = graph_of w.

(** The stripe mutexes locked with [Lock], and those unlocked, oldest
    first, a stripe as often as it was locked or unlocked. *)
Definition locked_stripes (w : World) : list (positive * nat) :=
  omap (λ e, match e with EvMutexLock p s _ => Some (p, s) | _ => None end)
       (reverse (trace w)).

Definition unlocked_stripes (w : World) : list (positive * nat) :=
  omap (λ e, match e with EvMutexUnLock p s => Some (p, s) | _ => None end)
       (reverse (trace w)).

(** The stripes whose condition variable got a [NotifyAll], oldest
    first. *)
Definition notified_stripes (w : World) : list (positive * nat) :=
  omap (λ e, match e with EvCvNotifyAll p s => Some (p, s) | _ => None end)
       (reverse (trace w)).

(** The stripes of the lock map of [cf], in ascending order. *)
Definition stripes_of (w : World) (cf : N) : list (positive * nat) :=
  match lock_maps_ w !! cf with
  | Some p =>
      match heap w !! p with
      | Some lock_map =>
          (λ j, (p, j)) <$> seq 0 (length (lock_map_stripes_ lock_map))
      | None => []
      end
  | None => []
  end.

(** ** Properties *)

Lemma LockInfo_eta (i : LockInfo) :
  mkLockInfo (txn_id i) (expiration_time i) = i.
Proof. by destruct i. Qed.

Lemma i64_id z : is_int64 z → i64 z = z.
Proof.
  unfold is_int64, i64. intros H.
  rewrite Z.mod_small; lia.
Qed.

Lemma i64_incr_decr z : is_int64 z → i64 (i64 (z + 1) - 1) = z.
Proof.
  unfold is_int64, i64. intros H.
  destruct (decide (z + 1 < 2 ^ 63)) as [Hlt|Hge].
  - rewrite (Z.mod_small (z + 1 + 2 ^ 63)) by lia.
    rewrite Z.mod_small; lia.
  - assert (z = 2 ^ 63 - 1) as -> by lia.
    reflexivity.
Qed.

Ltac run :=
  unfold AcquireLocked, lock_limit_reached, insert_lock, IsLockExpired,
    unlock_key, load_stripe, store_keys,
    store_lock_cnt, load_LockMap, env_NowMicros,
    txn_db_TryStealingExpiredTransactionLocks, stripe_mutex_Lock,
    stripe_mutex_TryLockFor, stripe_mutex_UnLock, stripe_cv_NotifyAll,
    bind, ret, modify, gets, stuck; simpl.

(** *** The three cases of an attempt *)

Lemma AcquireLocked_held_by_other w p s lock_map stripe key held req hint wid :
  heap w !! p = Some lock_map →
  lock_map_stripes_ lock_map !! s = Some stripe →
  keys stripe !! key = Some held →
  txn_id held ≠ txn_id req →
  AcquireLocked p s key req hint wid w =
    let now := NowMicros env (ticks w) in
    let w1 := emit (EvNowMicros now) (count_attempt w) in
    if (0 <? expiration_time held) && (expiration_time held <=? now) then
      let a := TryStealingExpiredTransactionLocks env (S (ticks w))
                 (txn_id held) in
      let w2 := emit (EvTryStealingExpiredTransactionLocks (txn_id held) a)
                  w1 in
      if a then
        Some ((Status.OK, 0, wid),
              set_heap (<[p := with_keys lock_map s
                                 (<[key := req]> (keys stripe))]> (heap w))
                       w2)
      else Some ((Status.TimedOut kLockTimeout, 0, txn_id held), w2)
    else if 0 <? expiration_time held then
      Some ((Status.TimedOut kLockTimeout, expiration_time held,
             txn_id held), w1)
    else
      let a := TryStealingExpiredTransactionLocks env (S (ticks w))
                 (txn_id held) in
      Some ((Status.TimedOut kLockTimeout, 0, txn_id held),
            emit (EvTryStealingExpiredTransactionLocks (txn_id held) a) w1).
Proof.
  intros Hp Hs Hk Hne. run. rewrite Hp. simpl. rewrite Hs, Hk.
  rewrite decide_True by done. simpl.
  destruct (0 <? expiration_time held) eqn:E1;
    destruct (expiration_time held <=? NowMicros env (ticks w)) eqn:E2;
    simpl; rewrite ?E2; simpl; try done.
  - destruct (TryStealingExpiredTransactionLocks env _ _) eqn:E3; simpl.
    + rewrite Hp. simpl. by rewrite LockInfo_eta.
    + done.
  - by destruct (TryStealingExpiredTransactionLocks env _ _).
  - by destruct (TryStealingExpiredTransactionLocks env _ _).
Qed.

Lemma AcquireLocked_own w p s lock_map stripe key held req hint wid :
  heap w !! p = Some lock_map →
  lock_map_stripes_ lock_map !! s = Some stripe →
  keys stripe !! key = Some held →
  txn_id held = txn_id req →
  AcquireLocked p s key req hint wid w
  = Some ((Status.OK, hint, wid), count_attempt w).
Proof.
  intros Hp Hs Hk Heq. run. rewrite Hp. simpl. rewrite Hs, Hk.
  by rewrite decide_False by (intros H; by apply H).
Qed.

Lemma AcquireLocked_free w p s lock_map stripe key req hint wid :
  heap w !! p = Some lock_map →
  lock_map_stripes_ lock_map !! s = Some stripe →
  keys stripe !! key = None →
  AcquireLocked p s key req hint wid w =
    if (0 <? max_num_locks_) && (max_num_locks_ <=? lock_cnt lock_map) then
      Some ((Status.Busy kLockLimit, hint, wid), count_attempt w)
    else
      let inserted := with_keys lock_map s (<[key := req]> (keys stripe)) in
      Some ((Status.OK, hint, wid),
            set_heap
              (<[p := if decide (max_num_locks_ ≠ 0)
                      then with_lock_cnt inserted
                             (i64 (lock_cnt lock_map + 1))
                      else inserted]> (heap w))
              (count_attempt w)).
Proof.
  intros Hp Hs Hk. run. rewrite Hp. simpl. rewrite Hs, Hk. simpl.
  rewrite ?Hp. simpl.
  destruct ((0 <? max_num_locks_) && (max_num_locks_ <=? lock_cnt lock_map));
    simpl; [done|].
  rewrite ?Hp. simpl. rewrite ?Hs. simpl. rewrite ?Hp. simpl.
  destruct (decide (max_num_locks_ ≠ 0)); simpl; [|done].
  repeat (rewrite lookup_insert_eq; simpl). by rewrite insert_insert_eq.
Qed.

Lemma record_at_with_keys w h p s lock_map stripe ks key :
  lock_map_stripes_ lock_map !! s = Some stripe →
  heap w = <[p := with_keys lock_map s ks]> h →
  record_at w p s key = ks !! key.
Proof.
  intros Hs Hh. unfold record_at, stripe_at. rewrite Hh, lookup_insert_eq.
  simpl. rewrite list_lookup_insert_eq; [done|].
  by eapply lookup_lt_Some.
Qed.

Lemma record_at_unchanged w w' p s lock_map stripe key :
  heap w !! p = Some lock_map →
  lock_map_stripes_ lock_map !! s = Some stripe →
  heap w' = heap w →
  record_at w' p s key = keys stripe !! key.
Proof.
  intros Hp Hs Hh. unfold record_at, stripe_at. by rewrite Hh, Hp, Hs.
Qed.

Lemma stealable_spec w held :
  stealable w held ↔
  (0 <? expiration_time held)
  && (expiration_time held <=? NowMicros env (ticks w))
  && TryStealingExpiredTransactionLocks env (S (ticks w)) (txn_id held)
  = true.
Proof.
  unfold stealable.
  rewrite !andb_true_iff, Z.ltb_lt, Z.leb_le. tauto.
Qed.

(** C1 (steal correctness).  An attempt on a key locked by another
    transaction takes the lock over, writing the requester's id and
    expiration time into the record, exactly when the record has an
    expiration time, the clock has reached it and
    [TryStealingExpiredTransactionLocks] answers true for the holder.  In
    every other case the lock table is left as it was and the attempt
    returns [TimedOut(LockTimeout)], naming the holder to wait for. *)
Theorem steal_iff_stealable w p s lock_map stripe key held req hint wid :
  heap w !! p = Some lock_map →
  lock_map_stripes_ lock_map !! s = Some stripe →
  keys stripe !! key = Some held →
  txn_id held ≠ txn_id req →
  ∃ result hint' wid' w',
    AcquireLocked p s key req hint wid w = Some ((result, hint', wid'), w')
    ∧ (record_at w' p s key = Some req ↔ stealable w held)
    ∧ (stealable w held →
         result = Status.OK
         ∧ heap w' = <[p := with_keys lock_map s
                                (<[key := req]> (keys stripe))]> (heap w))
    ∧ (¬ stealable w held →
         result = Status.TimedOut kLockTimeout
         ∧ wid' = txn_id held
         ∧ heap w' = heap w
         ∧ record_at w' p s key = Some held).
Proof.
  intros Hp Hs Hk Hne.
  rewrite (AcquireLocked_held_by_other _ _ _ _ _ _ _ _ _ _ Hp Hs Hk Hne).
  assert (Hreq : Some held ≠ Some req) by (intros [= ->]; done).
  cbv zeta.
  destruct (0 <? expiration_time held) eqn:E1;
    destruct (expiration_time held <=? NowMicros env (ticks w)) eqn:E2;
    simpl;
    try destruct (TryStealingExpiredTransactionLocks env (S (ticks w))
                    (txn_id held)) eqn:E3;
    simpl; eexists _, _, _, _; (split; [reflexivity|]);
    rewrite !stealable_spec, E1, E2, ?E3; simpl.
  1: { split_and!; [|done|done].
       erewrite record_at_with_keys; [|done..].
       by rewrite lookup_insert_eq. }
  all: erewrite record_at_unchanged; [|done..]; rewrite Hk;
    split_and!; try done; by split.
Qed.

(** C10.  A record without expiration ([expiration_time = 0]) held by
    another transaction: the attempt reads the clock and then does call
    [TryStealingExpiredTransactionLocks] on the holder, but whatever the
    answer the lock is not taken over.  The attempt returns
    [TimedOut(LockTimeout)], sets the expiration hint to 0 and leaves the
    lock table as it was. *)
Theorem never_expiring_lock_not_stolen
    w p s lock_map stripe key held req hint wid :
  heap w !! p = Some lock_map →
  lock_map_stripes_ lock_map !! s = Some stripe →
  keys stripe !! key = Some held →
  txn_id held ≠ txn_id req →
  expiration_time held = 0 →
  ∃ w',
    AcquireLocked p s key req hint wid w
    = Some ((Status.TimedOut kLockTimeout, 0, txn_id held), w')
    ∧ trace w'
      = EvTryStealingExpiredTransactionLocks (txn_id held)
          (TryStealingExpiredTransactionLocks env (S (ticks w))
             (txn_id held))
        :: EvNowMicros (NowMicros env (ticks w)) :: trace w
    ∧ heap w' = heap w
    ∧ record_at w' p s key = Some held.
Proof.
  intros Hp Hs Hk Hne H0.
  rewrite (AcquireLocked_held_by_other _ _ _ _ _ _ _ _ _ _ Hp Hs Hk Hne).
  rewrite H0. simpl. eexists. split; [reflexivity|]. simpl.
  split_and!; try done.
  erewrite record_at_unchanged; done.
Qed.

Lemma lock_limit_reached_spec w p lock_map :
  heap w !! p = Some lock_map →
  lock_limit_reached p w
  = Some ((0 <? max_num_locks_) && (max_num_locks_ <=? lock_cnt lock_map), w).
Proof.
  intros Hp. unfold lock_limit_reached, load_LockMap, bind, ret.
  by rewrite Hp.
Qed.

Lemma insert_lock_spec w p s lock_map stripe key req :
  heap w !! p = Some lock_map →
  lock_map_stripes_ lock_map !! s = Some stripe →
  insert_lock p s key req w =
    let inserted := with_keys lock_map s (<[key := req]> (keys stripe)) in
    Some (tt,
          set_heap
            (<[p := if decide (max_num_locks_ ≠ 0)
                    then with_lock_cnt inserted (i64 (lock_cnt lock_map + 1))
                    else inserted]> (heap w)) w).
Proof.
  intros Hp Hs. run. rewrite Hp. simpl. rewrite Hs. simpl.
  rewrite ?Hp. simpl.
  destruct (decide (max_num_locks_ ≠ 0)); simpl; [|done].
  repeat (rewrite lookup_insert_eq; simpl). by rewrite insert_insert_eq.
Qed.

(** C6 (cap).  With a positive [max_num_locks_], an attempt on a key that
    is not locked returns [Busy(LockLimit)] exactly when [lock_cnt] has
    reached [max_num_locks_], and then changes nothing in the lock table;
    otherwise it inserts the record and adds one to [lock_cnt], which stays
    within [max_num_locks_].  Whatever the state of the key, an attempt
    either leaves [lock_cnt] alone or adds one to it without exceeding
    [max_num_locks_].  That is the attempt with no other thread between
    its steps.  With other threads in between, the limit check reads the
    counter as it is then, and the insertion, in whatever state [v] the
    others have left the lock map (the stripe, under its mutex, is as it
    was), adds one to the counter as it is by then: it stays within
    [max_num_locks_] when the counter has not grown since the check. *)
Theorem lock_limit_cap w p s lock_map stripe key req hint wid :
  0 < max_num_locks_ →
  is_int64 max_num_locks_ →
  is_int64 (lock_cnt lock_map) →
  heap w !! p = Some lock_map →
  lock_map_stripes_ lock_map !! s = Some stripe →
  (∃ result hint' wid' w' lock_map',
     AcquireLocked p s key req hint wid w = Some ((result, hint', wid'), w')
     ∧ heap w' !! p = Some lock_map'
     ∧ (keys stripe !! key = None →
          (result = Status.Busy kLockLimit
           ↔ max_num_locks_ <= lock_cnt lock_map)
          ∧ (max_num_locks_ <= lock_cnt lock_map → heap w' = heap w)
          ∧ (lock_cnt lock_map < max_num_locks_ →
               result = Status.OK
               ∧ record_at w' p s key = Some req
               ∧ lock_cnt lock_map' = lock_cnt lock_map + 1))
     ∧ (lock_cnt lock_map' = lock_cnt lock_map
        ∨ lock_cnt lock_map' = lock_cnt lock_map + 1
          ∧ lock_cnt lock_map' <= max_num_locks_))
  ∧ lock_limit_reached p w
    = Some (max_num_locks_ <=? lock_cnt lock_map, w)
  ∧ ∀ v lock_map_v,
      heap v !! p = Some lock_map_v →
      lock_map_stripes_ lock_map_v !! s = Some stripe →
      is_int64 (lock_cnt lock_map_v) →
      ∃ v' lock_map_v',
        insert_lock p s key req v = Some (tt, v')
        ∧ heap v' !! p = Some lock_map_v'
        ∧ record_at v' p s key = Some req
        ∧ lock_cnt lock_map_v' = i64 (lock_cnt lock_map_v + 1)
        ∧ (lock_cnt lock_map < max_num_locks_ →
           lock_cnt lock_map_v <= lock_cnt lock_map →
           lock_cnt lock_map_v' = lock_cnt lock_map_v + 1
           ∧ lock_cnt lock_map_v' <= max_num_locks_).
Proof.
  intros Hpos Hmax Hcnt Hp Hs. split; [|split].
  2: { rewrite (lock_limit_reached_spec _ _ _ Hp).
       by assert ((0 <? max_num_locks_) = true) as -> by by apply Z.ltb_lt. }
  2: { intros v lock_map_v Hv Hsv Hiv.
       rewrite (insert_lock_spec _ _ _ _ _ _ _ Hv Hsv). cbv zeta.
       rewrite decide_True by lia.
       eexists _, _. split; [reflexivity|]. simpl. rewrite lookup_insert_eq.
       split; [done|]. split.
       { unfold record_at, stripe_at. simpl. rewrite lookup_insert_eq. simpl.
         rewrite list_lookup_insert_eq by (by eapply lookup_lt_Some).
         simpl. by rewrite lookup_insert_eq. }
       simpl. split; [done|]. intros Hlt Hle.
       rewrite i64_id by (unfold is_int64 in *; lia). lia. }
  destruct (keys stripe !! key) as [held|] eqn:Hk.
  - destruct (decide (txn_id held = txn_id req)) as [Heq|Hne].
    + rewrite (AcquireLocked_own _ _ _ _ _ _ _ _ _ _ Hp Hs Hk Heq).
      eexists _, _, _, _, _. split; [reflexivity|]. simpl.
      split_and!; [done|done|by left].
    + rewrite (AcquireLocked_held_by_other _ _ _ _ _ _ _ _ _ _ Hp Hs Hk Hne).
      cbv zeta.
      destruct ((0 <? expiration_time held)
                && (expiration_time held <=? NowMicros env (ticks w)));
        [destruct (TryStealingExpiredTransactionLocks env (S (ticks w))
                     (txn_id held))
        |destruct (0 <? expiration_time held)];
        eexists _, _, _, _, _; (split; [reflexivity|]); simpl;
        rewrite ?lookup_insert_eq; (split_and!; [done|done|by left]).
  - rewrite (AcquireLocked_free _ _ _ _ _ _ _ _ _ Hp Hs Hk).
    assert ((0 <? max_num_locks_) = true) as -> by by apply Z.ltb_lt.
    cbv zeta. rewrite decide_True by lia. simpl.
    destruct (max_num_locks_ <=? lock_cnt lock_map) eqn:E.
    + apply Z.leb_le in E.
      eexists _, _, _, _, _. split; [reflexivity|]. simpl.
      split_and!; [done| |by left].
      intros _. split_and!; [done|done|lia].
    + apply Z.leb_gt in E.
      assert (i64 (lock_cnt lock_map + 1) = lock_cnt lock_map + 1) as Hi.
      { apply i64_id. unfold is_int64 in *. lia. }
      eexists _, _, _, _, _. split; [reflexivity|]. simpl.
      rewrite lookup_insert_eq. split_and!; [done| |right; simpl; lia].
      intros _. split_and!.
      * split; [done|lia].
      * lia.
      * intros _. split_and!; [done| |simpl; lia].
        unfold record_at, stripe_at. simpl. rewrite lookup_insert_eq. simpl.
        rewrite list_lookup_insert_eq by (by eapply lookup_lt_Some).
        simpl. by rewrite lookup_insert_eq.
Qed.

(** *** Lookup of the lock map *)

Lemma GetLockMap_total cf w :
  ∃ r c, GetLockMap cf w = Some (r, set_cache (Some c) w)
         ∧ (∀ p, r = Some p → c !! cf = Some p).
Proof.
  unfold GetLockMap.
  destruct (lock_maps_cache_ w) as [c|]; simpl.
  - destruct (c !! cf) as [q|] eqn:Hc.
    + exists (Some q), c. split; [done|]. by intros p [= <-].
    + destruct (lock_maps_ w !! cf) as [q|].
      * exists (Some q), (<[cf := q]> c). split; [done|].
        intros p [= <-]. by rewrite lookup_insert_eq.
      * exists None, c. by split.
  - rewrite lookup_empty.
    destruct (lock_maps_ w !! cf) as [q|].
    + exists (Some q), (<[cf := q]> ∅). split; [done|].
      intros p [= <-]. by rewrite lookup_insert_eq.
    + exists None, ∅. by split.
Qed.

Lemma GetLockMap_cached cf w c p :
  lock_maps_cache_ w = Some c → c !! cf = Some p →
  GetLockMap cf w = Some (Some p, w).
Proof.
  intros Hc Hp. unfold GetLockMap. rewrite Hc, Hp.
  destruct w; simpl in *. by rewrite Hc.
Qed.

(** *** Release of one key *)

Lemma unlock_key_spec w p s lock_map stripe id key :
  heap w !! p = Some lock_map →
  lock_map_stripes_ lock_map !! s = Some stripe →
  unlock_key p s id key w =
    Some (tt,
          match keys stripe !! key with
          | Some held =>
              if decide (txn_id held = id)
              then set_heap (<[p := erased lock_map s stripe key]> (heap w)) w
              else w
          | None => w
          end).
Proof.
  intros Hp Hs. unfold erased. run. rewrite Hp. simpl. rewrite Hs.
  destruct (keys stripe !! key) as [held|]; [|done].
  destruct (decide (txn_id held = id)); [|done].
  simpl. rewrite ?Hp. simpl.
  destruct (0 <? max_num_locks_); simpl; [|done].
  repeat (rewrite lookup_insert_eq; simpl). by rewrite insert_insert_eq.
Qed.

Lemma UnLock_resolved txn cf key w p w0 lock_map stripe :
  GetLockMap cf w = Some (Some p, w0) →
  heap w !! p = Some lock_map →
  lock_map_stripes_ lock_map !! GetStripe lock_map key = Some stripe →
  let s := GetStripe lock_map key in
  let w1 := emit (EvMutexLock p s (mutex_result env (ticks w))) w0 in
  let w2 :=
    match keys stripe !! key with
    | Some held =>
        if decide (txn_id held = GetID txn)
        then set_heap (<[p := erased lock_map s stripe key]> (heap w)) w1
        else w1
    | None => w1
    end in
  UnLock txn cf key w
  = Some (tt, emit (EvCvNotifyAll p s) (emit (EvMutexUnLock p s) w2)).
Proof.
  intros Hg Hp Hs. cbv zeta.
  destruct (GetLockMap_total cf w) as (r & c & Hg' & _).
  rewrite Hg in Hg'. injection Hg' as <- ->.
  unfold UnLock, bind at 1. rewrite Hg.
  unfold bind at 1, load_LockMap at 1. simpl. rewrite Hp.
  unfold bind at 1, load_stripe at 1, bind at 1, load_LockMap at 1.
  simpl. rewrite Hp. simpl. rewrite Hs. unfold ret at 1.
  unfold bind at 1, stripe_mutex_Lock at 1. simpl.
  unfold bind at 1.
  erewrite unlock_key_spec; [|simpl; done|done].
  unfold stripe_mutex_UnLock, stripe_cv_NotifyAll, bind, modify. simpl.
  destruct (keys stripe !! key) as [held|]; [|done].
  by destruct (decide (txn_id held = GetID txn)).
Qed.

Lemma UnLock_dropped txn cf key w w0 :
  GetLockMap cf w = Some (None, w0) →
  UnLock txn cf key w = Some (tt, w0).
Proof. intros Hg. unfold UnLock, bind. by rewrite Hg. Qed.

(** C7 (ownership at release).  [UnLock] of a key in a column family whose
    lock map is found removes the stripe's entry for the key exactly when
    the entry exists and is held by the transaction, and then touches no
    other key; when the key is not locked or is held by another
    transaction the lock table is left as it was.  When the lock map is
    not found (the column family was dropped) nothing is changed and no
    collaborator is called.  [UnLock] returns no status in any case. *)
Theorem unlock_removes_iff_holder txn cf key w :
  ∃ lock_map_ptr w0,
    GetLockMap cf w = Some (lock_map_ptr, w0)
    ∧ match lock_map_ptr with
      | None =>
          UnLock txn cf key w = Some (tt, w0)
          ∧ heap w0 = heap w ∧ trace w0 = trace w
      | Some p =>
          ∀ lock_map stripe,
            heap w !! p = Some lock_map →
            lock_map_stripes_ lock_map !! GetStripe lock_map key
            = Some stripe →
            let s := GetStripe lock_map key in
            let held_by_txn :=
              ∃ held, keys stripe !! key = Some held
                      ∧ txn_id held = GetID txn in
            ∃ w',
              UnLock txn cf key w = Some (tt, w')
              ∧ (is_Some (record_at w p s key) ∧ record_at w' p s key = None
                 ↔ held_by_txn)
              ∧ (held_by_txn →
                   stripe_at w' p s
                   = Some (mkStripe (delete key (keys stripe)))
                   ∧ ∀ p' s', (p', s') ≠ (p, s) →
                              stripe_at w' p' s' = stripe_at w p' s')
              ∧ (¬ held_by_txn → heap w' = heap w)
      end.
Proof.
  destruct (GetLockMap_total cf w) as (r & c & Hg & _).
  exists r, (set_cache (Some c) w). split; [done|].
  destruct r as [p|].
  - intros lock_map stripe Hp Hs s held_by_txn. subst s.
    rewrite (UnLock_resolved _ _ _ _ _ _ _ _ Hg Hp Hs). cbv zeta.
    eexists. split; [reflexivity|].
    assert (Hrec : record_at w p (GetStripe lock_map key) key
                   = keys stripe !! key).
    { unfold record_at, stripe_at. by rewrite Hp, Hs. }
    assert (Hlt : (GetStripe lock_map key
                   < length (lock_map_stripes_ lock_map))%nat)
      by (by eapply lookup_lt_Some).
    destruct (keys stripe !! key) as [held|] eqn:Hk.
    + destruct (decide (txn_id held = GetID txn)) as [Heq|Hne].
      * assert (Hat : stripe_at
                  (emit (EvCvNotifyAll p (GetStripe lock_map key))
                     (emit (EvMutexUnLock p (GetStripe lock_map key))
                        (set_heap
                           (<[p := erased lock_map (GetStripe lock_map key)
                                     stripe key]> (heap w))
                           (emit (EvMutexLock p (GetStripe lock_map key)
                                    (mutex_result env (ticks w)))
                              (set_cache (Some c) w)))))
                  p (GetStripe lock_map key)
                = Some (mkStripe (delete key (keys stripe)))).
        { unfold stripe_at, erased. simpl. rewrite lookup_insert_eq.
          destruct (0 <? max_num_locks_); simpl;
            by rewrite list_lookup_insert_eq. }
        split_and!.
        -- split; [intros _; by exists held|]. intros _.
           split; [by rewrite Hrec|].
           unfold record_at. rewrite Hat. simpl. apply lookup_delete_eq.
        -- intros _. split; [done|].
           intros p' s' Hne. unfold stripe_at, erased. simpl.
           destruct (decide (p' = p)) as [->|Hp'].
           ++ rewrite lookup_insert_eq, Hp.
              assert (s' ≠ GetStripe lock_map key) by congruence.
              destruct (0 <? max_num_locks_); simpl;
                by rewrite list_lookup_insert_ne.
           ++ by rewrite lookup_insert_ne.
        -- intros Hno. destruct Hno. by exists held.
      * split_and!.
        -- split.
           ++ intros [_ Hgone]. unfold record_at, stripe_at in Hgone.
              simpl in Hgone. rewrite Hp, Hs, Hk in Hgone. done.
           ++ intros (h & [= <-] & Hid). done.
        -- intros (h & [= <-] & Hid). done.
        -- done.
    + split_and!.
      * split.
        -- intros [[x Hx] _]. rewrite Hrec in Hx. done.
        -- intros (h & Hh & _). done.
      * intros (h & Hh & _). done.
      * done.
  - split_and!; [|done|done].
    by apply UnLock_dropped.
Qed.

(** *** The first attempt of [TryLock] *)

Lemma TryLock_resolved fuel txn cf key w p w0 lock_map stripe :
  GetLockMap cf w = Some (Some p, w0) →
  heap w !! p = Some lock_map →
  lock_map_stripes_ lock_map !! GetStripe lock_map key = Some stripe →
  TryLock fuel txn cf key w
  = AcquireWithTimeout fuel txn p (GetStripe lock_map key) cf key
      (GetLockTimeout txn) (mkLockInfo (GetID txn) (GetExpirationTime txn))
      w0.
Proof.
  intros Hg Hp Hs.
  destruct (GetLockMap_total cf w) as (r & c & Hg' & _).
  rewrite Hg in Hg'. injection Hg' as <- ->.
  unfold TryLock, bind at 1. rewrite Hg.
  unfold bind at 1, load_LockMap at 1. simpl. rewrite Hp.
  unfold bind at 1, load_stripe at 1, bind at 1, load_LockMap at 1.
  simpl. rewrite Hp. simpl. by rewrite Hs.
Qed.

Lemma TryLock_unknown fuel txn cf key w w0 :
  GetLockMap cf w = Some (None, w0) →
  TryLock fuel txn cf key w = Some (Status.InvalidArgument, w0).
Proof. intros Hg. unfold TryLock, bind. by rewrite Hg. Qed.

Lemma AcquireWithTimeout_mutex_failed fuel txn p s cf key timeout info w :
  Status.ok (mutex_asked p s timeout w).1 = false →
  AcquireWithTimeout fuel txn p s cf key timeout info w
  = Some (mutex_asked p s timeout w).
Proof.
  unfold mutex_asked, AcquireWithTimeout, bind, ret, env_NowMicros,
    stripe_mutex_Lock, stripe_mutex_TryLockFor.
  destruct (0 <? timeout), (timeout <? 0); simpl; by intros ->.
Qed.

Lemma AcquireWithTimeout_first_attempt
    fuel txn p s cf key timeout info w result hint wid w' :
  Status.ok (mutex_asked p s timeout w).1 = true →
  AcquireLocked p s key info 0 0%N (mutex_asked p s timeout w).2
  = Some ((result, hint, wid), w') →
  Status.ok result = true ∨ timeout = 0 →
  AcquireWithTimeout fuel txn p s cf key timeout info w
  = Some (result, emit (EvMutexUnLock p s) w').
Proof.
  unfold mutex_asked, AcquireWithTimeout, env_NowMicros,
    stripe_mutex_Lock, stripe_mutex_TryLockFor, stripe_mutex_UnLock.
  intros Hok Ha Hdone.
  assert (negb (Status.ok result) && negb (timeout =? 0) = false) as Hc.
  { destruct Hdone as [->| ->]; [done|]. apply andb_false_r. }
  destruct (0 <? timeout), (timeout <? 0); simpl in *;
    unfold bind, ret, modify; simpl; rewrite Hok; simpl;
    rewrite Ha; simpl; by rewrite Hc.
Qed.

Lemma cv_waits_emit e w :
  cv_waits (emit e w) = if is_cv_wait e then S (cv_waits w) else cv_waits w.
Proof.
  unfold cv_waits. simpl. rewrite filter_cons.
  destruct (is_cv_wait e) eqn:E.
  - by rewrite decide_True.
  - by rewrite decide_False.
Qed.

Lemma mutex_asked_same p s timeout w :
  heap (mutex_asked p s timeout w).2 = heap w
  ∧ lock_maps_cache_ (mutex_asked p s timeout w).2 = lock_maps_cache_ w
  ∧ attempts (mutex_asked p s timeout w).2 = attempts w
  ∧ cv_waits (mutex_asked p s timeout w).2 = cv_waits w.
Proof.
  unfold mutex_asked, cv_waits.
  destruct (0 <? timeout), (timeout <? 0); simpl; done.
Qed.

Lemma AcquireLocked_total w p s lock_map stripe key req hint wid :
  heap w !! p = Some lock_map →
  lock_map_stripes_ lock_map !! s = Some stripe →
  ∃ result hint' wid' w',
    AcquireLocked p s key req hint wid w = Some ((result, hint', wid'), w')
    ∧ (result = Status.OK ∨ result = Status.TimedOut kLockTimeout
       ∨ result = Status.Busy kLockLimit)
    ∧ attempts w' = S (attempts w)
    ∧ cv_waits w' = cv_waits w
    ∧ lock_maps_cache_ w' = lock_maps_cache_ w.
Proof.
  intros Hp Hs. unfold cv_waits.
  destruct (keys stripe !! key) as [held|] eqn:Hk.
  - destruct (decide (txn_id held = txn_id req)) as [Heq|Hne].
    + rewrite (AcquireLocked_own _ _ _ _ _ _ _ _ _ _ Hp Hs Hk Heq).
      eexists _, _, _, _. split; [reflexivity|]. simpl. auto.
    + rewrite (AcquireLocked_held_by_other _ _ _ _ _ _ _ _ _ _ Hp Hs Hk Hne).
      cbv zeta.
      destruct ((0 <? expiration_time held)
                && (expiration_time held <=? NowMicros env (ticks w)));
        [destruct (TryStealingExpiredTransactionLocks env (S (ticks w))
                     (txn_id held))
        |destruct (0 <? expiration_time held)];
        eexists _, _, _, _; (split; [reflexivity|]); simpl; auto.
  - rewrite (AcquireLocked_free _ _ _ _ _ _ _ _ _ Hp Hs Hk).
    destruct ((0 <? max_num_locks_) && (max_num_locks_ <=? lock_cnt lock_map));
      eexists _, _, _, _; (split; [reflexivity|]); simpl; auto.
Qed.

Lemma erased_inserted lock_map s stripe key info :
  0 <= max_num_locks_ →
  is_int64 (lock_cnt lock_map) →
  lock_map_stripes_ lock_map !! s = Some stripe →
  keys stripe !! key = None →
  let inserted := with_keys lock_map s (<[key := info]> (keys stripe)) in
  erased (if decide (max_num_locks_ ≠ 0)
          then with_lock_cnt inserted (i64 (lock_cnt lock_map + 1))
          else inserted)
         s (mkStripe (<[key := info]> (keys stripe))) key
  = lock_map.
Proof.
  intros Hmax Hcnt Hs Hk. cbv zeta. unfold erased.
  assert (Hback : <[s := mkStripe (delete key (<[key := info]> (keys stripe)))]>
                    (<[s := mkStripe (<[key := info]> (keys stripe))]>
                       (lock_map_stripes_ lock_map))
                  = lock_map_stripes_ lock_map).
  { rewrite list_insert_insert_eq, delete_insert_id by done.
    apply list_insert_id. rewrite Hs. by destruct stripe. }
  destruct lock_map as [n cnt stripes]. simpl in *.
  destruct (decide (max_num_locks_ ≠ 0)) as [Hne|Heq].
  - assert ((0 <? max_num_locks_) = true) as -> by (apply Z.ltb_lt; lia).
    unfold with_lock_cnt, with_keys. simpl.
    by rewrite Hback, i64_incr_decr.
  - assert ((0 <? max_num_locks_) = false) as -> by (apply Z.ltb_ge; lia).
    unfold with_keys. simpl. by rewrite Hback.
Qed.

(** C4 (round trip of a fresh lock).  With [max_num_locks_ >= 0], a key that
    is not locked and a lock count below the limit (or no limit): when
    [TryLock] succeeds it has inserted the record, and the [UnLock] that
    follows puts every lock map, the keys of all stripes and [lock_cnt],
    back to what it was before the [TryLock]. *)
Theorem lock_then_unlock_restores
    fuel txn cf key w p w0 lock_map stripe status w1 :
  0 <= max_num_locks_ →
  is_int64 (lock_cnt lock_map) →
  GetLockMap cf w = Some (Some p, w0) →
  heap w !! p = Some lock_map →
  lock_map_stripes_ lock_map !! GetStripe lock_map key = Some stripe →
  keys stripe !! key = None →
  max_num_locks_ = 0 ∨ lock_cnt lock_map < max_num_locks_ →
  TryLock fuel txn cf key w = Some (status, w1) →
  Status.ok status = true →
  record_at w1 p (GetStripe lock_map key) key
  = Some (mkLockInfo (GetID txn) (GetExpirationTime txn))
  ∧ ∃ w2, UnLock txn cf key w1 = Some (tt, w2) ∧ heap w2 = heap w.
Proof.
  intros Hmax Hcnt Hg Hp Hs Hk Hroom Hlock Hok.
  rewrite (TryLock_resolved _ _ _ _ _ _ _ _ _ Hg Hp Hs) in Hlock.
  destruct (GetLockMap_total cf w) as (r & c & Hg' & Hc).
  rewrite Hg in Hg'. injection Hg' as <- ->. specialize (Hc p eq_refl).
  set (s := GetStripe lock_map key) in *.
  set (info := mkLockInfo (GetID txn) (GetExpirationTime txn)) in *.
  pose proof (mutex_asked_same p s (GetLockTimeout txn)
                (set_cache (Some c) w)) as (Hmh & Hmc & _ & _).
  pose proof (AcquireWithTimeout_mutex_failed fuel txn p s cf key
                (GetLockTimeout txn) info (set_cache (Some c) w)) as Hfail.
  pose proof (AcquireWithTimeout_first_attempt fuel txn p s cf key
                (GetLockTimeout txn) info (set_cache (Some c) w)) as Hfirst.
  destruct (mutex_asked p s (GetLockTimeout txn) (set_cache (Some c) w))
    as [ms mw]. simpl in Hmh, Hmc, Hfail, Hfirst.
  destruct (Status.ok ms) eqn:Hm.
  2: { rewrite Hfail in Hlock by done. congruence. }
  assert (Hpm : heap mw !! p = Some lock_map) by (by rewrite Hmh).
  pose proof (AcquireLocked_free mw p s lock_map stripe key info 0 0%N
                Hpm Hs Hk) as Ha.
  assert ((0 <? max_num_locks_) && (max_num_locks_ <=? lock_cnt lock_map)
          = false) as Hcap.
  { destruct Hroom as [->|Hlt]; [done|].
    apply andb_false_iff. right. by apply Z.leb_gt. }
  rewrite Hcap in Ha. cbv zeta in Ha.
  erewrite Hfirst in Hlock; [|done|exact Ha|by left].
  injection Hlock as <- <-.
  set (inserted := if decide (max_num_locks_ ≠ 0)
                   then with_lock_cnt
                          (with_keys lock_map s (<[key := info]> (keys stripe)))
                          (i64 (lock_cnt lock_map + 1))
                   else with_keys lock_map s (<[key := info]> (keys stripe))).
  assert (Hstripes : lock_map_stripes_ inserted
            = <[s := mkStripe (<[key := info]> (keys stripe))]>
                (lock_map_stripes_ lock_map)).
  { unfold inserted. by destruct (decide (max_num_locks_ ≠ 0)). }
  assert (Hnum : GetStripe inserted key = s).
  { unfold inserted, GetStripe, s.
    by destruct (decide (max_num_locks_ ≠ 0)). }
  assert (Hlt : (s < length (lock_map_stripes_ lock_map))%nat)
    by (by eapply lookup_lt_Some).
  split.
  { unfold record_at, stripe_at. simpl. rewrite Hmh, lookup_insert_eq.
    fold inserted. rewrite Hstripes, list_lookup_insert_eq by done.
    simpl. by rewrite lookup_insert_eq. }
  eexists. split.
  - erewrite UnLock_resolved.
    + reflexivity.
    + apply GetLockMap_cached with c; [|done]. simpl. by rewrite Hmc.
    + simpl. rewrite Hmh. apply lookup_insert_eq.
    + fold inserted. rewrite Hnum, Hstripes.
      by apply list_lookup_insert_eq.
  - fold inserted. rewrite Hnum. simpl.
    rewrite lookup_insert_eq, decide_True by done. simpl.
    rewrite Hmh, insert_insert_eq.
    unfold inserted. rewrite erased_inserted by done.
    by apply insert_id.
Qed.

(** C8 (zero timeout).  With a lock timeout of 0 [TryLock]
    never waits on the condition variable of the stripe, whatever the
    fuel.  When the column family is known and the stripe mutex is
    obtained, it makes exactly one attempt and returns the outcome of that
    attempt, which is [OK], [TimedOut(LockTimeout)] or [Busy(LockLimit)].
    When the column family is unknown it returns [InvalidArgument], and
    when the stripe mutex is not obtained it returns the status of the
    mutex; no attempt is made in these two cases. *)
Theorem timeout_zero_single_attempt fuel txn cf key w :
  GetLockTimeout txn = 0 →
  ∃ lock_map_ptr w0,
    GetLockMap cf w = Some (lock_map_ptr, w0)
    ∧ match lock_map_ptr with
      | None =>
          TryLock fuel txn cf key w = Some (Status.InvalidArgument, w0)
          ∧ attempts w0 = attempts w
          ∧ cv_waits w0 = cv_waits w
      | Some p =>
          ∀ lock_map stripe,
            heap w !! p = Some lock_map →
            lock_map_stripes_ lock_map !! GetStripe lock_map key
            = Some stripe →
            let s := GetStripe lock_map key in
            let m := mutex_asked p s 0 w0 in
            ∃ status w',
              TryLock fuel txn cf key w = Some (status, w')
              ∧ cv_waits w' = cv_waits w
              ∧ if Status.ok m.1 then
                  (∃ hint wid w_a,
                     AcquireLocked p s key
                       (mkLockInfo (GetID txn) (GetExpirationTime txn))
                       0 0%N m.2
                     = Some ((status, hint, wid), w_a)
                     ∧ w' = emit (EvMutexUnLock p s) w_a)
                  ∧ attempts w' = S (attempts w)
                  ∧ (status = Status.OK
                     ∨ status = Status.TimedOut kLockTimeout
                     ∨ status = Status.Busy kLockLimit)
                else
                  status = m.1 ∧ w' = m.2 ∧ attempts w' = attempts w
      end.
Proof.
  intros Hto.
  destruct (GetLockMap_total cf w) as (r & c & Hg & _).
  exists r, (set_cache (Some c) w). split; [done|].
  destruct r as [p|].
  - intros lock_map stripe Hp Hs. cbv zeta.
    rewrite (TryLock_resolved _ _ _ _ _ _ _ _ _ Hg Hp Hs), Hto.
    set (s := GetStripe lock_map key).
    set (info := mkLockInfo (GetID txn) (GetExpirationTime txn)).
    pose proof (mutex_asked_same p s 0 (set_cache (Some c) w))
      as (Hmh & _ & Hma & Hmw).
    pose proof (AcquireWithTimeout_mutex_failed fuel txn p s cf key 0 info
                  (set_cache (Some c) w)) as Hfail.
    pose proof (AcquireWithTimeout_first_attempt fuel txn p s cf key 0 info
                  (set_cache (Some c) w)) as Hfirst.
    destruct (mutex_asked p s 0 (set_cache (Some c) w)) as [ms mw].
    simpl in Hmh, Hma, Hmw, Hfail, Hfirst. simpl.
    destruct (Status.ok ms) eqn:Hm.
    + assert (Hpm : heap mw !! p = Some lock_map) by (by rewrite Hmh).
      destruct (AcquireLocked_total mw p s lock_map stripe key info 0 0%N
                  Hpm Hs) as (st & hint & wid & w_a & Ha & Hst & Hat & Hcv & _).
      exists st, (emit (EvMutexUnLock p s) w_a).
      split; [|split].
      * eapply Hfirst; [done|exact Ha|by right].
      * rewrite cv_waits_emit. simpl. by rewrite Hcv, Hmw.
      * split_and!; [by eauto| |done].
        simpl. by rewrite Hat, Hma.
    + exists ms, mw. split; [|split].
      * by rewrite Hfail.
      * by rewrite Hmw.
      * by rewrite Hma.
  - split_and!; [|done|done].
    by apply TryLock_unknown.
Qed.

(** *** The batch release *)

Lemma GetLockMap_unknown cf w :
  unknown_cf w cf →
  ∃ c, GetLockMap cf w = Some (None, set_cache (Some c) w).
Proof.
  intros [Hr Hc]. unfold GetLockMap.
  destruct (lock_maps_cache_ w) as [c|]; simpl.
  - rewrite (Hc c eq_refl), Hr. by exists c.
  - rewrite lookup_empty, Hr. by exists ∅.
Qed.

Lemma GetLockMap_keeps_unknown cf cf' w r w0 :
  GetLockMap cf' w = Some (r, w0) →
  unknown_cf w cf → unknown_cf w0 cf.
Proof.
  intros Hg [Hr Hc]. unfold GetLockMap in Hg.
  assert (∀ (c : gmap N positive) q,
            c !! cf = None → lock_maps_ w !! cf' = Some q →
            <[cf' := q]> c !! cf = None) as Hins.
  { intros c q Hn Hq. destruct (decide (cf' = cf)) as [->|Hne].
    - congruence.
    - by rewrite lookup_insert_ne. }
  destruct (lock_maps_cache_ w) as [c|] eqn:Ec; simpl in Hg.
  - destruct (c !! cf') as [q|] eqn:Eq.
    + injection Hg as <- <-. split; simpl; [done|].
      intros c' [= <-]. by apply Hc.
    + destruct (lock_maps_ w !! cf') as [q|] eqn:Er;
        injection Hg as <- <-; (split; simpl; [done|]); intros c' [= <-].
      * apply Hins; [by apply Hc|done].
      * by apply Hc.
  - rewrite lookup_empty in Hg.
    destruct (lock_maps_ w !! cf') as [q|] eqn:Er;
      injection Hg as <- <-; (split; simpl; [done|]); intros c' [= <-].
    + by apply Hins.
    + done.
Qed.

Lemma unknown_cf_same_registry w w' cf :
  same_registry w w' → unknown_cf w cf → unknown_cf w' cf.
Proof. intros [Hr Hc] [H1 H2]. split; [by rewrite Hr|by rewrite Hc]. Qed.

Lemma unlock_key_same_registry p s id key w w' :
  unlock_key p s id key w = Some (tt, w') → same_registry w w'.
Proof.
  unfold unlock_key, load_stripe, load_LockMap, bind at 1 2.
  destruct (heap w !! p) as [lock_map|] eqn:Hp; [|done]. simpl.
  destruct (lock_map_stripes_ lock_map !! s) as [stripe|] eqn:Hs; [|done].
  intros H.
  pose proof (unlock_key_spec w p s lock_map stripe id key Hp Hs) as Hspec.
  unfold unlock_key, load_stripe, load_LockMap, bind at 1 2 in Hspec.
  rewrite Hp in Hspec. simpl in Hspec. rewrite Hs in Hspec.
  rewrite Hspec in H. injection H as <-.
  destruct (keys stripe !! key) as [held|]; [|done].
  by destruct (decide (txn_id held = id)).
Qed.

Lemma unlock_keys_same_registry p s id ks w w' :
  unlock_keys p s id ks w = Some (tt, w') → same_registry w w'.
Proof.
  revert w. induction ks as [|key ks IH]; intros w; simpl.
  - by intros [= <-].
  - unfold bind.
    destruct (unlock_key p s id key w) as [[[] w1]|] eqn:E; [|done].
    intros H. apply unlock_key_same_registry in E as [E1 E2].
    apply IH in H as [H1 H2]. split; congruence.
Qed.

Lemma unlock_stripes_same_registry p id buckets w w' :
  unlock_stripes p id buckets w = Some (tt, w') → same_registry w w'.
Proof.
  revert w. induction buckets as [|[s ks] rest IH]; intros w; simpl.
  - by intros [= <-].
  - unfold bind at 1.
    destruct (load_stripe p s w) as [[stripe w1]|] eqn:El; [|done].
    assert (w1 = w) as ->.
    { unfold load_stripe, load_LockMap, bind, ret, stuck in El.
      destruct (heap w !! p) as [lm|]; [|done]. simpl in El.
      destruct (lock_map_stripes_ lm !! s); congruence. }
    unfold bind at 1, stripe_mutex_Lock at 1. simpl. unfold bind at 1.
    destruct (unlock_keys p s id ks _) as [[[] w2]|] eqn:Ek; [|done].
    apply unlock_keys_same_registry in Ek as [E1 E2].
    unfold stripe_mutex_UnLock, stripe_cv_NotifyAll, bind at 1 2, modify.
    intros H. apply IH in H as [H1 H2]. simpl in *.
    split; congruence.
Qed.

(** C9.  The batch [UnLock] reaches a column family whose lock map is not
    found: it returns at once.  The outcome is that of the batch cut
    before that column family: the lock maps are as the column families
    before it left them, so the keys of those after it stay locked, and
    no further call is made to a collaborator, so none of their stripes is
    notified. *)
Theorem batch_unlock_stops_at_dropped_cf txn pre cf ks post w w1 :
  unknown_cf w cf →
  UnLock_batch txn pre w = Some (tt, w1) →
  ∃ w2,
    UnLock_batch txn (pre ++ (cf, ks) :: post) w = Some (tt, w2)
    ∧ heap w2 = heap w1
    ∧ trace w2 = trace w1
    ∧ notifications w2 = notifications w1.
Proof.
  revert w. induction pre as [|[cf' ks'] pre IH]; intros w Hun Hpre.
  - injection Hpre as <-. simpl.
    destruct (GetLockMap_unknown cf w Hun) as [c Hg].
    exists (set_cache (Some c) w). unfold bind. by rewrite Hg.
  - simpl in *. unfold bind at 1 in Hpre. unfold bind at 1.
    destruct (GetLockMap cf' w) as [[[q|] w0]|] eqn:Hg; [| |done].
    + pose proof (GetLockMap_keeps_unknown _ _ _ _ _ Hg Hun) as Hun0.
      unfold bind at 1 in Hpre. unfold bind at 1.
      destruct (load_LockMap q w0) as [[lock_map w0']|] eqn:El; [|done].
      assert (w0' = w0) as ->.
      { unfold load_LockMap in El.
        destruct (heap w0 !! q); congruence. }
      unfold bind at 1 in Hpre. unfold bind at 1.
      destruct (unlock_stripes q (GetID txn) (keys_by_stripe lock_map ks')
                  w0) as [[[] w']|] eqn:Es; [|done].
      apply IH; [|done].
      eapply unknown_cf_same_registry; [|done].
      by eapply unlock_stripes_same_registry.
    + exists w1. by rewrite Hpre.
Qed.

(** *** Deadlock detection *)

Lemma walk_spec wait_txn_map id next i remaining :
  match walk wait_txn_map id next i remaining with
  | WalkCycle j =>
      ∃ n, (n < remaining)%nat ∧ j = (i + n)%nat
           ∧ chain wait_txn_map next n = Some id
           ∧ ∀ m, (m < n)%nat →
                  ∃ x, chain wait_txn_map next m = Some x ∧ x ≠ id
  | WalkEnd j =>
      ∃ n x, (n < remaining)%nat ∧ j = (i + n)%nat
             ∧ chain wait_txn_map next n = Some x ∧ x ≠ id
             ∧ wait_txn_map !! x = None
  | WalkTooBig =>
      ∀ m, (m < remaining)%nat →
           ∃ x, chain wait_txn_map next m = Some x ∧ x ≠ id
  end.
Proof.
  revert next i.
  induction remaining as [|remaining IH]; intros next i; simpl.
  - intros m Hm. lia.
  - destruct (decide (next = id)) as [->|Hne].
    + exists 0%nat. split_and!; [lia|lia|done|]. intros m Hm. lia.
    + destruct (wait_txn_map !! next) as [next'|] eqn:Hnext.
      * specialize (IH next' (S i)).
        destruct (walk wait_txn_map id next' (S i) remaining) as [j|j|].
        -- destruct IH as (n & Hn & -> & Hc & Hbefore).
           exists (S n). split_and!; [lia|lia|by simpl; rewrite Hnext|].
           intros [|m] Hm; simpl; [by exists next|].
           rewrite Hnext. apply Hbefore. lia.
        -- destruct IH as (n & x & Hn & -> & Hc & Hx & Hend).
           exists (S n), x.
           split_and!; [lia|lia|by simpl; rewrite Hnext|done|done].
        -- intros [|m] Hm; simpl; [by exists next|].
           rewrite Hnext. apply IH. lia.
      * exists 0%nat, next. split_and!; [lia|lia|done|done|done].
Qed.

Lemma DecrementWaitersImpl_spec txn wait_id w :
  DecrementWaitersImpl txn wait_id w =
    let c := u32_decr (default 0%N (rev_wait_txn_map_ w !! wait_id)) in
    Some (tt,
          set_graph (delete (GetID txn) (wait_txn_map_ w))
            (if decide (c = 0%N) then delete wait_id (rev_wait_txn_map_ w)
             else <[wait_id := c]> (rev_wait_txn_map_ w)) w).
Proof.
  unfold DecrementWaitersImpl, modify. cbv zeta.
  rewrite lookup_insert_eq.
  destruct (decide (u32_decr (default 0%N (rev_wait_txn_map_ w !! wait_id))
                    = 0%N)) as [Hz|Hnz].
  - rewrite decide_True by (by rewrite Hz). by rewrite delete_insert_eq.
  - rewrite decide_False; [done|]. intros [= H]. done.
Qed.

Lemma IncrementWaiters_spec txn wait_id w :
  IncrementWaiters txn wait_id w =
    if reports_deadlock txn wait_id w then
      match DecrementWaitersImpl txn wait_id (registered txn wait_id w) with
      | Some (_, w') => Some (true, w')
      | None => None
      end
    else Some (false, registered txn wait_id w).
Proof.
  unfold IncrementWaiters, reports_deadlock, bind, modify, gets, ret.
  fold (registered txn wait_id w).
  destruct (rev_wait_txn_map_ (registered txn wait_id w) !! GetID txn);
    [|done].
  by destruct (walk _ _ _ _ _).
Qed.

Lemma walk_prefix g1 g2 id remaining : ∀ next i,
  (∀ n, (n <= remaining)%nat → chain g1 next n = chain g2 next n) →
  walk g1 id next i remaining = walk g2 id next i remaining.
Proof.
  induction remaining as [|remaining IH]; intros next i Hsame; [done|].
  simpl. destruct (decide (next = id)) as [|Hne]; [done|].
  pose proof (Hsame 1%nat ltac:(lia)) as H1. simpl in H1.
  destruct (g1 !! next) as [y1|] eqn:E1;
    destruct (g2 !! next) as [y2|] eqn:E2; try done.
  injection H1 as ->. apply IH. intros m Hm.
  pose proof (Hsame (S m) ltac:(lia)) as Hm'. simpl in Hm'.
  by rewrite E1, E2 in Hm'.
Qed.

Lemma IncrementWaiters_result txn wait_id w :
  ∃ w', IncrementWaiters txn wait_id w
        = Some (reports_deadlock txn wait_id w, w').
Proof.
  rewrite IncrementWaiters_spec.
  destruct (reports_deadlock txn wait_id w); [|by eauto].
  rewrite DecrementWaitersImpl_spec. cbv zeta. by eauto.
Qed.

(** C2 (bounded deadlock soundness).  [IncrementWaiters] returns.  When it
    returns true, then either the graph with the new edge [id -> wait_id]
    has a cycle through [id] of at most [depth] edges, or it has no such
    cycle and the chain of blockers from [wait_id] runs on for [depth]
    transactions, none of them [id]: the search gave up at the depth and
    the answer is the conservative one.  And the search reads no more than
    [depth] successors: the answer is the same on every graph in which
    [wait_id] and its first [depth] successors are the same, whatever lies
    beyond them. *)
Theorem deadlock_report_sound txn wait_id w :
  let id := GetID txn in
  let graph := <[id := wait_id]> (wait_txn_map_ w) in
  let depth := Z.to_nat (GetDeadlockDetectDepth txn) in
  ∃ r w',
    IncrementWaiters txn wait_id w = Some (r, w')
    ∧ (r = true →
       (∃ len, (1 <= len <= depth)%nat ∧ cycle_through graph id len)
       ∨ ((∀ len, (1 <= len <= depth)%nat → ¬ cycle_through graph id len)
          ∧ ∀ n, (n < depth)%nat →
                 ∃ x, chain graph wait_id n = Some x ∧ x ≠ id))
    ∧ ∀ v r_v v',
        (is_Some (rev_wait_txn_map_ v !! id)
         ↔ is_Some (rev_wait_txn_map_ w !! id)) →
        (∀ n, (n <= depth)%nat →
              chain (<[id := wait_id]> (wait_txn_map_ v)) wait_id n
              = chain graph wait_id n) →
        IncrementWaiters txn wait_id v = Some (r_v, v') →
        r_v = r.
Proof.
  intros id graph depth.
  pose proof (walk_spec graph id wait_id 0 depth) as Hwalk.
  assert (Hedge : graph !! id = Some wait_id) by apply lookup_insert_eq.
  destruct (IncrementWaiters_result txn wait_id w) as [w' Hincr].
  exists (reports_deadlock txn wait_id w), w'. split; [exact Hincr|]. split.
  - unfold reports_deadlock.
    change (wait_txn_map_ (registered txn wait_id w)) with graph.
    fold id depth.
    destruct (rev_wait_txn_map_ (registered txn wait_id w) !! id) as [c|];
      [|done].
    destruct (walk graph id wait_id 0 depth) as [j|j|]; [|done|]; intros _.
    + left. destruct Hwalk as (n & Hn & _ & Hc & _).
      exists (S n). split; [lia|]. split; [lia|].
      simpl. by rewrite Hedge.
    + right. split; [|done].
      intros [|n] Hlen [_ Hc]; [lia|].
      simpl in Hc. rewrite Hedge in Hc.
      destruct (Hwalk n) as (x & Hx & Hne); [lia|]. congruence.
  - intros v r_v v' Hrev Hsame Hv.
    destruct (IncrementWaiters_result txn wait_id v) as [v'' Hv'].
    rewrite Hv in Hv'. injection Hv' as -> _.
    unfold reports_deadlock.
    change (wait_txn_map_ (registered txn wait_id w)) with graph.
    change (wait_txn_map_ (registered txn wait_id v))
      with (<[id := wait_id]> (wait_txn_map_ v)).
    fold id depth.
    rewrite (walk_prefix _ graph id depth wait_id 0%nat Hsame).
    unfold registered. simpl. fold id.
    destruct (decide (wait_id = id)) as [->|Hne].
    + by rewrite !lookup_insert_eq.
    + rewrite !lookup_insert_ne by done.
      destruct (rev_wait_txn_map_ v !! id) as [c|] eqn:Ev;
        destruct (rev_wait_txn_map_ w !! id) as [c'|] eqn:Ew; try done.
      * destruct (proj1 Hrev) as [? ?]; [by eexists|done].
      * destruct (proj2 Hrev) as [? ?]; [by eexists|done].
Qed.

(** *** Accounting of the waiters *)

Lemma waiters_on_empty b : waiters_on ∅ b = 0%N.
Proof. unfold waiters_on. by rewrite map_filter_empty, map_size_empty. Qed.

Lemma waiters_on_insert wait_txn_map id wait_id b :
  wait_txn_map !! id = None →
  waiters_on (<[id := wait_id]> wait_txn_map) b
  = if decide (wait_id = b) then (waiters_on wait_txn_map b + 1)%N
    else waiters_on wait_txn_map b.
Proof.
  intros Hid. unfold waiters_on. rewrite map_filter_insert. simpl.
  destruct (decide (wait_id = b)) as [Heq|Hne].
  - rewrite map_size_insert_None; [lia|].
    apply map_lookup_filter_None. by left.
  - by rewrite delete_id.
Qed.

Lemma waiters_on_delete wait_txn_map id wait_id b :
  wait_txn_map !! id = Some wait_id →
  waiters_on (delete id wait_txn_map) b
  = if decide (wait_id = b) then (waiters_on wait_txn_map b - 1)%N
    else waiters_on wait_txn_map b.
Proof.
  intros Hid. unfold waiters_on. rewrite map_filter_delete.
  destruct (decide (wait_id = b)) as [Heq|Hne].
  - rewrite map_size_delete_Some; [lia|].
    exists wait_id. by apply map_lookup_filter_Some.
  - rewrite map_size_delete_None; [done|].
    apply map_lookup_filter_None. right. intros x Hx. simpl. congruence.
Qed.

Lemma waiters_on_le_size wait_txn_map b :
  (waiters_on wait_txn_map b <= N.of_nat (size wait_txn_map))%N.
Proof.
  unfold waiters_on.
  pose proof (map_subseteq_size _ _
                (map_filter_subseteq (λ kv : N * N, kv.2 = b) wait_txn_map)).
  lia.
Qed.

Lemma waiters_on_positive wait_txn_map id wait_id :
  wait_txn_map !! id = Some wait_id →
  (0 < waiters_on wait_txn_map wait_id)%N.
Proof.
  intros Hid. unfold waiters_on.
  assert (size (filter (λ kv : N * N, kv.2 = wait_id) wait_txn_map) ≠ 0%nat).
  { eapply map_size_ne_0_lookup_2 with (i := id).
    exists wait_id. by apply map_lookup_filter_Some. }
  lia.
Qed.

Lemma u32_incr_small c : (c < 2 ^ 32 - 1)%N → u32_incr c = (c + 1)%N.
Proof. intros H. unfold u32_incr. apply N.mod_small. lia. Qed.

Lemma u32_decr_small c :
  (0 < c < 2 ^ 32)%N → u32_decr c = (c - 1)%N.
Proof.
  intros H. unfold u32_decr.
  replace (c + (2 ^ 32 - 1))%N with ((c - 1) + 1 * 2 ^ 32)%N by lia.
  rewrite N.Div0.mod_add. apply N.mod_small. lia.
Qed.

Lemma set_graph_same w :
  set_graph (wait_txn_map_ w) (rev_wait_txn_map_ w) w = w.
Proof. by destruct w. Qed.

Lemma registered_ok txn wait_id w :
  graph_ok w →
  wait_txn_map_ w !! GetID txn = None →
  (N.of_nat (size (wait_txn_map_ w)) < 2 ^ 32 - 1)%N →
  graph_ok (registered txn wait_id w).
Proof.
  intros [Hacc Hsize] Hid Hroom. split.
  - intros b. unfold registered. simpl.
    rewrite waiters_on_insert by done.
    pose proof (waiters_on_le_size (wait_txn_map_ w) wait_id) as Hle.
    destruct (decide (wait_id = b)) as [<-|Hne].
    + rewrite lookup_insert_eq. rewrite decide_False by lia.
      f_equal. rewrite Hacc.
      destruct (decide (waiters_on (wait_txn_map_ w) wait_id = 0%N))
        as [Hz|Hnz]; simpl.
      * rewrite Hz. reflexivity.
      * apply u32_incr_small. lia.
    + rewrite lookup_insert_ne by done. apply Hacc.
  - unfold registered. simpl. rewrite map_size_insert_None by done. lia.
Qed.

Lemma unregistered_ok txn wait_id w w' :
  graph_ok w →
  wait_txn_map_ w !! GetID txn = Some wait_id →
  DecrementWaitersImpl txn wait_id w = Some (tt, w') →
  graph_ok w'
  ∧ wait_txn_map_ w' = delete (GetID txn) (wait_txn_map_ w)
  ∧ ∀ b, b ≠ wait_id →
         rev_wait_txn_map_ w' !! b = rev_wait_txn_map_ w !! b.
Proof.
  intros [Hacc Hsize] Hid. rewrite DecrementWaitersImpl_spec. cbv zeta.
  intros [= <-].
  pose proof (waiters_on_positive _ _ _ Hid) as Hpos.
  pose proof (waiters_on_le_size (wait_txn_map_ w) wait_id) as Hle.
  assert (Hc : u32_decr (default 0%N (rev_wait_txn_map_ w !! wait_id))
               = (waiters_on (wait_txn_map_ w) wait_id - 1)%N).
  { rewrite Hacc, decide_False by lia. simpl. apply u32_decr_small. lia. }
  rewrite Hc. split_and!.
  - split.
    + intros b. simpl. rewrite (waiters_on_delete _ _ wait_id) by done.
      destruct (decide (wait_id = b)) as [<-|Hne].
      * destruct (decide ((waiters_on (wait_txn_map_ w) wait_id - 1)%N
                          = 0%N)).
        -- by rewrite lookup_delete_eq.
        -- by rewrite lookup_insert_eq.
      * destruct (decide ((waiters_on (wait_txn_map_ w) wait_id - 1)%N
                          = 0%N)).
        -- rewrite lookup_delete_ne by done. apply Hacc.
        -- rewrite lookup_insert_ne by done. apply Hacc.
    + simpl. rewrite map_size_delete_Some by (by eexists). lia.
  - by destruct (decide _).
  - intros b Hb.
    destruct (decide _); simpl;
      [by rewrite lookup_delete_ne|by rewrite lookup_insert_ne].
Qed.

Lemma rollback_restores txn wait_id w w' :
  graph_ok w →
  wait_txn_map_ w !! GetID txn = None →
  (N.of_nat (size (wait_txn_map_ w)) < 2 ^ 32 - 1)%N →
  DecrementWaitersImpl txn wait_id (registered txn wait_id w)
  = Some (tt, w') →
  w' = w.
Proof.
  intros Hok Hid Hroom Hdec.
  pose proof (registered_ok txn wait_id w Hok Hid Hroom) as Hreg.
  assert (Hedge : wait_txn_map_ (registered txn wait_id w) !! GetID txn
                  = Some wait_id) by apply lookup_insert_eq.
  destruct Hok as [Hacc Hsize].
  pose proof (waiters_on_le_size (wait_txn_map_ w) wait_id) as Hle.
  rewrite DecrementWaitersImpl_spec in Hdec. cbv zeta in Hdec.
  injection Hdec as <-. unfold registered. simpl.
  rewrite lookup_insert_eq. simpl.
  rewrite delete_insert_id by done.
  set (c := default 0%N (rev_wait_txn_map_ w !! wait_id)).
  assert (Hc : c = waiters_on (wait_txn_map_ w) wait_id).
  { unfold c. rewrite (Hacc wait_id).
    by destruct (decide (waiters_on (wait_txn_map_ w) wait_id = 0%N))
      as [->|]. }
  assert (Hback : u32_decr (u32_incr c) = c).
  { rewrite u32_incr_small by lia. rewrite u32_decr_small by lia. lia. }
  rewrite Hback.
  assert (Hrev : (if decide (c = 0%N)
                  then delete wait_id
                         (<[wait_id := u32_incr c]> (rev_wait_txn_map_ w))
                  else <[wait_id := c]>
                         (<[wait_id := u32_incr c]> (rev_wait_txn_map_ w)))
                 = rev_wait_txn_map_ w).
  { destruct (decide (c = 0%N)) as [Hz|Hnz].
    - apply delete_insert_id. rewrite (Hacc wait_id).
      rewrite decide_True; [done|congruence].
    - rewrite insert_insert_eq. apply insert_id.
      rewrite (Hacc wait_id), decide_False by congruence.
      by rewrite Hc. }
  rewrite Hrev. by destruct w.
Qed.

Lemma reachable_graph_ok w : reachable_graph w → graph_ok w.
Proof.
  induction 1 as [w Hw Hr|w txn wait_id r w' _ IH Hid Hroom Hincr
                 |w txn wait_id w' _ IH Hid Hdec].
  - split.
    + intros b. by rewrite Hw, Hr, waiters_on_empty, lookup_empty.
    + rewrite Hw, map_size_empty. lia.
  - rewrite IncrementWaiters_spec in Hincr.
    destruct (reports_deadlock txn wait_id w).
    + destruct (DecrementWaitersImpl txn wait_id (registered txn wait_id w))
        as [[[] w1]|] eqn:Hdec; [|done].
      injection Hincr as _ <-.
      by rewrite (rollback_restores _ _ _ _ IH Hid Hroom Hdec).
    + injection Hincr as _ <-. by apply registered_ok.
  - by eapply unregistered_ok.
Qed.

(** C5 (graph accounting).  On every graph that registrations and
    unregistrations build from the empty one, called as the source calls
    them, [rev_wait_txn_map_[b]] is the number of transactions [w] with
    [wait_txn_map_[w] = b], and no entry holds 0.  On such a graph an
    [IncrementWaiters] that reports a deadlock leaves both maps exactly as
    they were on entry.  As the source calls them: [IncrementWaiters]
    asserts that the transaction has no wait registered, the acquire loop
    hands [DecrementWaiters] the [wait_id] it has just registered, so that
    the wait that is unregistered is the one that was registered, and the
    counters, whose width the spec gives as 32 bits, do not wrap. *)
Theorem graph_accounting_invariant w :
  reachable_graph w →
  graph_accounting w
  ∧ (∀ b, rev_wait_txn_map_ w !! b ≠ Some 0%N)
  ∧ ∀ txn wait_id w',
      wait_txn_map_ w !! GetID txn = None →
      (N.of_nat (size (wait_txn_map_ w)) < 2 ^ 32 - 1)%N →
      IncrementWaiters txn wait_id w = Some (true, w') →
      wait_txn_map_ w' = wait_txn_map_ w
      ∧ rev_wait_txn_map_ w' = rev_wait_txn_map_ w.
Proof.
  intros Hreach. pose proof (reachable_graph_ok w Hreach) as Hok.
  split_and!.
  - apply Hok.
  - intros b. destruct Hok as [Hacc _]. rewrite Hacc.
    destruct (decide (waiters_on (wait_txn_map_ w) b = 0%N)); congruence.
  - intros txn wait_id w' Hid Hroom Hincr.
    rewrite IncrementWaiters_spec in Hincr.
    destruct (reports_deadlock txn wait_id w); [|done].
    destruct (DecrementWaitersImpl txn wait_id (registered txn wait_id w))
      as [[[] w1]|] eqn:Hdec; [|done].
    injection Hincr as <-.
    by rewrite (rollback_restores _ _ _ _ Hok Hid Hroom Hdec).
Qed.

(** *** Dropped column families, and the limit switched off *)

Lemma RemoveColumnFamily_inv cf w w' :
  RemoveColumnFamily cf w = Some (tt, w') →
  is_Some (lock_maps_ w !! cf)
  ∧ w' = set_cache None (set_lock_maps (delete cf (lock_maps_ w)) w).
Proof.
  unfold RemoveColumnFamily.
  destruct (lock_maps_ w !! cf) as [q|]; [|done].
  intros [= <-]. by split; [eexists|].
Qed.

Lemma RemoveColumnFamily_unknown cf w w' :
  RemoveColumnFamily cf w = Some (tt, w') →
  unknown_cf w' cf ∧ heap w' = heap w.
Proof.
  intros Hrm. apply RemoveColumnFamily_inv in Hrm as [_ ->].
  split; [|done]. split; simpl; [apply lookup_delete_eq|done].
Qed.

Lemma UnLock_after_RemoveColumnFamily txn cf key w w1 :
  RemoveColumnFamily cf w = Some (tt, w1) →
  ∃ w2, UnLock txn cf key w1 = Some (tt, w2)
        ∧ heap w2 = heap w ∧ trace w2 = trace w.
Proof.
  intros Hrm. pose proof (RemoveColumnFamily_unknown _ _ _ Hrm) as [Hun Hh].
  destruct (GetLockMap_unknown cf w1 Hun) as [c Hg].
  exists (set_cache (Some c) w1). split; [by apply UnLock_dropped|].
  apply RemoveColumnFamily_inv in Hrm as [_ ->]. done.
Qed.

(** With [max_num_locks_ <= 0] no attempt returns [Busy(LockLimit)]. *)
Lemma limit_off_never_lock_limit w p s lock_map stripe key req hint wid :
  max_num_locks_ <= 0 →
  heap w !! p = Some lock_map →
  lock_map_stripes_ lock_map !! s = Some stripe →
  ∃ result hint' wid' w',
    AcquireLocked p s key req hint wid w = Some ((result, hint', wid'), w')
    ∧ result ≠ Status.Busy kLockLimit.
Proof.
  intros Hmax Hp Hs.
  destruct (keys stripe !! key) as [held|] eqn:Hk.
  - destruct (decide (txn_id held = txn_id req)) as [Heq|Hne].
    + rewrite (AcquireLocked_own _ _ _ _ _ _ _ _ _ _ Hp Hs Hk Heq).
      by eexists _, _, _, _.
    + rewrite (AcquireLocked_held_by_other _ _ _ _ _ _ _ _ _ _ Hp Hs Hk Hne).
      cbv zeta.
      destruct ((0 <? expiration_time held)
                && (expiration_time held <=? NowMicros env (ticks w)));
        [destruct (TryStealingExpiredTransactionLocks env (S (ticks w))
                     (txn_id held))
        |destruct (0 <? expiration_time held)];
        by eexists _, _, _, _.
  - rewrite (AcquireLocked_free _ _ _ _ _ _ _ _ _ Hp Hs Hk).
    assert ((0 <? max_num_locks_) = false) as -> by (apply Z.ltb_ge; lia).
    by eexists _, _, _, _.
Qed.

(** With [max_num_locks_ <= 0] the release of a key leaves [lock_cnt] as it
    is. *)
Lemma limit_off_unlock_keeps_lock_cnt w w' p s lock_map stripe id key :
  max_num_locks_ <= 0 →
  heap w !! p = Some lock_map →
  lock_map_stripes_ lock_map !! s = Some stripe →
  unlock_key p s id key w = Some (tt, w') →
  lock_cnt <$> heap w' !! p = Some (lock_cnt lock_map).
Proof.
  intros Hmax Hp Hs. rewrite (unlock_key_spec _ _ _ _ _ _ _ Hp Hs).
  intros [= <-]. unfold erased.
  assert ((0 <? max_num_locks_) = false) as -> by (apply Z.ltb_ge; lia).
  destruct (keys stripe !! key) as [held|]; [|by rewrite Hp].
  destruct (decide (txn_id held = id)); [|by rewrite Hp].
  simpl. by rewrite lookup_insert_eq.
Qed.

(** The insertion of a record keeps [lock_cnt] when [max_num_locks_] is 0,
    and counts it when [max_num_locks_] is any other number, negative ones
    included. *)
Lemma insert_counts_unless_zero w p s lock_map stripe key req hint wid :
  max_num_locks_ <= 0 →
  heap w !! p = Some lock_map →
  lock_map_stripes_ lock_map !! s = Some stripe →
  keys stripe !! key = None →
  ∃ r w',
    AcquireLocked p s key req hint wid w = Some (r, w')
    ∧ lock_cnt <$> heap w' !! p
      = Some (if decide (max_num_locks_ = 0) then lock_cnt lock_map
              else i64 (lock_cnt lock_map + 1)).
Proof.
  intros Hmax Hp Hs Hk.
  rewrite (AcquireLocked_free _ _ _ _ _ _ _ _ _ Hp Hs Hk).
  assert ((0 <? max_num_locks_) = false) as -> by (apply Z.ltb_ge; lia).
  eexists _, _. split; [reflexivity|]. simpl. rewrite lookup_insert_eq.
  destruct (decide (max_num_locks_ = 0)) as [Hz|Hnz].
  - by rewrite decide_False by (intros H; by apply H).
  - by rewrite decide_True.
Qed.

(** ** Further properties *)

(** *** The registry and the thread-local cache *)

Lemma GetLockMap_coherent cf w :
  cache_coherent w →
  ∃ c, GetLockMap cf w = Some (lock_maps_ w !! cf, set_cache (Some c) w)
       ∧ cache_coherent (set_cache (Some c) w).
Proof.
  intros Hco. unfold GetLockMap.
  destruct (lock_maps_cache_ w) as [c|] eqn:Ec; simpl.
  - destruct (c !! cf) as [q|] eqn:Eq.
    + exists c. rewrite (Hco c cf q Ec Eq). split; [done|].
      intros c' cf' p' [= <-] Hp'. simpl. by eapply Hco.
    + destruct (lock_maps_ w !! cf) as [q|] eqn:Er.
      * exists (<[cf := q]> c). split; [done|].
        intros c' cf' p' [= <-] Hp'. simpl.
        destruct (decide (cf = cf')) as [<-|Hne].
        -- rewrite lookup_insert_eq in Hp'. congruence.
        -- rewrite lookup_insert_ne in Hp' by done. by eapply Hco.
      * exists c. split; [done|].
        intros c' cf' p' [= <-] Hp'. simpl. by eapply Hco.
  - rewrite lookup_empty.
    destruct (lock_maps_ w !! cf) as [q|] eqn:Er.
    + exists (<[cf := q]> ∅). split; [done|].
      intros c' cf' p' [= <-] Hp'. simpl.
      destruct (decide (cf = cf')) as [<-|Hne].
      * rewrite lookup_insert_eq in Hp'. congruence.
      * by rewrite lookup_insert_ne, lookup_empty in Hp'.
    + exists ∅. split; [done|].
      intros c' cf' p' [= <-] Hp'. by rewrite lookup_empty in Hp'.
Qed.

(** X1.  As long as the thread-local cache holds only addresses that the
    registry holds too, [GetLockMap] answers exactly what the registry
    holds for the column family, whether the cache is hit or missed; it
    changes nothing but the cache, and the cache stays coherent. *)
Theorem GetLockMap_answers_registry cf w :
  cache_coherent w →
  ∃ w',
    GetLockMap cf w = Some (lock_maps_ w !! cf, w')
    ∧ cache_coherent w'
    ∧ heap w' = heap w
    ∧ lock_maps_ w' = lock_maps_ w
    ∧ trace w' = trace w.
Proof.
  intros Hco. destruct (GetLockMap_coherent cf w Hco) as (c & Hg & Hco').
  exists (set_cache (Some c) w). by split_and!.
Qed.

(** X2.  The cache is coherent in the empty manager, and adding a column
    family, removing one and looking one up all keep it coherent: the
    lookup caches only what it found in the registry, and the removal
    empties the cache. *)
Theorem cache_coherent_preserved :
  cache_coherent empty_World
  ∧ (∀ cf w w', cache_coherent w →
       AddColumnFamily cf w = Some (tt, w') → cache_coherent w')
  ∧ (∀ cf w w', RemoveColumnFamily cf w = Some (tt, w') → cache_coherent w')
  ∧ (∀ cf w r w', cache_coherent w →
       GetLockMap cf w = Some (r, w') → cache_coherent w').
Proof.
  split_and!.
  - intros c cf p Hc. discriminate Hc.
  - intros cf w w' Hco. unfold AddColumnFamily.
    destruct (lock_maps_ w !! cf) as [q|] eqn:Er; intros [= <-]; [done|].
    intros c cf' p Hc Hp. simpl in *.
    destruct (decide (cf = cf')) as [<-|Hne].
    + rewrite (Hco c cf p Hc Hp) in Er. discriminate Er.
    + rewrite lookup_insert_ne by done. by eapply Hco.
  - intros cf w w' Hrm. apply RemoveColumnFamily_inv in Hrm as [_ ->].
    intros c cf' p Hc. discriminate Hc.
  - intros cf w r w' Hco Hg.
    destruct (GetLockMap_coherent cf w Hco) as (c & Hg' & Hco').
    rewrite Hg in Hg'. by injection Hg' as _ ->.
Qed.

(** X3.  Adding a column family that the registry does not hold makes a
    new lock map at an address that was not in use, with
    [default_num_stripes_] empty stripes and a lock count of 0.  The
    lookup of the column family finds it at once, and the lock maps and
    registry entries of the other column families are as before. *)
Theorem AddColumnFamily_makes_empty_lock_map cf w :
  lock_maps_ w !! cf = None →
  cache_coherent w →
  ∃ p w1 w2,
    AddColumnFamily cf w = Some (tt, w1)
    ∧ heap w !! p = None
    ∧ heap w1 !! p = Some (new_LockMap default_num_stripes_)
    ∧ GetLockMap cf w1 = Some (Some p, w2)
    ∧ (∀ q, q ≠ p → heap w1 !! q = heap w !! q)
    ∧ (∀ cf', cf' ≠ cf → lock_maps_ w1 !! cf' = lock_maps_ w !! cf').
Proof.
  intros Hr Hco. unfold AddColumnFamily. rewrite Hr.
  set (p := fresh (dom (heap w))).
  set (w1 := set_lock_maps _ _).
  assert (Hco1 : cache_coherent w1).
  { intros c cf' q Hc Hq. simpl in *.
    destruct (decide (cf = cf')) as [<-|Hne].
    - rewrite (Hco c cf q Hc Hq) in Hr. discriminate Hr.
    - rewrite lookup_insert_ne by done. by eapply Hco. }
  destruct (GetLockMap_coherent cf w1 Hco1) as (c & Hg & _).
  exists p, w1, (set_cache (Some c) w1). split_and!.
  - done.
  - apply not_elem_of_dom. apply is_fresh.
  - simpl. apply lookup_insert_eq.
  - rewrite Hg. simpl. by rewrite lookup_insert_eq.
  - intros q Hq. simpl. by rewrite lookup_insert_ne.
  - intros cf' Hne. simpl. by rewrite lookup_insert_ne.
Qed.

(** X4.  [RemoveColumnFamily] of a column family that the registry holds
    returns, and after it [TryLock] on that column family
    returns [InvalidArgument] without an attempt and without a call to any
    collaborator; the lock maps, the removed one included, are as they
    were, so whoever still holds the address of the removed one can go on
    using it.  The other column families are still found. *)
Theorem TryLock_after_RemoveColumnFamily fuel txn cf key w q :
  lock_maps_ w !! cf = Some q →
  ∃ w1 w2,
    RemoveColumnFamily cf w = Some (tt, w1)
    ∧ TryLock fuel txn cf key w1 = Some (Status.InvalidArgument, w2)
    ∧ heap w2 = heap w
    ∧ trace w2 = trace w
    ∧ attempts w2 = attempts w
    ∧ ∀ cf' p, cf' ≠ cf → lock_maps_ w !! cf' = Some p →
               ∃ w3, GetLockMap cf' w1 = Some (Some p, w3).
Proof.
  intros Hq.
  destruct (RemoveColumnFamily cf w) as [[[] w1]|] eqn:Hrm;
    [|by unfold RemoveColumnFamily in Hrm; rewrite Hq in Hrm].
  pose proof (RemoveColumnFamily_unknown _ _ _ Hrm) as [Hun Hh].
  destruct (GetLockMap_unknown cf w1 Hun) as [c Hg].
  exists w1, (set_cache (Some c) w1).
  apply RemoveColumnFamily_inv in Hrm as [_ ->].
  split_and!; try done.
  - by apply TryLock_unknown.
  - intros cf' p Hne Hp. unfold GetLockMap. simpl.
    rewrite lookup_empty, lookup_delete_ne by done. rewrite Hp. by eexists.
Qed.

(** *** One attempt: the hint, the frame, the count *)

Lemma record_at_frame w w' p s lock_map stripe lock_map' ks' key :
  heap w !! p = Some lock_map →
  lock_map_stripes_ lock_map !! s = Some stripe →
  heap w' = <[p := lock_map']> (heap w) →
  lock_map_stripes_ lock_map'
  = <[s := mkStripe ks']> (lock_map_stripes_ lock_map) →
  (∀ k', k' ≠ key → ks' !! k' = keys stripe !! k') →
  ∀ p' s' k', (p', s', k') ≠ (p, s, key) →
              record_at w' p' s' k' = record_at w p' s' k'.
Proof.
  intros Hp Hs Hh Hst Hks p' s' k' Hne. unfold record_at, stripe_at.
  rewrite Hh. destruct (decide (p' = p)) as [->|Hp'].
  - rewrite lookup_insert_eq, Hp, Hst.
    destruct (decide (s' = s)) as [->|Hs'].
    + rewrite list_lookup_insert_eq by (by eapply lookup_lt_Some).
      rewrite Hs. simpl. apply Hks. congruence.
    + by rewrite list_lookup_insert_ne.
  - by rewrite lookup_insert_ne.
Qed.

(** X5.  A lock held by another transaction that has an expiration time
    the clock has not reached: the attempt reads the clock and nothing
    else.  It does not ask the transaction database about the holder, it
    leaves the lock table alone, and it returns [TimedOut(LockTimeout)]
    with the holder's expiration time as the hint and the holder as the
    transaction to wait for. *)
Theorem unexpired_lock_gives_hint w p s lock_map stripe key held req hint wid :
  heap w !! p = Some lock_map →
  lock_map_stripes_ lock_map !! s = Some stripe →
  keys stripe !! key = Some held →
  txn_id held ≠ txn_id req →
  0 < expiration_time held →
  NowMicros env (ticks w) < expiration_time held →
  ∃ w',
    AcquireLocked p s key req hint wid w
    = Some ((Status.TimedOut kLockTimeout, expiration_time held,
             txn_id held), w')
    ∧ trace w' = EvNowMicros (NowMicros env (ticks w)) :: trace w
    ∧ heap w' = heap w.
Proof.
  intros Hp Hs Hk Hne Hpos Hnow.
  rewrite (AcquireLocked_held_by_other _ _ _ _ _ _ _ _ _ _ Hp Hs Hk Hne).
  cbv zeta.
  assert ((0 <? expiration_time held) = true) as -> by (by apply Z.ltb_lt).
  assert ((expiration_time held <=? NowMicros env (ticks w)) = false) as ->
    by (by apply Z.leb_gt).
  simpl. by eexists.
Qed.

(** X6.  An attempt on a key touches that key only: whatever its outcome,
    the record of every other key, in this stripe, in the other stripes
    and in the other lock maps, is as before, and so are the registry and
    the wait-for graph. *)
Theorem AcquireLocked_touches_one_key
    w p s lock_map stripe key req hint wid r w' :
  heap w !! p = Some lock_map →
  lock_map_stripes_ lock_map !! s = Some stripe →
  AcquireLocked p s key req hint wid w = Some (r, w') →
  (∀ p' s' k', (p', s', k') ≠ (p, s, key) →
               record_at w' p' s' k' = record_at w p' s' k')
  ∧ lock_maps_ w' = lock_maps_ w
  ∧ wait_txn_map_ w' = wait_txn_map_ w
  ∧ rev_wait_txn_map_ w' = rev_wait_txn_map_ w.
Proof.
  intros Hp Hs.
  assert (Hins : ∀ k', k' ≠ key →
            <[key := req]> (keys stripe) !! k' = keys stripe !! k').
  { intros k' Hk'. by rewrite lookup_insert_ne. }
  destruct (keys stripe !! key) as [held|] eqn:Hk.
  - destruct (decide (txn_id held = txn_id req)) as [Heq|Hne].
    + rewrite (AcquireLocked_own _ _ _ _ _ _ _ _ _ _ Hp Hs Hk Heq).
      by intros [= <- <-].
    + rewrite (AcquireLocked_held_by_other _ _ _ _ _ _ _ _ _ _ Hp Hs Hk Hne).
      cbv zeta.
      destruct ((0 <? expiration_time held)
                && (expiration_time held <=? NowMicros env (ticks w)));
        [destruct (TryStealingExpiredTransactionLocks env (S (ticks w))
                     (txn_id held))
        |destruct (0 <? expiration_time held)];
        intros [= <- <-]; try done.
      split_and!; try done.
      eapply record_at_frame; [exact Hp|exact Hs|reflexivity|reflexivity|done].
  - rewrite (AcquireLocked_free _ _ _ _ _ _ _ _ _ Hp Hs Hk).
    destruct ((0 <? max_num_locks_) && (max_num_locks_ <=? lock_cnt lock_map));
      intros [= <- <-]; [done|].
    split_and!; try done.
    eapply record_at_frame; [exact Hp|exact Hs|reflexivity| |exact Hins].
    by destruct (decide (max_num_locks_ ≠ 0)).
Qed.

Lemma locked_keys_insert stripes s (stripe stripe' : LockMapStripe) :
  stripes !! s = Some stripe →
  (sum_list_with (λ st, size (keys st)) (<[s := stripe']> stripes)
   + size (keys stripe)
   = sum_list_with (λ st, size (keys st)) stripes + size (keys stripe'))%nat.
Proof.
  revert s. induction stripes as [|st stripes IH]; intros [|s] Hs;
    simpl in *; try done.
  - injection Hs as ->. lia.
  - specialize (IH s Hs). lia.
Qed.

Lemma count_after_insert lock_map s stripe key info :
  lock_map_stripes_ lock_map !! s = Some stripe →
  keys stripe !! key = None →
  locked_keys (with_keys lock_map s (<[key := info]> (keys stripe)))
  = S (locked_keys lock_map).
Proof.
  intros Hs Hk. unfold locked_keys, with_keys. simpl.
  pose proof (locked_keys_insert _ _ _
                (mkStripe (<[key := info]> (keys stripe))) Hs) as H.
  simpl in H. rewrite map_size_insert_None in H by done. lia.
Qed.

Lemma count_after_overwrite lock_map s stripe key held info :
  lock_map_stripes_ lock_map !! s = Some stripe →
  keys stripe !! key = Some held →
  locked_keys (with_keys lock_map s (<[key := info]> (keys stripe)))
  = locked_keys lock_map.
Proof.
  intros Hs Hk. unfold locked_keys, with_keys. simpl.
  pose proof (locked_keys_insert _ _ _
                (mkStripe (<[key := info]> (keys stripe))) Hs) as H.
  simpl in H. rewrite map_size_insert_Some in H by (by eexists). lia.
Qed.

Lemma count_after_delete lock_map s stripe key held :
  lock_map_stripes_ lock_map !! s = Some stripe →
  keys stripe !! key = Some held →
  S (locked_keys (with_keys lock_map s (delete key (keys stripe))))
  = locked_keys lock_map.
Proof.
  intros Hs Hk. unfold locked_keys, with_keys. simpl.
  pose proof (locked_keys_insert _ _ _
                (mkStripe (delete key (keys stripe))) Hs) as H.
  simpl in H. rewrite map_size_delete_Some in H by (by eexists).
  assert (size (keys stripe) ≠ 0%nat)
    by (eapply map_size_ne_0_lookup_2; by eexists).
  lia.
Qed.

(** X7 (count consistency).  With a positive [max_num_locks_], if
    [lock_cnt] is the number of records in the stripes of the lock map, it
    still is after an attempt, whatever its outcome (insertion, take-over,
    re-entry or failure), and after an [UnLock], whether or not it removes
    a record. *)
Theorem lock_cnt_counts_records
    w p lock_map txn cf key :
  0 < max_num_locks_ →
  is_int64 max_num_locks_ →
  heap w !! p = Some lock_map →
  count_consistent lock_map →
  (∀ s stripe req hint wid r w',
     lock_map_stripes_ lock_map !! s = Some stripe →
     AcquireLocked p s key req hint wid w = Some (r, w') →
     ∃ lock_map', heap w' !! p = Some lock_map'
                  ∧ count_consistent lock_map')
  ∧ (∀ w0 stripe w',
       GetLockMap cf w = Some (Some p, w0) →
       lock_map_stripes_ lock_map !! GetStripe lock_map key = Some stripe →
       UnLock txn cf key w = Some (tt, w') →
       ∃ lock_map', heap w' !! p = Some lock_map'
                    ∧ count_consistent lock_map').
Proof.
  intros Hpos Hmax Hp [Hcnt Hrange].
  assert (H0 : (0 <? max_num_locks_) = true) by (by apply Z.ltb_lt).
  split.
  - intros s stripe req hint wid r w' Hs.
    destruct (keys stripe !! key) as [held|] eqn:Hk.
    + destruct (decide (txn_id held = txn_id req)) as [Heq|Hne].
      * rewrite (AcquireLocked_own _ _ _ _ _ _ _ _ _ _ Hp Hs Hk Heq).
        intros [= <- <-]. by exists lock_map.
      * rewrite (AcquireLocked_held_by_other _ _ _ _ _ _ _ _ _ _ Hp Hs Hk Hne).
        cbv zeta.
        destruct ((0 <? expiration_time held)
                  && (expiration_time held <=? NowMicros env (ticks w)));
          [destruct (TryStealingExpiredTransactionLocks env (S (ticks w))
                       (txn_id held))
          |destruct (0 <? expiration_time held)];
          intros [= <- <-]; try (by exists lock_map).
        eexists. split; [apply lookup_insert_eq|].
        split; [|done]. simpl.
        by erewrite count_after_overwrite.
    + rewrite (AcquireLocked_free _ _ _ _ _ _ _ _ _ Hp Hs Hk), H0. simpl.
      destruct (max_num_locks_ <=? lock_cnt lock_map) eqn:E;
        intros [= <- <-]; [by exists lock_map|].
      apply Z.leb_gt in E. rewrite decide_True by lia.
      eexists. split; [apply lookup_insert_eq|].
      assert (Hi : i64 (lock_cnt lock_map + 1) = lock_cnt lock_map + 1).
      { apply i64_id. unfold is_int64 in *. lia. }
      split; simpl; rewrite Hi.
      * change (locked_keys (with_lock_cnt ?m ?c)) with (locked_keys m).
        rewrite count_after_insert by done. lia.
      * unfold is_int64 in *. lia.
  - intros w0 stripe w' Hg Hs.
    rewrite (UnLock_resolved _ _ _ _ _ _ _ _ Hg Hp Hs). cbv zeta.
    intros [= <-].
    destruct (GetLockMap_total cf w) as (r & c & Hg' & _).
    rewrite Hg in Hg'. injection Hg' as _ ->.
    destruct (keys stripe !! key) as [held|] eqn:Hk;
      [|by exists lock_map].
    destruct (decide (txn_id held = GetID txn)); [|by exists lock_map].
    eexists. split; [apply lookup_insert_eq|].
    unfold erased. rewrite H0.
    pose proof (count_after_delete _ _ _ _ _ Hs Hk) as Hdel.
    assert (Hi : i64 (lock_cnt lock_map - 1) = lock_cnt lock_map - 1).
    { apply i64_id. unfold is_int64 in *. lia. }
    split; simpl; rewrite Hi.
    + change (locked_keys (with_lock_cnt ?m ?c)) with (locked_keys m). lia.
    + unfold is_int64 in *. lia.
Qed.

(** *** The wait-for graph: what is found, what is undone *)

Lemma chain_last wait_txn_map x n y :
  chain wait_txn_map x (S n) = Some y →
  ∃ z, chain wait_txn_map x n = Some z ∧ wait_txn_map !! z = Some y.
Proof.
  revert x. induction n as [|n IH]; intros x; simpl.
  - destruct (wait_txn_map !! x) as [x'|] eqn:Hx; [|done].
    intros [= <-]. by exists x.
  - destruct (wait_txn_map !! x) as [x'|] eqn:Hx; [|done].
    intros H. apply (IH x'). simpl. exact H.
Qed.

Lemma walk_finds wait_txn_map id next i remaining n :
  (n < remaining)%nat →
  chain wait_txn_map next n = Some id →
  ∃ j, walk wait_txn_map id next i remaining = WalkCycle j.
Proof.
  revert next i n.
  induction remaining as [|remaining IH]; intros next i n Hn Hc; [lia|].
  simpl. destruct (decide (next = id)) as [->|Hne]; [by eexists|].
  destruct n as [|n]; simpl in Hc; [congruence|].
  destruct (wait_txn_map !! next) as [next'|]; [|done].
  apply (IH next' (S i) n); [lia|done].
Qed.

Lemma cycle_reported txn wait_id w len :
  graph_ok w →
  wait_txn_map_ w !! GetID txn = None →
  (N.of_nat (size (wait_txn_map_ w)) < 2 ^ 32 - 1)%N →
  (1 <= len <= Z.to_nat (GetDeadlockDetectDepth txn))%nat →
  cycle_through (<[GetID txn := wait_id]> (wait_txn_map_ w)) (GetID txn) len →
  reports_deadlock txn wait_id w = true.
Proof.
  intros Hok Hid Hroom Hlen [_ Hcyc].
  destruct (registered_ok txn wait_id w Hok Hid Hroom) as [Hacc _].
  unfold reports_deadlock.
  destruct len as [|n]; [lia|].
  destruct (chain_last _ _ _ _ Hcyc) as (z & _ & Hz).
  pose proof (waiters_on_positive _ _ _ Hz) as Hpos.
  rewrite (Hacc (GetID txn)), decide_False by (simpl; lia).
  simpl in Hcyc. rewrite lookup_insert_eq in Hcyc.
  destruct (walk_finds _ (GetID txn) wait_id 0
              (Z.to_nat (GetDeadlockDetectDepth txn)) n ltac:(lia) Hcyc)
    as [j Hj].
  simpl. by rewrite Hj.
Qed.

(** X8 (bounded deadlock completeness).  On a graph whose counts are
    exact, when the new edge [id -> wait_id] closes a cycle through [id] of
    at most [depth] edges, [IncrementWaiters] reports the deadlock, and it
    leaves the graph exactly as it found it. *)
Theorem deadlock_within_depth_detected txn wait_id w len :
  graph_ok w →
  wait_txn_map_ w !! GetID txn = None →
  (N.of_nat (size (wait_txn_map_ w)) < 2 ^ 32 - 1)%N →
  (1 <= len <= Z.to_nat (GetDeadlockDetectDepth txn))%nat →
  cycle_through (<[GetID txn := wait_id]> (wait_txn_map_ w)) (GetID txn) len →
  IncrementWaiters txn wait_id w = Some (true, w).
Proof.
  intros Hok Hid Hroom Hlen Hcyc.
  rewrite IncrementWaiters_spec.
  rewrite (cycle_reported _ _ _ _ Hok Hid Hroom Hlen Hcyc).
  destruct (DecrementWaitersImpl txn wait_id (registered txn wait_id w))
    as [[[] w1]|] eqn:Hdec.
  - by rewrite (rollback_restores _ _ _ _ Hok Hid Hroom Hdec).
  - rewrite DecrementWaitersImpl_spec in Hdec. done.
Qed.

(** X9 (a wait registered and undone).  On a graph whose counts are exact,
    when [IncrementWaiters] returns false the wait is in the graph: the
    transaction waits for [wait_id], which has one waiter more, and the
    counts are exact still.  No cycle of at most [depth] edges goes through
    the transaction.  The [DecrementWaiters] that ends the wait then puts
    the whole graph back as it was. *)
Theorem wait_registered_then_undone txn wait_id w w' :
  graph_ok w →
  wait_txn_map_ w !! GetID txn = None →
  (N.of_nat (size (wait_txn_map_ w)) < 2 ^ 32 - 1)%N →
  IncrementWaiters txn wait_id w = Some (false, w') →
  wait_txn_map_ w' = <[GetID txn := wait_id]> (wait_txn_map_ w)
  ∧ rev_wait_txn_map_ w' !! wait_id
    = Some (waiters_on (wait_txn_map_ w) wait_id + 1)%N
  ∧ graph_ok w'
  ∧ (∀ len, (1 <= len <= Z.to_nat (GetDeadlockDetectDepth txn))%nat →
            ¬ cycle_through (wait_txn_map_ w') (GetID txn) len)
  ∧ DecrementWaiters txn wait_id w' = Some (tt, w).
Proof.
  intros Hok Hid Hroom Hincr.
  rewrite IncrementWaiters_spec in Hincr.
  destruct (reports_deadlock txn wait_id w) eqn:Hrep.
  { destruct (DecrementWaitersImpl _ _ _) as [[[] w1]|]; done. }
  injection Hincr as <-.
  pose proof (registered_ok txn wait_id w Hok Hid Hroom) as Hreg.
  split_and!.
  - done.
  - destruct Hreg as [Hacc _]. rewrite (Hacc wait_id). simpl.
    rewrite waiters_on_insert by done.
    destruct (decide (wait_id = wait_id)); [|done].
    by rewrite decide_False by lia.
  - done.
  - intros len Hlen Hcyc.
    rewrite (cycle_reported _ _ _ _ Hok Hid Hroom Hlen Hcyc) in Hrep. done.
  - unfold DecrementWaiters.
    destruct (DecrementWaitersImpl txn wait_id (registered txn wait_id w))
      as [[[] w1]|] eqn:Hdec.
    + by rewrite (rollback_restores _ _ _ _ Hok Hid Hroom Hdec).
    + rewrite DecrementWaitersImpl_spec in Hdec. done.
Qed.

(** *** The retry loop, step by step *)

Lemma bind_inv {A B} (m : M A) (k : A → M B) w b w' :
  bind m k w = Some (b, w') →
  ∃ a w1, m w = Some (a, w1) ∧ k a w1 = Some (b, w').
Proof.
  unfold bind. destruct (m w) as [[a w1]|]; [|done]. by exists a, w1.
Qed.

Lemma retry_loop_unfold
    fuel txn p s cf key timeout info end_time result hint wait_id :
  retry_loop (S fuel) txn p s cf key timeout info end_time result hint wait_id
  = (deadlock <~ register_step txn wait_id ;;
     if (deadlock : bool) then
       stripe_mutex_UnLock p s ;;;
       ret (Return (Status.Busy kDeadlock))
     else
       announce_step wait_id cf key ;;;
       result1 <~ wait_step p s timeout end_time result hint ;;
       unregister_step txn wait_id ;;;
       r <~ attempt_step p s key info result1 hint wait_id ;;
       if negb (Status.ok r.1.1) && negb (Status.IsTimedOut result1) then
         retry_loop fuel txn p s cf key timeout info end_time
                    r.1.1 r.1.2 r.2
       else ret (Break r.1.1)).
Proof. reflexivity. Qed.

(** What one iteration does, as a chain of intermediate worlds. *)
Lemma retry_loop_inv
    fuel txn p s cf key timeout info end_time result hint wait_id w exit w' :
  retry_loop (S fuel) txn p s cf key timeout info end_time result hint
             wait_id w = Some (exit, w') →
  ∃ deadlock w1,
    register_step txn wait_id w = Some (deadlock, w1)
    ∧ if (deadlock : bool) then
        exit = Return (Status.Busy kDeadlock)
        ∧ w' = emit (EvMutexUnLock p s) w1
      else
        ∃ w2 result1 w3 w4 r w5,
          announce_step wait_id cf key w1 = Some (tt, w2)
          ∧ wait_step p s timeout end_time result hint w2
            = Some (result1, w3)
          ∧ unregister_step txn wait_id w3 = Some (tt, w4)
          ∧ attempt_step p s key info result1 hint wait_id w4 = Some (r, w5)
          ∧ if negb (Status.ok r.1.1) && negb (Status.IsTimedOut result1)
            then retry_loop fuel txn p s cf key timeout info end_time
                            r.1.1 r.1.2 r.2 w5 = Some (exit, w')
            else exit = Break r.1.1 ∧ w' = w5.
Proof.
  rewrite retry_loop_unfold. intros H.
  apply bind_inv in H as (deadlock & w1 & Hreg & H).
  exists deadlock, w1. split; [done|].
  destruct deadlock.
  - unfold stripe_mutex_UnLock, bind, modify, ret in H.
    by injection H as <- <-.
  - apply bind_inv in H as ([] & w2 & Hann & H).
    apply bind_inv in H as (result1 & w3 & Hwait & H).
    apply bind_inv in H as ([] & w4 & Hun & H).
    apply bind_inv in H as (r & w5 & Hatt & H).
    exists w2, result1, w3, w4, r, w5. split_and!; try done.
    destruct (negb (Status.ok r.1.1) && negb (Status.IsTimedOut result1));
      [done|].
    unfold ret in H. by injection H as <- <-.
Qed.

Lemma mutex_unlocks_emit e w :
  mutex_unlocks (emit e w)
  = if is_mutex_unlock e then S (mutex_unlocks w) else mutex_unlocks w.
Proof.
  unfold mutex_unlocks. simpl. rewrite filter_cons.
  destruct (is_mutex_unlock e) eqn:E.
  - by rewrite decide_True.
  - by rewrite decide_False.
Qed.

(** Everything an attempt leaves alone, and what its status says. *)
Lemma AcquireLocked_effect p s key req hint wid w r w' :
  AcquireLocked p s key req hint wid w = Some (r, w') →
  ∃ lock_map stripe,
    heap w !! p = Some lock_map
    ∧ lock_map_stripes_ lock_map !! s = Some stripe
    ∧ mutex_unlocks w' = mutex_unlocks w
    ∧ cv_waits w' = cv_waits w
    ∧ attempts w' = S (attempts w)
    ∧ graph_of w' = graph_of w
    ∧ (r.1.1 = Status.OK ∨ r.1.1 = Status.TimedOut kLockTimeout
       ∨ r.1.1 = Status.Busy kLockLimit)
    ∧ (Status.ok r.1.1 = true → holds w' p s key (txn_id req))
    ∧ (Status.ok r.1.1 = false → heap w' = heap w).
Proof.
  intros H.
  destruct (heap w !! p) as [lock_map|] eqn:Hp.
  2: { unfold AcquireLocked, load_stripe, load_LockMap, bind, modify in H.
       simpl in H. by rewrite Hp in H. }
  destruct (lock_map_stripes_ lock_map !! s) as [stripe|] eqn:Hs.
  2: { unfold AcquireLocked, load_stripe, load_LockMap, bind, modify, stuck
         in H.
       simpl in H. rewrite Hp in H. simpl in H. by rewrite Hs in H. }
  exists lock_map, stripe. split; [done|]. split; [done|].
  assert (Hlt : (s < length (lock_map_stripes_ lock_map))%nat)
    by (by eapply lookup_lt_Some).
  assert (Hheld : ∀ h (lm' : LockMap),
            lock_map_stripes_ lm'
            = <[s := mkStripe (<[key := req]> (keys stripe))]>
                (lock_map_stripes_ lock_map) →
            heap w' = <[p := lm']> h →
            holds w' p s key (txn_id req)).
  { intros h lm' Hlm Hh. exists req. split; [|done].
    unfold record_at, stripe_at. rewrite Hh, lookup_insert_eq, Hlm.
    rewrite list_lookup_insert_eq by done. simpl. apply lookup_insert_eq. }
  destruct (keys stripe !! key) as [held|] eqn:Hk.
  - destruct (decide (txn_id held = txn_id req)) as [Heq|Hne].
    + rewrite (AcquireLocked_own _ _ _ _ _ _ _ _ _ _ Hp Hs Hk Heq) in H.
      injection H as <- <-. simpl.
      split_and!; try done; [by left|].
      intros _. exists held. split; [|done].
      unfold record_at, stripe_at. simpl. by rewrite Hp, Hs.
    + rewrite (AcquireLocked_held_by_other _ _ _ _ _ _ _ _ _ _ Hp Hs Hk Hne)
        in H.
      cbv zeta in H. unfold mutex_unlocks, cv_waits.
      destruct ((0 <? expiration_time held)
                && (expiration_time held <=? NowMicros env (ticks w)));
        [destruct (TryStealingExpiredTransactionLocks env (S (ticks w))
                     (txn_id held))
        |destruct (0 <? expiration_time held)];
        injection H as <- <-; simpl; split_and!; try done; auto.
      intros _. eapply Hheld; [|reflexivity]. reflexivity.
  - rewrite (AcquireLocked_free _ _ _ _ _ _ _ _ _ Hp Hs Hk) in H.
    destruct ((0 <? max_num_locks_) && (max_num_locks_ <=? lock_cnt lock_map));
      injection H as <- <-; simpl; split_and!; try done; auto.
    intros _. eapply Hheld; [|reflexivity].
    by destruct (decide (max_num_locks_ ≠ 0)).
Qed.

Lemma IncrementWaiters_frame txn wait_id w r w' :
  IncrementWaiters txn wait_id w = Some (r, w') →
  heap w' = heap w ∧ trace w' = trace w ∧ attempts w' = attempts w.
Proof.
  rewrite IncrementWaiters_spec.
  destruct (reports_deadlock txn wait_id w).
  - rewrite DecrementWaitersImpl_spec. cbv zeta. intros [= <- <-].
    by destruct (decide _).
  - by intros [= <- <-].
Qed.

Lemma DecrementWaiters_frame txn wait_id w w' :
  DecrementWaiters txn wait_id w = Some (tt, w') →
  heap w' = heap w ∧ trace w' = trace w ∧ attempts w' = attempts w.
Proof.
  unfold DecrementWaiters. rewrite DecrementWaitersImpl_spec. cbv zeta.
  intros [= <-]. by destruct (decide _).
Qed.

Lemma register_step_frame txn wait_id w d w' :
  register_step txn wait_id w = Some (d, w') →
  heap w' = heap w ∧ trace w' = trace w ∧ attempts w' = attempts w.
Proof.
  unfold register_step.
  destruct (decide (wait_id ≠ 0%N)); [|by intros [= <- <-]].
  destruct (IsDeadlockDetect txn); [|by intros [= <- <-]].
  apply IncrementWaiters_frame.
Qed.

Lemma announce_step_frame wait_id cf key w w' :
  announce_step wait_id cf key w = Some (tt, w') →
  heap w' = heap w ∧ attempts w' = attempts w
  ∧ graph_of w' = graph_of w
  ∧ mutex_unlocks w' = mutex_unlocks w ∧ cv_waits w' = cv_waits w.
Proof.
  unfold announce_step, SetWaitingTxn, modify, ret.
  destruct (decide (wait_id ≠ 0%N)); intros [= <-]; [|done].
  by rewrite mutex_unlocks_emit, cv_waits_emit.
Qed.

Lemma unregister_step_frame txn wait_id w w' :
  unregister_step txn wait_id w = Some (tt, w') →
  heap w' = heap w ∧ attempts w' = attempts w
  ∧ mutex_unlocks w' = mutex_unlocks w ∧ cv_waits w' = cv_waits w.
Proof.
  unfold unregister_step.
  destruct (decide (wait_id ≠ 0%N)); [|by intros [= <-]].
  intros H. apply bind_inv in H as ([] & w1 & Hset & H).
  unfold SetWaitingTxn, modify in Hset. injection Hset as <-.
  assert (Hbase : mutex_unlocks (emit (EvSetWaitingTxn 0 0 None) w)
                  = mutex_unlocks w
                  ∧ cv_waits (emit (EvSetWaitingTxn 0 0 None) w) = cv_waits w)
    by (by rewrite mutex_unlocks_emit, cv_waits_emit).
  destruct Hbase as [Hu Hc].
  destruct (IsDeadlockDetect txn).
  - apply DecrementWaiters_frame in H as (Hh & Ht & Ha).
    unfold mutex_unlocks, cv_waits in *. rewrite Ht, Hh, Ha. by split_and!.
  - unfold ret in H. injection H as <-. by split_and!.
Qed.

Lemma sleep_frame n w :
  attempts (sleep n w) = attempts w
  ∧ mutex_unlocks (sleep n w) = mutex_unlocks w
  ∧ cv_waits (sleep n w) = cv_waits w.
Proof. done. Qed.

Lemma wait_step_frame p s timeout end_time result hint w result1 w' :
  wait_step p s timeout end_time result hint w = Some (result1, w') →
  attempts w' = attempts w
  ∧ mutex_unlocks w' = mutex_unlocks w
  ∧ (cv_waits w' = cv_waits w ∧ result1 = result
     ∨ cv_waits w' = S (cv_waits w) ∧ ∃ n, result1 = cv_result env n).
Proof.
  unfold wait_step. cbv zeta.
  match goal with |- context [Z.ltb ?c 0] => generalize c end.
  intros cv_end_time.
  destruct (cv_end_time <? 0).
  - unfold stripe_cv_Wait. intros [= <- <-].
    destruct (sleep_frame (ticks w)
                (emit (EvCvWait p s (cv_result env (ticks w))) w))
      as (-> & -> & ->).
    rewrite mutex_unlocks_emit, cv_waits_emit. simpl.
    split_and!; [done|done|]. right. split; [done|by eexists].
  - intros H. apply bind_inv in H as (now & w1 & Hnow & H).
    unfold env_NowMicros in Hnow. injection Hnow as <- <-.
    destruct (_ <? u64 cv_end_time).
    + unfold stripe_cv_WaitFor in H. injection H as <- <-.
      match goal with |- context [sleep ?n ?x] =>
        destruct (sleep_frame n x) as (-> & -> & ->) end.
      rewrite !mutex_unlocks_emit, !cv_waits_emit. simpl.
      split_and!; [done|done|]. right. split; [done|by eexists].
    + unfold ret in H. injection H as <- <-.
      rewrite mutex_unlocks_emit, cv_waits_emit. simpl.
      split_and!; [done|done|by left].
Qed.

Lemma attempt_step_effect p s key req result hint wid w r w' :
  attempt_step p s key req result hint wid w = Some (r, w') →
  mutex_unlocks w' = mutex_unlocks w
  ∧ cv_waits w' = cv_waits w
  ∧ graph_of w' = graph_of w
  ∧ (Status.ok r.1.1 = true → holds w' p s key (txn_id req))
  ∧ (Status.ok result || Status.IsTimedOut result = true →
       attempts w' = S (attempts w)
       ∧ (r.1.1 = Status.OK ∨ r.1.1 = Status.TimedOut kLockTimeout
          ∨ r.1.1 = Status.Busy kLockLimit))
  ∧ (Status.ok result || Status.IsTimedOut result = false →
       attempts w' = attempts w ∧ r.1.1 = result).
Proof.
  unfold attempt_step.
  destruct (Status.ok result || Status.IsTimedOut result) eqn:E.
  - intros H.
    destruct (AcquireLocked_effect _ _ _ _ _ _ _ _ _ H)
      as (lm & st & _ & _ & Hu & Hc & Ha & Hg & Hst & Hholds & _).
    by split_and!.
  - unfold ret. intros [= <- <-]. simpl. split_and!; try done.
    intros Hok. apply orb_false_iff in E as [E _]. congruence.
Qed.

(** *** What [TryLock] returns, and in what state *)

Lemma retry_loop_result
    fuel txn p s cf key timeout info end_time result hint wait_id w exit w' :
  retry_loop fuel txn p s cf key timeout info end_time result hint wait_id w
  = Some (exit, w') →
  match exit with
  | Return st => st = Status.Busy kDeadlock
  | Break st =>
      (Status.ok st = true → holds w' p s key (txn_id info))
      ∧ (st = Status.OK ∨ st = Status.TimedOut kLockTimeout
         ∨ st = Status.Busy kLockLimit)
  end.
Proof.
  revert result hint wait_id w.
  induction fuel as [|fuel IH]; intros result hint wait_id w H; [done|].
  apply retry_loop_inv in H as (deadlock & w1 & _ & H).
  destruct deadlock.
  - by destruct H as [-> _].
  - destruct H as (w2 & result1 & w3 & w4 & r & w5 & _ & _ & _ & Hatt & H).
    destruct (attempt_step_effect _ _ _ _ _ _ _ _ _ _ Hatt)
      as (_ & _ & _ & Hholds & Hyes & Hno).
    destruct (negb (Status.ok r.1.1) && negb (Status.IsTimedOut result1))
      eqn:Hgo.
    + by eapply IH.
    + destruct H as [-> ->].
      destruct (Status.ok result1 || Status.IsTimedOut result1) eqn:E.
      * destruct (Hyes eq_refl) as [_ Hst]. by split.
      * destruct (Hno eq_refl) as [_ Hr]. rewrite Hr in Hgo.
        apply orb_false_iff in E as [E1 E2]. by rewrite E1, E2 in Hgo.
Qed.

Lemma retry_loop_unlocks
    fuel txn p s cf key timeout info end_time result hint wait_id w exit w' :
  retry_loop fuel txn p s cf key timeout info end_time result hint wait_id w
  = Some (exit, w') →
  match exit with
  | Return _ =>
      mutex_unlocks w' = S (mutex_unlocks w)
      ∧ ∃ tr, trace w' = EvMutexUnLock p s :: tr
  | Break _ => mutex_unlocks w' = mutex_unlocks w
  end.
Proof.
  revert result hint wait_id w.
  induction fuel as [|fuel IH]; intros result hint wait_id w H; [done|].
  apply retry_loop_inv in H as (deadlock & w1 & Hreg & H).
  apply register_step_frame in Hreg as (_ & Htr & _).
  assert (Hu1 : mutex_unlocks w1 = mutex_unlocks w)
    by (unfold mutex_unlocks; by rewrite Htr).
  destruct deadlock.
  - destruct H as [-> ->]. rewrite mutex_unlocks_emit. simpl.
    split; [by rewrite Hu1|by eexists].
  - destruct H as (w2 & result1 & w3 & w4 & r & w5
                   & Hann & Hwait & Hun & Hatt & H).
    apply announce_step_frame in Hann as (_ & _ & _ & Hu2 & _).
    apply wait_step_frame in Hwait as (_ & Hu3 & _).
    apply unregister_step_frame in Hun as (_ & _ & Hu4 & _).
    apply attempt_step_effect in Hatt as (Hu5 & _).
    assert (Hu : mutex_unlocks w5 = mutex_unlocks w) by congruence.
    destruct (negb (Status.ok r.1.1) && negb (Status.IsTimedOut result1)).
    + apply IH in H. destruct exit; [|congruence].
      destruct H as [H1 H2]. split; [congruence|done].
    + by destruct H as [-> ->].
Qed.

(** The ways out of [AcquireWithTimeout]. *)
Lemma AcquireWithTimeout_inv fuel txn p s cf key timeout info w st w' :
  AcquireWithTimeout fuel txn p s cf key timeout info w = Some (st, w') →
  let m := mutex_asked p s timeout w in
  let end_time :=
    if 0 <? timeout then u64 (NowMicros env (ticks w) + timeout) else 0 in
  (Status.ok m.1 = false ∧ st = m.1 ∧ w' = m.2)
  ∨ (Status.ok m.1 = true
     ∧ ∃ r w_a,
         AcquireLocked p s key info 0 0%N m.2 = Some (r, w_a)
         ∧ ((Status.ok r.1.1 = true ∨ timeout = 0)
            ∧ st = r.1.1 ∧ w' = emit (EvMutexUnLock p s) w_a
            ∨ Status.ok r.1.1 = false ∧ timeout ≠ 0
              ∧ ∃ exit w_l,
                  retry_loop fuel txn p s cf key timeout info end_time
                             r.1.1 r.1.2 r.2 w_a = Some (exit, w_l)
                  ∧ match exit with
                    | Return st' => st = st' ∧ w' = w_l
                    | Break st' =>
                        st = st' ∧ w' = emit (EvMutexUnLock p s) w_l
                    end)).
Proof.
  unfold mutex_asked, AcquireWithTimeout, env_NowMicros, stripe_mutex_Lock,
    stripe_mutex_TryLockFor, stripe_mutex_UnLock.
  intros H. cbv zeta.
  assert (Hrest : ∀ r0 w0 e0,
    (if negb (Status.ok r0) then ret r0
     else
       r <~ AcquireLocked p s key info 0 0%N ;;
       if negb (Status.ok r.1.1) && negb (timeout =? 0) then
         exit <~ retry_loop fuel txn p s cf key timeout info e0
                            r.1.1 r.1.2 r.2 ;;
         match exit with
         | Return result => ret result
         | Break result => modify (emit (EvMutexUnLock p s)) ;;; ret result
         end
       else modify (emit (EvMutexUnLock p s)) ;;; ret r.1.1) w0
    = Some (st, w') →
    Status.ok r0 = false ∧ st = r0 ∧ w' = w0
    ∨ Status.ok r0 = true
      ∧ ∃ r w_a,
          AcquireLocked p s key info 0 0%N w0 = Some (r, w_a)
          ∧ ((Status.ok r.1.1 = true ∨ timeout = 0)
             ∧ st = r.1.1 ∧ w' = emit (EvMutexUnLock p s) w_a
             ∨ Status.ok r.1.1 = false ∧ timeout ≠ 0
               ∧ ∃ exit w_l,
                   retry_loop fuel txn p s cf key timeout info e0
                              r.1.1 r.1.2 r.2 w_a = Some (exit, w_l)
                   ∧ match exit with
                     | Return st' => st = st' ∧ w' = w_l
                     | Break st' =>
                         st = st' ∧ w' = emit (EvMutexUnLock p s) w_l
                     end)).
  { intros r0 w0 e0 Hr. destruct (Status.ok r0) eqn:Hok; simpl in Hr.
    - right. split; [done|].
      apply bind_inv in Hr as (r & w_a & Ha & Hr). exists r, w_a.
      split; [done|].
      destruct (Status.ok r.1.1) eqn:Hrok; simpl in Hr.
      + left. unfold bind, modify, ret in Hr. injection Hr as <- <-. auto.
      + destruct (timeout =? 0) eqn:Ht; simpl in Hr.
        * left. apply Z.eqb_eq in Ht.
          unfold bind, modify, ret in Hr. injection Hr as <- <-. auto.
        * right. apply Z.eqb_neq in Ht. split; [done|]. split; [done|].
          apply bind_inv in Hr as (exit & w_l & Hl & Hr). exists exit, w_l.
          split; [done|]. destruct exit.
          -- unfold ret in Hr. by injection Hr as <- <-.
          -- unfold bind, modify, ret in Hr. by injection Hr as <- <-.
    - left. unfold ret in Hr. by injection Hr as <- <-. }
  unfold bind at 1 2 in H.
  destruct (0 <? timeout), (timeout <? 0); simpl in H |- *;
    by apply Hrest in H.
Qed.

Lemma mutex_asked_unlocks p s timeout w :
  mutex_unlocks (mutex_asked p s timeout w).2 = mutex_unlocks w
  ∧ graph_of (mutex_asked p s timeout w).2 = graph_of w
  ∧ ∃ e tr, trace (mutex_asked p s timeout w).2 = e :: tr
            ∧ is_mutex_unlock e = false.
Proof.
  unfold mutex_asked.
  destruct (0 <? timeout), (timeout <? 0); simpl;
    rewrite ?mutex_unlocks_emit; simpl; (split_and!; [done|done|]);
    by eexists _, _.
Qed.

(** X10 (success is ownership).  Whatever the timeout, the waits and what
    the other threads do meanwhile: when [TryLock] returns a status that is
    ok, the key's record in the lock table names the transaction as the
    holder. *)
Theorem TryLock_ok_holds fuel txn cf key w p w0 lock_map stripe st w' :
  GetLockMap cf w = Some (Some p, w0) →
  heap w !! p = Some lock_map →
  lock_map_stripes_ lock_map !! GetStripe lock_map key = Some stripe →
  TryLock fuel txn cf key w = Some (st, w') →
  Status.ok st = true →
  holds w' p (GetStripe lock_map key) key (GetID txn).
Proof.
  intros Hg Hp Hs Hl Hok.
  rewrite (TryLock_resolved _ _ _ _ _ _ _ _ _ Hg Hp Hs) in Hl.
  apply AcquireWithTimeout_inv in Hl. cbv zeta in Hl.
  destruct Hl as [(Hm & -> & _)|(_ & r & w_a & Ha & Hl)]; [congruence|].
  assert (Hemit : ∀ w1, holds w1 p (GetStripe lock_map key) key (GetID txn) →
            holds (emit (EvMutexUnLock p (GetStripe lock_map key)) w1)
                  p (GetStripe lock_map key) key (GetID txn)) by done.
  destruct Hl as [(_ & -> & ->)|(_ & _ & exit & w_l & Hloop & Hexit)].
  - apply Hemit.
    destruct (AcquireLocked_effect _ _ _ _ _ _ _ _ _ Ha)
      as (_ & _ & _ & _ & _ & _ & _ & _ & _ & Hholds & _).
    by apply Hholds.
  - apply retry_loop_result in Hloop. destruct exit.
    + destruct Hexit as [-> _]. by rewrite Hloop in Hok.
    + destruct Hexit as [-> ->]. apply Hemit. by apply Hloop.
Qed.

(** X11 (the statuses of [TryLock]).  Once the stripe mutex is obtained,
    [TryLock] returns [OK], [TimedOut(LockTimeout)], [Busy(LockLimit)] or
    [Busy(Deadlock)] and nothing else: a status that a wait on the
    condition variable returns is never handed to the caller.  When the
    mutex is not obtained, its status is what the caller gets. *)
Theorem TryLock_statuses fuel txn cf key w p w0 lock_map stripe st w' :
  GetLockMap cf w = Some (Some p, w0) →
  heap w !! p = Some lock_map →
  lock_map_stripes_ lock_map !! GetStripe lock_map key = Some stripe →
  TryLock fuel txn cf key w = Some (st, w') →
  let m := mutex_asked p (GetStripe lock_map key) (GetLockTimeout txn) w0 in
  if Status.ok m.1 then
    st = Status.OK ∨ st = Status.TimedOut kLockTimeout
    ∨ st = Status.Busy kLockLimit ∨ st = Status.Busy kDeadlock
  else st = m.1.
Proof.
  intros Hg Hp Hs Hl.
  rewrite (TryLock_resolved _ _ _ _ _ _ _ _ _ Hg Hp Hs) in Hl.
  apply AcquireWithTimeout_inv in Hl. cbv zeta in Hl |- *.
  destruct Hl as [(-> & -> & _)|(-> & r & w_a & Ha & Hl)]; [done|].
  destruct Hl as [(_ & -> & _)|(_ & _ & exit & w_l & Hloop & Hexit)].
  - destruct (AcquireLocked_effect _ _ _ _ _ _ _ _ _ Ha)
      as (_ & _ & _ & _ & _ & _ & _ & _ & Hst & _).
    destruct Hst as [->| [->| ->]]; auto.
  - apply retry_loop_result in Hloop. destruct exit.
    + destruct Hexit as [-> _]. auto.
    + destruct Hexit as [-> _]. destruct Hloop as [_ [->| [->| ->]]]; auto.
Qed.

(** X12 (the stripe mutex is given back).  On every path on which
    [TryLock] returns after it obtained the stripe mutex, the return of the
    deadlock path included, it has called [UnLock] on that mutex exactly
    once, as its last call to a collaborator.  When the mutex was not
    obtained, [UnLock] is not called. *)
Theorem TryLock_releases_mutex fuel txn cf key w p w0 lock_map stripe st w' :
  GetLockMap cf w = Some (Some p, w0) →
  heap w !! p = Some lock_map →
  lock_map_stripes_ lock_map !! GetStripe lock_map key = Some stripe →
  TryLock fuel txn cf key w = Some (st, w') →
  let s := GetStripe lock_map key in
  if Status.ok (mutex_asked p s (GetLockTimeout txn) w0).1 then
    mutex_unlocks w' = S (mutex_unlocks w)
    ∧ ∃ tr, trace w' = EvMutexUnLock p s :: tr
  else
    mutex_unlocks w' = mutex_unlocks w
    ∧ ∃ e tr, trace w' = e :: tr ∧ is_mutex_unlock e = false.
Proof.
  intros Hg Hp Hs Hl.
  rewrite (TryLock_resolved _ _ _ _ _ _ _ _ _ Hg Hp Hs) in Hl.
  destruct (GetLockMap_total cf w) as (r0 & c & Hg' & _).
  rewrite Hg in Hg'. injection Hg' as _ ->.
  apply AcquireWithTimeout_inv in Hl. cbv zeta in Hl |- *.
  destruct (mutex_asked_unlocks p (GetStripe lock_map key)
              (GetLockTimeout txn) (set_cache (Some c) w))
    as (Hmu & _ & Hlast).
  change (mutex_unlocks (set_cache (Some c) w)) with (mutex_unlocks w) in Hmu.
  destruct Hl as [(-> & -> & ->)|(-> & r & w_a & Ha & Hl)]; [done|].
  destruct (AcquireLocked_effect _ _ _ _ _ _ _ _ _ Ha)
    as (_ & _ & _ & _ & Hua & _).
  destruct Hl as [(_ & -> & ->)|(_ & _ & exit & w_l & Hloop & Hexit)].
  - rewrite mutex_unlocks_emit. simpl. split; [congruence|by eexists].
  - apply retry_loop_unlocks in Hloop. destruct exit.
    + destruct Hexit as [-> ->]. destruct Hloop as [Hu Htr].
      split; [congruence|done].
    + destruct Hexit as [-> ->]. rewrite mutex_unlocks_emit. simpl.
      split; [congruence|by eexists].
Qed.

(** *** Paths through [TryLock] *)

(** X13 (re-entry).  A transaction that asks for a key it holds already
    gets [OK] from the first attempt, whatever its timeout: nothing in the
    lock table changes, [lock_cnt] included, and there is no wait. *)
Theorem TryLock_reentrant fuel txn cf key w p w0 lock_map stripe held :
  GetLockMap cf w = Some (Some p, w0) →
  heap w !! p = Some lock_map →
  lock_map_stripes_ lock_map !! GetStripe lock_map key = Some stripe →
  keys stripe !! key = Some held →
  txn_id held = GetID txn →
  Status.ok (mutex_asked p (GetStripe lock_map key) (GetLockTimeout txn)
               w0).1 = true →
  ∃ w',
    TryLock fuel txn cf key w = Some (Status.OK, w')
    ∧ heap w' = heap w
    ∧ attempts w' = S (attempts w)
    ∧ cv_waits w' = cv_waits w.
Proof.
  intros Hg Hp Hs Hk Hid Hm.
  rewrite (TryLock_resolved _ _ _ _ _ _ _ _ _ Hg Hp Hs).
  destruct (GetLockMap_total cf w) as (r0 & c & Hg' & _).
  rewrite Hg in Hg'. injection Hg' as _ ->.
  destruct (mutex_asked_same p (GetStripe lock_map key) (GetLockTimeout txn)
              (set_cache (Some c) w)) as (Hmh & _ & Hma & Hmw).
  change (heap (set_cache (Some c) w)) with (heap w) in Hmh.
  change (attempts (set_cache (Some c) w)) with (attempts w) in Hma.
  change (cv_waits (set_cache (Some c) w)) with (cv_waits w) in Hmw.
  eexists. split.
  - eapply AcquireWithTimeout_first_attempt; [done| |by left].
    apply AcquireLocked_own with lock_map stripe held; try done.
    by rewrite Hmh.
  - split_and!.
    + exact Hmh.
    + rewrite <- Hma. reflexivity.
    + rewrite cv_waits_emit. exact Hmw.
Qed.

(** X14 (the mutex is not obtained).  Whatever the timeout, when the stripe
    mutex cannot be locked [TryLock] returns the status of the mutex as it
    is: no attempt is made on the key, the lock maps are untouched and
    there is no wait. *)
Theorem TryLock_mutex_not_obtained fuel txn cf key w p w0 lock_map stripe :
  GetLockMap cf w = Some (Some p, w0) →
  heap w !! p = Some lock_map →
  lock_map_stripes_ lock_map !! GetStripe lock_map key = Some stripe →
  let m := mutex_asked p (GetStripe lock_map key) (GetLockTimeout txn) w0 in
  Status.ok m.1 = false →
  TryLock fuel txn cf key w = Some (m.1, m.2)
  ∧ heap m.2 = heap w
  ∧ attempts m.2 = attempts w
  ∧ cv_waits m.2 = cv_waits w.
Proof.
  intros Hg Hp Hs m Hm. subst m.
  rewrite (TryLock_resolved _ _ _ _ _ _ _ _ _ Hg Hp Hs).
  destruct (GetLockMap_total cf w) as (r0 & c & Hg' & _).
  rewrite Hg in Hg'. injection Hg' as _ ->.
  destruct (mutex_asked_same p (GetStripe lock_map key) (GetLockTimeout txn)
              (set_cache (Some c) w)) as (Hmh & _ & Hma & Hmw).
  split_and!; try done.
  rewrite AcquireWithTimeout_mutex_failed by done.
  by destruct (mutex_asked _ _ _ _).
Qed.

Lemma graph_ok_graph_of w w1 :
  graph_of w1 = graph_of w → graph_ok w → graph_ok w1.
Proof.
  unfold graph_of, graph_ok, graph_accounting. intros [= Hw Hr].
  by rewrite Hw, Hr.
Qed.

Lemma IncrementWaiters_graph txn wait_id w w1 d w2 :
  graph_ok w →
  wait_txn_map_ w !! GetID txn = None →
  (N.of_nat (size (wait_txn_map_ w)) < 2 ^ 32 - 1)%N →
  graph_of w1 = graph_of w →
  IncrementWaiters txn wait_id w1 = Some (d, w2) →
  if d then graph_of w2 = graph_of w
  else graph_of w2 = graph_of (registered txn wait_id w).
Proof.
  intros Hok Hid Hroom Hg H.
  pose proof (graph_ok_graph_of _ _ Hg Hok) as Hok1.
  injection Hg as Hw Hr.
  rewrite IncrementWaiters_spec in H.
  destruct (reports_deadlock txn wait_id w1).
  - destruct (DecrementWaitersImpl txn wait_id (registered txn wait_id w1))
      as [[[] w3]|] eqn:Hdec; [|done].
    injection H as <- <-.
    rewrite (rollback_restores _ _ _ _ Hok1) by (by rewrite ?Hw).
    unfold graph_of. by rewrite Hw, Hr.
  - injection H as <- <-. unfold graph_of, registered. simpl.
    by rewrite Hw, Hr.
Qed.

Lemma DecrementWaiters_graph txn wait_id w w3 w4 :
  graph_ok w →
  wait_txn_map_ w !! GetID txn = None →
  (N.of_nat (size (wait_txn_map_ w)) < 2 ^ 32 - 1)%N →
  graph_of w3 = graph_of (registered txn wait_id w) →
  DecrementWaiters txn wait_id w3 = Some (tt, w4) →
  graph_of w4 = graph_of w.
Proof.
  intros Hok Hid Hroom Hg H. unfold DecrementWaiters in H.
  destruct (DecrementWaitersImpl txn wait_id (registered txn wait_id w))
    as [[[] w5]|] eqn:Hdec.
  2: { rewrite DecrementWaitersImpl_spec in Hdec. done. }
  pose proof (rollback_restores _ _ _ _ Hok Hid Hroom Hdec) as ->.
  rewrite DecrementWaitersImpl_spec in H, Hdec. cbv zeta in H, Hdec.
  injection Hg as Hw Hr. rewrite Hw, Hr in H.
  injection H as <-. injection Hdec as Hdec.
  apply (f_equal graph_of) in Hdec.
  etrans; [|exact Hdec]. reflexivity.
Qed.

Lemma wait_step_graph p s timeout end_time result hint w result1 w' :
  graph_undisturbed →
  wait_step p s timeout end_time result hint w = Some (result1, w') →
  graph_of w' = graph_of w.
Proof.
  intros Hquiet. unfold wait_step. cbv zeta.
  match goal with |- context [Z.ltb ?c 0] => generalize c end.
  intros cv_end_time.
  assert (Hsleep : ∀ n e, graph_of (sleep n (emit e w)) = graph_of w).
  { intros n e. unfold sleep. transitivity (graph_of (others env n (emit e w))).
    - done.
    - by rewrite Hquiet. }
  destruct (cv_end_time <? 0).
  - unfold stripe_cv_Wait. intros [= <- <-]. apply Hsleep.
  - intros H. apply bind_inv in H as (now & w1 & Hnow & H).
    unfold env_NowMicros in Hnow. injection Hnow as <- <-.
    destruct (_ <? u64 cv_end_time).
    + unfold stripe_cv_WaitFor in H. injection H as <- <-.
      unfold sleep.
      match goal with |- graph_of (mkWorld (heap ?x) _ _ _ _ _ _ _) = _ =>
        transitivity (graph_of x); [done|] end.
      by rewrite Hquiet.
    + unfold ret in H. by injection H as <- <-.
Qed.

Lemma retry_loop_graph
    fuel txn p s cf key timeout info end_time w result hint wait_id w1 exit w' :
  graph_undisturbed →
  graph_ok w →
  wait_txn_map_ w !! GetID txn = None →
  (N.of_nat (size (wait_txn_map_ w)) < 2 ^ 32 - 1)%N →
  graph_of w1 = graph_of w →
  retry_loop fuel txn p s cf key timeout info end_time result hint wait_id w1
  = Some (exit, w') →
  graph_of w' = graph_of w.
Proof.
  intros Hquiet Hok Hid Hroom. revert result hint wait_id w1.
  induction fuel as [|fuel IH]; intros result hint wait_id w1 Hg H; [done|].
  apply retry_loop_inv in H as (deadlock & w2 & Hreg & H).
  unfold register_step in Hreg.
  assert (Hreg' :
    if deadlock then graph_of w2 = graph_of w
    else if decide (wait_id ≠ 0%N) then
           if IsDeadlockDetect txn
           then graph_of w2 = graph_of (registered txn wait_id w)
           else graph_of w2 = graph_of w
         else graph_of w2 = graph_of w).
  { destruct (decide (wait_id ≠ 0%N)).
    - destruct (IsDeadlockDetect txn).
      + by eapply IncrementWaiters_graph.
      + unfold ret in Hreg. by injection Hreg as <- <-.
    - unfold ret in Hreg. by injection Hreg as <- <-. }
  destruct deadlock.
  - destruct H as [_ ->]. done.
  - destruct H as (w3 & result1 & w4 & w5 & r & w6
                   & Hann & Hwait & Hun & Hatt & H).
    apply announce_step_frame in Hann as (_ & _ & Hg3 & _).
    apply (wait_step_graph _ _ _ _ _ _ _ _ _ Hquiet) in Hwait.
    apply attempt_step_effect in Hatt as (_ & _ & Hg6 & _).
    assert (Hg5 : graph_of w5 = graph_of w).
    { unfold unregister_step in Hun.
      destruct (decide (wait_id ≠ 0%N)).
      - apply bind_inv in Hun as ([] & w4' & Hset & Hun).
        unfold SetWaitingTxn, modify in Hset. injection Hset as <-.
        destruct (IsDeadlockDetect txn).
        + eapply DecrementWaiters_graph; [done..| |exact Hun].
          change (graph_of (emit (EvSetWaitingTxn 0 0 None) w4))
            with (graph_of w4).
          congruence.
        + unfold ret in Hun. injection Hun as <-.
          change (graph_of (emit (EvSetWaitingTxn 0 0 None) w4))
            with (graph_of w4).
          congruence.
      - unfold ret in Hun. injection Hun as <-. congruence. }
    destruct (negb (Status.ok r.1.1) && negb (Status.IsTimedOut result1)).
    + eapply IH; [|exact H]. congruence.
    + destruct H as [_ ->]. congruence.
Qed.

(** X15 (no wait is left behind).  When the other threads leave the
    wait-for graph alone and its counts are exact, [TryLock] returns with
    both maps of the graph exactly as it found them, on every path:
    success, timeout, lock limit or deadlock, after any number of waits. *)
Theorem TryLock_restores_graph fuel txn cf key w st w' :
  graph_undisturbed →
  graph_ok w →
  wait_txn_map_ w !! GetID txn = None →
  (N.of_nat (size (wait_txn_map_ w)) < 2 ^ 32 - 1)%N →
  TryLock fuel txn cf key w = Some (st, w') →
  wait_txn_map_ w' = wait_txn_map_ w
  ∧ rev_wait_txn_map_ w' = rev_wait_txn_map_ w.
Proof.
  intros Hquiet Hok Hid Hroom Hl.
  enough (graph_of w' = graph_of w) as [= H1 H2] by done.
  destruct (GetLockMap_total cf w) as (r0 & c & Hg & _).
  unfold TryLock in Hl. apply bind_inv in Hl as (r1 & w1 & Hg1 & Hl).
  rewrite Hg in Hg1. injection Hg1 as <- <-.
  destruct r0 as [p|].
  2: { unfold ret in Hl. by injection Hl as <- <-. }
  apply bind_inv in Hl as (lock_map & w2 & Hload & Hl).
  unfold load_LockMap in Hload. simpl in Hload.
  destruct (heap w !! p) as [lm|] eqn:Hp; [|done].
  injection Hload as <- <-.
  apply bind_inv in Hl as (stripe & w3 & Hst & Hl).
  assert (w3 = set_cache (Some c) w) as ->.
  { unfold load_stripe, load_LockMap, bind, ret, stuck in Hst. simpl in Hst.
    rewrite Hp in Hst. simpl in Hst.
    destruct (lock_map_stripes_ lm !! GetStripe lm key); congruence. }
  apply AcquireWithTimeout_inv in Hl. cbv zeta in Hl.
  destruct (mutex_asked_unlocks p (GetStripe lm key) (GetLockTimeout txn)
              (set_cache (Some c) w)) as (_ & Hgm & _).
  change (graph_of (set_cache (Some c) w)) with (graph_of w) in Hgm.
  destruct Hl as [(_ & _ & ->)|(_ & r & w_a & Ha & Hl)]; [done|].
  destruct (AcquireLocked_effect _ _ _ _ _ _ _ _ _ Ha)
    as (_ & _ & _ & _ & _ & _ & _ & Hga & _).
  destruct Hl as [(_ & _ & ->)|(_ & _ & exit & w_l & Hloop & Hexit)].
  - change (graph_of (emit ?e w_a)) with (graph_of w_a). congruence.
  - eapply (retry_loop_graph _ _ _ _ _ _ _ _ _ w) in Hloop;
      [|done..|congruence].
    destruct exit; destruct Hexit as [_ ->]; [done|].
    change (graph_of (emit ?e w_l)) with (graph_of w_l). done.
Qed.

(** *** Into the retry loop *)

Lemma AcquireWithTimeout_enters_loop
    fuel txn p s cf key timeout info w r w_a :
  Status.ok (mutex_asked p s timeout w).1 = true →
  AcquireLocked p s key info 0 0%N (mutex_asked p s timeout w).2
  = Some (r, w_a) →
  Status.ok r.1.1 = false →
  timeout ≠ 0 →
  AcquireWithTimeout fuel txn p s cf key timeout info w
  = match retry_loop fuel txn p s cf key timeout info
            (if 0 <? timeout then u64 (NowMicros env (ticks w) + timeout)
             else 0)
            r.1.1 r.1.2 r.2 w_a with
    | Some (Return result, w') => Some (result, w')
    | Some (Break result, w') => Some (result, emit (EvMutexUnLock p s) w')
    | None => None
    end.
Proof.
  unfold mutex_asked, AcquireWithTimeout, env_NowMicros,
    stripe_mutex_Lock, stripe_mutex_TryLockFor, stripe_mutex_UnLock.
  intros Hok Ha Hr Ht.
  assert (negb (Status.ok r.1.1) && negb (timeout =? 0) = true) as Hc.
  { rewrite Hr. simpl. apply negb_true_iff. by apply Z.eqb_neq. }
  destruct (0 <? timeout), (timeout <? 0); simpl in *;
    unfold bind, ret, modify; simpl; rewrite Hok; simpl;
    rewrite Ha; simpl; rewrite Hc;
    (destruct (retry_loop _ _ _ _ _ _ _ _ _ _ _ _ _) as [[[st|st] w']|];
     done).
Qed.

Lemma AcquireLocked_not_stealable w p s lock_map stripe key held req hint wid :
  heap w !! p = Some lock_map →
  lock_map_stripes_ lock_map !! s = Some stripe →
  keys stripe !! key = Some held →
  txn_id held ≠ txn_id req →
  ¬ stealable w held →
  ∃ hint' w',
    AcquireLocked p s key req hint wid w
    = Some ((Status.TimedOut kLockTimeout, hint', txn_id held), w')
    ∧ heap w' = heap w.
Proof.
  intros Hp Hs Hk Hne Hno.
  rewrite (AcquireLocked_held_by_other _ _ _ _ _ _ _ _ _ _ Hp Hs Hk Hne).
  rewrite stealable_spec in Hno. cbv zeta.
  destruct ((0 <? expiration_time held)
            && (expiration_time held <=? NowMicros env (ticks w))) eqn:E.
  - destruct (TryStealingExpiredTransactionLocks env (S (ticks w))
                (txn_id held)); [done|].
    by eexists _, _.
  - destruct (0 <? expiration_time held); by eexists _, _.
Qed.


(** X16 (a deadlock, end to end).  The key is held by another transaction
    and cannot be taken over; the requester has a non-zero timeout and
    deadlock detection on; the counts of the wait-for graph are exact, and
    the holder waits, along at most [depth] edges, for the requester.  Then
    [TryLock] returns [Busy(Deadlock)] after its first attempt, without
    waiting on the condition variable, and leaves the lock maps and the
    graph as they were. *)
Theorem TryLock_reports_deadlock
    fuel txn cf key w p w0 lock_map stripe held len :
  GetLockMap cf w = Some (Some p, w0) →
  heap w !! p = Some lock_map →
  lock_map_stripes_ lock_map !! GetStripe lock_map key = Some stripe →
  keys stripe !! key = Some held →
  txn_id held ≠ GetID txn →
  txn_id held ≠ 0%N →
  let m := mutex_asked p (GetStripe lock_map key) (GetLockTimeout txn) w0 in
  Status.ok m.1 = true →
  ¬ stealable m.2 held →
  GetLockTimeout txn ≠ 0 →
  IsDeadlockDetect txn = true →
  graph_ok w →
  wait_txn_map_ w !! GetID txn = None →
  (N.of_nat (size (wait_txn_map_ w)) < 2 ^ 32 - 1)%N →
  (1 <= len <= Z.to_nat (GetDeadlockDetectDepth txn))%nat →
  cycle_through (<[GetID txn := txn_id held]> (wait_txn_map_ w))
                (GetID txn) len →
  ∃ w',
    TryLock (S fuel) txn cf key w = Some (Status.Busy kDeadlock, w')
    ∧ cv_waits w' = cv_waits w
    ∧ attempts w' = S (attempts w)
    ∧ heap w' = heap w
    ∧ wait_txn_map_ w' = wait_txn_map_ w
    ∧ rev_wait_txn_map_ w' = rev_wait_txn_map_ w.
Proof.
  intros Hg Hp Hs Hk Hne Hnz m Hm Hno Ht Hdd Hok Hid Hroom Hlen Hcyc.
  subst m.
  rewrite (TryLock_resolved _ _ _ _ _ _ _ _ _ Hg Hp Hs).
  destruct (GetLockMap_total cf w) as (r0 & c & Hg' & _).
  rewrite Hg in Hg'. injection Hg' as _ ->.
  set (s := GetStripe lock_map key) in *.
  set (info := mkLockInfo (GetID txn) (GetExpirationTime txn)).
  destruct (mutex_asked_same p s (GetLockTimeout txn) (set_cache (Some c) w))
    as (Hmh & _ & Hma & Hmw).
  destruct (mutex_asked_unlocks p s (GetLockTimeout txn)
              (set_cache (Some c) w)) as (_ & Hmg & _).
  change (heap (set_cache (Some c) w)) with (heap w) in Hmh.
  change (attempts (set_cache (Some c) w)) with (attempts w) in Hma.
  change (cv_waits (set_cache (Some c) w)) with (cv_waits w) in Hmw.
  change (graph_of (set_cache (Some c) w)) with (graph_of w) in Hmg.
  assert (Hpm : heap (mutex_asked p s (GetLockTimeout txn)
                        (set_cache (Some c) w)).2 !! p = Some lock_map)
    by (by rewrite Hmh).
  destruct (AcquireLocked_not_stealable _ p s lock_map stripe key held info
              0 0%N Hpm Hs Hk Hne Hno) as (hint' & w_a & Ha & Hha).
  destruct (AcquireLocked_effect _ _ _ _ _ _ _ _ _ Ha)
    as (_ & _ & _ & _ & _ & Hca & Haa & Hga & _).
  rewrite (AcquireWithTimeout_enters_loop _ _ _ _ _ _ _ _ _ _ _ Hm Ha)
    by done.
  assert (Hgw : graph_of w_a = graph_of w) by congruence.
  pose proof (graph_ok_graph_of _ _ Hgw Hok) as Hoka.
  injection Hgw as Hw Hr.
  assert (Hincr : IncrementWaiters txn (txn_id held) w_a = Some (true, w_a)).
  { rewrite IncrementWaiters_spec.
    rewrite (cycle_reported txn (txn_id held) w_a len)
      by (rewrite ?Hw; done).
    destruct (DecrementWaitersImpl txn (txn_id held)
                (registered txn (txn_id held) w_a)) as [[[] w1]|] eqn:Hdec.
    - rewrite (rollback_restores _ _ _ _ Hoka) by (rewrite ?Hw; done). done.
    - rewrite DecrementWaitersImpl_spec in Hdec. done. }
  rewrite retry_loop_unfold. simpl.
  unfold bind at 1, register_step. rewrite decide_True by done.
  rewrite Hdd, Hincr. simpl.
  eexists. split; [reflexivity|].
  rewrite cv_waits_emit. simpl.
  split_and!; try done; congruence.
Qed.

(** *** The last attempt, and the loop that does not end *)



Lemma u64_i64_small z : 0 <= z < 2 ^ 63 → i64 z = z ∧ u64 z = z.
Proof.
  intros H. unfold i64, u64. rewrite !Z.mod_small by lia. lia.
Qed.

Lemma retry_loop_reads_clock_only
    fuel txn p s cf key timeout info deadline result w :
  0 < timeout →
  0 <= deadline < 2 ^ 63 →
  Status.ok result = false →
  Status.IsTimedOut result = false →
  deadline <= NowMicros env (ticks w) →
  retry_loop (S fuel) txn p s cf key timeout info deadline result 0 0%N w
  = retry_loop fuel txn p s cf key timeout info deadline result 0 0%N
      (emit (EvNowMicros (NowMicros env (ticks w))) w).
Proof.
  intros Ht Hd Hok Hto Hnow. rewrite retry_loop_unfold.
  destruct (u64_i64_small deadline Hd) as [Hi Hu].
  unfold register_step, announce_step, unregister_step, attempt_step,
    wait_step. cbv zeta.
  rewrite decide_False by (intros H; by apply H).
  assert ((0 <=? timeout) = true) as -> by (apply Z.leb_le; lia).
  simpl. rewrite Hi.
  assert ((deadline <? 0) = false) as -> by (apply Z.ltb_ge; lia).
  unfold bind, ret, env_NowMicros. simpl. rewrite Hu.
  assert ((NowMicros env (ticks w) <? deadline) = false) as ->
    by (apply Z.ltb_ge; lia).
  rewrite Hok, Hto. simpl. by rewrite Hok.
Qed.

Lemma retry_loop_spins
    fuel txn p s cf key timeout info deadline result w t0 :
  0 < timeout →
  0 <= deadline < 2 ^ 63 →
  Status.ok result = false →
  Status.IsTimedOut result = false →
  (∀ n, (t0 < n)%nat → deadline <= NowMicros env n) →
  (t0 < ticks w)%nat →
  retry_loop fuel txn p s cf key timeout info deadline result 0 0%N w = None.
Proof.
  intros Ht Hd Hok Hto Hclock. revert w.
  induction fuel as [|fuel IH]; intros w Hw; [done|].
  rewrite retry_loop_reads_clock_only by auto.
  apply IH. simpl. lia.
Qed.

(** X18 (the loop that does not end).  The key is free but the lock limit
    is reached, so the first attempt returns [Busy(LockLimit)]; the
    timeout is positive, and from the second reading on the clock is at or
    past the deadline [start + timeout].  Then [TryLock] never returns:
    every iteration of the retry loop reads the clock, finds the deadline
    passed, skips the wait and the attempt, and goes round again with the
    stripe mutex held. *)
Theorem TryLock_spins_past_deadline txn cf key w p w0 lock_map stripe :
  GetLockMap cf w = Some (Some p, w0) →
  heap w !! p = Some lock_map →
  lock_map_stripes_ lock_map !! GetStripe lock_map key = Some stripe →
  keys stripe !! key = None →
  0 < max_num_locks_ <= lock_cnt lock_map →
  0 < GetLockTimeout txn →
  let s := GetStripe lock_map key in
  let info := mkLockInfo (GetID txn) (GetExpirationTime txn) in
  let deadline := u64 (NowMicros env (ticks w) + GetLockTimeout txn) in
  Status.ok (mutex_result env (S (ticks w))) = true →
  deadline < 2 ^ 63 →
  (∀ n, (ticks w < n)%nat → deadline <= NowMicros env n) →
  (∀ fuel, TryLock fuel txn cf key w = None)
  ∧ ∀ fuel w1,
      (ticks w < ticks w1)%nat →
      retry_loop (S fuel) txn p s cf key (GetLockTimeout txn) info deadline
                 (Status.Busy kLockLimit) 0 0%N w1
      = retry_loop fuel txn p s cf key (GetLockTimeout txn) info deadline
          (Status.Busy kLockLimit) 0 0%N
          (emit (EvNowMicros (NowMicros env (ticks w1))) w1).
Proof.
  intros Hg Hp Hs Hk [Hpos Hfull] Ht s info deadline Hm Hd Hclock.
  assert (Hd' : 0 <= deadline < 2 ^ 63).
  { split; [|done]. unfold deadline, u64. apply Z.mod_pos_bound. lia. }
  split.
  2: { intros fuel w1 Hw1. apply retry_loop_reads_clock_only; auto. }
  intros fuel.
  rewrite (TryLock_resolved _ _ _ _ _ _ _ _ _ Hg Hp Hs).
  destruct (GetLockMap_total cf w) as (r0 & c & Hg' & _).
  rewrite Hg in Hg'. injection Hg' as _ ->.
  fold s info.
  assert (Hlt : (0 <? GetLockTimeout txn) = true) by (by apply Z.ltb_lt).
  assert (Hnlt : (GetLockTimeout txn <? 0) = false)
    by (apply Z.ltb_ge; lia).
  assert (Hmk : mutex_asked p s (GetLockTimeout txn) (set_cache (Some c) w)
                = (mutex_result env (S (ticks w)),
                   emit (EvMutexTryLockFor p s (GetLockTimeout txn)
                           (mutex_result env (S (ticks w))))
                     (emit (EvNowMicros (NowMicros env (ticks w)))
                        (set_cache (Some c) w)))).
  { unfold mutex_asked. by rewrite Hlt, Hnlt. }
  set (w_m := emit _ (emit _ (set_cache (Some c) w))) in Hmk.
  assert (Ha : AcquireLocked p s key info 0 0%N w_m
               = Some ((Status.Busy kLockLimit, 0, 0%N), count_attempt w_m)).
  { rewrite (AcquireLocked_free w_m p s lock_map stripe key info 0 0%N)
      by done.
    assert ((0 <? max_num_locks_) = true) as -> by (by apply Z.ltb_lt).
    assert ((max_num_locks_ <=? lock_cnt lock_map) = true) as ->
      by (by apply Z.leb_le).
    done. }
  rewrite (AcquireWithTimeout_enters_loop fuel txn p s cf key
             (GetLockTimeout txn) info (set_cache (Some c) w)
             (Status.Busy kLockLimit, 0, 0%N) (count_attempt w_m));
    [|by rewrite Hmk|by rewrite Hmk|done|lia].
  rewrite Hlt. simpl.
  change (ticks (set_cache (Some c) w)) with (ticks w). fold deadline.
  rewrite (retry_loop_spins _ _ _ _ _ _ _ _ _ _ _ (ticks w)); auto.
  simpl. lia.
Qed.

(** *** Stripes *)

Lemma GetStripe_in_range lock_map key :
  wf_LockMap lock_map →
  is_Some (lock_map_stripes_ lock_map !! GetStripe lock_map key).
Proof.
  intros [Hlen Hpos]. apply lookup_lt_is_Some. rewrite <- Hlen.
  unfold GetStripe. apply Nat.mod_upper_bound. lia.
Qed.

(** X19 (every key has its stripe).  A lock map that [AddColumnFamily]
    makes with at least one stripe has exactly [num_stripes_] stripes, and
    in such a lock map the stripe of every key exists: the lookup
    [lock_map_stripes_.at(GetStripe(key))] is always in range.  An attempt
    and an [UnLock] leave the number of stripes as it is. *)
Theorem stripe_of_key_exists :
  ((0 < default_num_stripes_)%nat → wf_LockMap (new_LockMap default_num_stripes_))
  ∧ (∀ lock_map key,
       wf_LockMap lock_map →
       (GetStripe lock_map key < num_stripes_ lock_map)%nat
       ∧ is_Some (lock_map_stripes_ lock_map !! GetStripe lock_map key))
  ∧ (∀ w p s lock_map key req hint wid r w',
       heap w !! p = Some lock_map →
       wf_LockMap lock_map →
       AcquireLocked p s key req hint wid w = Some (r, w') →
       ∃ lock_map', heap w' !! p = Some lock_map' ∧ wf_LockMap lock_map')
  ∧ (∀ w p w0 lock_map txn cf key w',
       GetLockMap cf w = Some (Some p, w0) →
       heap w !! p = Some lock_map →
       wf_LockMap lock_map →
       UnLock txn cf key w = Some (tt, w') →
       ∃ lock_map', heap w' !! p = Some lock_map' ∧ wf_LockMap lock_map').
Proof.
  split_and!.
  - intros Hpos. split; [|done]. simpl. by rewrite length_replicate.
  - intros lock_map key Hwf. split; [|by apply GetStripe_in_range].
    unfold GetStripe. apply Nat.mod_upper_bound. destruct Hwf. lia.
  - intros w p s lock_map key req hint wid r w' Hp Hwf Ha.
    assert (Hkeep : ∀ ks, wf_LockMap (with_keys lock_map s ks)).
    { intros ks. destruct Hwf as [Hlen Hpos]. split; [|done].
      simpl. by rewrite length_insert. }
    destruct (AcquireLocked_effect _ _ _ _ _ _ _ _ _ Ha)
      as (lm & stripe & Hp' & Hs & _).
    rewrite Hp in Hp'. injection Hp' as <-.
    destruct (keys stripe !! key) as [held|] eqn:Hk.
    + destruct (decide (txn_id held = txn_id req)) as [Heq|Hne].
      * rewrite (AcquireLocked_own _ _ _ _ _ _ _ _ _ _ Hp Hs Hk Heq) in Ha.
        injection Ha as <- <-. by exists lock_map.
      * rewrite (AcquireLocked_held_by_other _ _ _ _ _ _ _ _ _ _ Hp Hs Hk Hne)
          in Ha.
        cbv zeta in Ha.
        destruct ((0 <? expiration_time held)
                  && (expiration_time held <=? NowMicros env (ticks w)));
          [destruct (TryStealingExpiredTransactionLocks env (S (ticks w))
                       (txn_id held))
          |destruct (0 <? expiration_time held)];
          injection Ha as <- <-; try (by exists lock_map).
        eexists. split; [apply lookup_insert_eq|apply Hkeep].
    + rewrite (AcquireLocked_free _ _ _ _ _ _ _ _ _ Hp Hs Hk) in Ha.
      destruct ((0 <? max_num_locks_)
                && (max_num_locks_ <=? lock_cnt lock_map));
        injection Ha as <- <-; [by exists lock_map|].
      eexists. split; [apply lookup_insert_eq|].
      destruct (decide (max_num_locks_ ≠ 0)); [|apply Hkeep].
      apply (Hkeep (<[key := req]> (keys stripe))).
  - intros w p w0 lock_map txn cf key w' Hg Hp Hwf.
    destruct (GetStripe_in_range lock_map key Hwf) as [stripe Hs].
    rewrite (UnLock_resolved _ _ _ _ _ _ _ _ Hg Hp Hs). cbv zeta.
    intros [= <-].
    destruct (GetLockMap_total cf w) as (r & c & Hg' & _).
    rewrite Hg in Hg'. injection Hg' as _ ->.
    destruct (keys stripe !! key) as [held|]; [|by exists lock_map].
    destruct (decide (txn_id held = GetID txn)); [|by exists lock_map].
    eexists. split; [apply lookup_insert_eq|].
    unfold erased. destruct Hwf as [Hlen Hpos].
    destruct (0 <? max_num_locks_); (split; [|done]); simpl;
      by rewrite length_insert.
Qed.

(** *** Release of a batch *)

Lemma release_idem id o : release id (release id o) = release id o.
Proof.
  destruct o as [info|]; simpl; [|done].
  destruct (decide (txn_id info = id)) as [|Hne]; simpl; [done|].
  by rewrite decide_False.
Qed.

Lemma record_at_heap w w' p s key :
  heap w' = heap w → record_at w' p s key = record_at w p s key.
Proof. intros H. unfold record_at, stripe_at. by rewrite H. Qed.

Lemma unlock_key_records w p s lock_map stripe id key :
  heap w !! p = Some lock_map →
  lock_map_stripes_ lock_map !! s = Some stripe →
  ∃ w' lock_map',
    unlock_key p s id key w = Some (tt, w')
    ∧ heap w' !! p = Some lock_map'
    ∧ length (lock_map_stripes_ lock_map')
      = length (lock_map_stripes_ lock_map)
    ∧ num_stripes_ lock_map' = num_stripes_ lock_map
    ∧ (∀ p', p' ≠ p → heap w' !! p' = heap w !! p')
    ∧ trace w' = trace w
    ∧ same_registry w w'
    ∧ graph_of w' = graph_of w
    ∧ ∀ s' k',
        record_at w' p s' k'
        = if bool_decide (s' = s ∧ k' = key)
          then release id (record_at w p s' k')
          else record_at w p s' k'.
Proof.
  intros Hp Hs. rewrite (unlock_key_spec w p s lock_map stripe id key Hp Hs).
  assert (Hsame : ∀ s' k',
            release id (keys stripe !! key) = keys stripe !! key →
            record_at w p s' k'
            = if bool_decide (s' = s ∧ k' = key)
              then release id (record_at w p s' k')
              else record_at w p s' k').
  { intros s' k' Hrel. case_bool_decide as H; [|done].
    destruct H as [-> ->]. unfold record_at, stripe_at.
    by rewrite Hp, Hs, Hrel. }
  destruct (keys stripe !! key) as [held|] eqn:Hk.
  - destruct (decide (txn_id held = id)) as [Hid|Hid].
    + eexists _, _. split; [done|]. simpl. rewrite lookup_insert_eq.
      split; [done|].
      assert (lock_map_stripes_ (erased lock_map s stripe key)
              = <[s := mkStripe (delete key (keys stripe))]>
                  (lock_map_stripes_ lock_map)) as Hst.
      { unfold erased. by destruct (0 <? max_num_locks_). }
      split. { by rewrite Hst, length_insert. }
      split. { unfold erased. by destruct (0 <? max_num_locks_). }
      split. { intros p' Hp'. by rewrite lookup_insert_ne. }
      split; [done|]. split; [done|]. split; [done|].
      intros s' k'. unfold record_at, stripe_at. simpl.
      rewrite lookup_insert_eq, Hp, Hst.
      destruct (decide (s' = s)) as [->|Hne].
      * rewrite list_lookup_insert_eq by (by eapply lookup_lt_Some).
        rewrite Hs. simpl.
        destruct (decide (k' = key)) as [->|Hk'].
        -- rewrite bool_decide_true by done.
           rewrite lookup_delete_eq, Hk. simpl. by rewrite decide_True.
        -- rewrite bool_decide_false by (intros [_ ?]; done).
           by rewrite lookup_delete_ne.
      * rewrite list_lookup_insert_ne by done.
        by rewrite bool_decide_false by (intros [? _]; done).
    + exists w, lock_map. split_and!; try done.
      intros s' k'. apply Hsame. simpl. by rewrite decide_False.
  - exists w, lock_map. split_and!; try done.
    intros s' k'. by apply Hsame.
Qed.

Lemma unlock_keys_records ks : ∀ w p s lock_map stripe id,
  heap w !! p = Some lock_map →
  lock_map_stripes_ lock_map !! s = Some stripe →
  ∃ w' lock_map',
    unlock_keys p s id ks w = Some (tt, w')
    ∧ heap w' !! p = Some lock_map'
    ∧ length (lock_map_stripes_ lock_map')
      = length (lock_map_stripes_ lock_map)
    ∧ num_stripes_ lock_map' = num_stripes_ lock_map
    ∧ (∀ p', p' ≠ p → heap w' !! p' = heap w !! p')
    ∧ trace w' = trace w
    ∧ same_registry w w'
    ∧ graph_of w' = graph_of w
    ∧ ∀ s' k',
        record_at w' p s' k'
        = if bool_decide (s' = s ∧ k' ∈ ks)
          then release id (record_at w p s' k')
          else record_at w p s' k'.
Proof.
  induction ks as [|key ks IH]; intros w p s lock_map stripe id Hp Hs.
  - exists w, lock_map. split_and!; try done.
    intros s' k'. case_bool_decide as H; [|done].
    destruct H as [_ H]. by apply elem_of_nil in H.
  - destruct (unlock_key_records w p s lock_map stripe id key Hp Hs)
      as (w1 & lm1 & E1 & Hp1 & Hl1 & Hn1 & Ho1 & Ht1 & Hg1 & Hw1 & Hr1).
    destruct (lookup_lt_is_Some_2 (lock_map_stripes_ lm1) s) as [st1 Hs1].
    { rewrite Hl1. by eapply lookup_lt_Some. }
    destruct (IH w1 p s lm1 st1 id Hp1 Hs1)
      as (w' & lm' & E & Hp' & Hl' & Hn' & Ho' & Ht' & Hg' & Hw' & Hr').
    exists w', lm'. simpl. unfold bind. rewrite E1.
    split; [done|]. split; [done|]. split; [congruence|].
    split; [congruence|].
    split. { intros p' Hne. rewrite Ho', Ho1; done. }
    split; [congruence|].
    split. { destruct Hg1, Hg'. split; congruence. }
    split; [congruence|].
    intros s' k'. rewrite Hr', Hr1.
    repeat case_bool_decide; rewrite ?release_idem; try done;
      exfalso; set_unfold; intuition (subst; auto; congruence).
Qed.

Lemma locked_stripes_emit e w :
  locked_stripes (emit e w)
  = locked_stripes w
    ++ match e with EvMutexLock p s _ => [(p, s)] | _ => [] end.
Proof.
  unfold locked_stripes. simpl. rewrite reverse_cons, omap_app.
  by destruct e.
Qed.

Lemma unlocked_stripes_emit e w :
  unlocked_stripes (emit e w)
  = unlocked_stripes w
    ++ match e with EvMutexUnLock p s => [(p, s)] | _ => [] end.
Proof.
  unfold unlocked_stripes. simpl. rewrite reverse_cons, omap_app.
  by destruct e.
Qed.

Lemma notified_stripes_emit e w :
  notified_stripes (emit e w)
  = notified_stripes w
    ++ match e with EvCvNotifyAll p s => [(p, s)] | _ => [] end.
Proof.
  unfold notified_stripes. simpl. rewrite reverse_cons, omap_app.
  by destruct e.
Qed.

Lemma stripe_calls_trace w w' :
  trace w' = trace w →
  locked_stripes w' = locked_stripes w
  ∧ unlocked_stripes w' = unlocked_stripes w
  ∧ notified_stripes w' = notified_stripes w.
Proof.
  intros H. unfold locked_stripes, unlocked_stripes, notified_stripes.
  by rewrite H.
Qed.

Lemma unlock_stripes_records id buckets : ∀ w p lock_map,
  heap w !! p = Some lock_map →
  (∀ s, s ∈ buckets.*1 → (s < length (lock_map_stripes_ lock_map))%nat) →
  ∃ w' lock_map',
    unlock_stripes p id buckets w = Some (tt, w')
    ∧ heap w' !! p = Some lock_map'
    ∧ length (lock_map_stripes_ lock_map')
      = length (lock_map_stripes_ lock_map)
    ∧ num_stripes_ lock_map' = num_stripes_ lock_map
    ∧ (∀ p', p' ≠ p → heap w' !! p' = heap w !! p')
    ∧ same_registry w w'
    ∧ graph_of w' = graph_of w
    ∧ (∀ s' k',
         record_at w' p s' k'
         = if bucket_has buckets s' k'
           then release id (record_at w p s' k')
           else record_at w p s' k')
    ∧ locked_stripes w'
      = locked_stripes w ++ ((λ s, (p, s)) <$> buckets.*1)
    ∧ unlocked_stripes w'
      = unlocked_stripes w ++ ((λ s, (p, s)) <$> buckets.*1)
    ∧ notified_stripes w'
      = notified_stripes w ++ ((λ s, (p, s)) <$> buckets.*1)
    ∧ length (trace w') = (length (trace w) + 3 * length buckets)%nat.
Proof.
  induction buckets as [|[s ks] rest IH]; intros w p lock_map Hp Hin.
  - exists w, lock_map. simpl. rewrite !app_nil_r.
    split_and!; try done.
  - destruct (lookup_lt_is_Some_2 (lock_map_stripes_ lock_map) s)
      as [stripe Hs].
    { apply Hin. simpl. by left. }
    set (w1 := emit (EvMutexLock p s (mutex_result env (ticks w))) w).
    destruct (unlock_keys_records ks w1 p s lock_map stripe id Hp Hs)
      as (w2 & lm2 & E2 & Hp2 & Hl2 & Hn2 & Ho2 & Ht2 & Hg2 & Hw2 & Hr2).
    set (w3 := emit (EvCvNotifyAll p s) (emit (EvMutexUnLock p s) w2)).
    destruct (IH w3 p lm2 Hp2) as
      (w' & lm' & E & Hp' & Hl' & Hk' & Ho' & Hg' & Hw' & Hr' & HL & HU & HN
       & HT).
    { intros s' Hs'. rewrite Hl2. apply Hin. simpl. by right. }
    destruct (stripe_calls_trace w1 w2 Ht2) as (TL & TU & TN).
    exists w', lm'.
    split.
    { simpl. unfold load_stripe, load_LockMap, bind at 1 2. rewrite Hp.
      simpl. rewrite Hs. unfold ret, bind at 1, stripe_mutex_Lock at 1.
      fold w1. unfold bind at 1. rewrite E2.
      unfold stripe_mutex_UnLock, stripe_cv_NotifyAll, bind at 1 2, modify.
      exact E. }
    split; [done|]. split; [congruence|]. split; [congruence|].
    split. { intros p' Hne. rewrite Ho'; [|done]. by rewrite Ho2. }
    split.
    { destruct Hg2 as [A1 A2], Hg' as [B1 B2]. split.
      - rewrite B1. simpl. by rewrite A1.
      - rewrite B2. simpl. by rewrite A2. }
    split. { rewrite Hw'. unfold w3, graph_of. simpl. exact Hw2. }
    split.
    { intros s' k'. rewrite Hr'.
      rewrite (record_at_heap w2 w3) by done. rewrite Hr2.
      rewrite (record_at_heap w w1) by done. simpl.
      repeat case_bool_decide; destruct (bucket_has rest s' k'); simpl;
        rewrite ?release_idem; try done; exfalso; set_unfold; intuition (subst; auto; congruence). }
    split.
    { rewrite HL. unfold w3. rewrite !locked_stripes_emit, TL. unfold w1.
      rewrite locked_stripes_emit. simpl.
      by rewrite !app_nil_r, <- app_assoc. }
    split.
    { rewrite HU. unfold w3. rewrite !unlocked_stripes_emit, TU. unfold w1.
      rewrite unlocked_stripes_emit. simpl.
      by rewrite !app_nil_r, <- app_assoc. }
    split.
    { rewrite HN. unfold w3. rewrite !notified_stripes_emit, TN. unfold w1.
      rewrite notified_stripes_emit. simpl.
      by rewrite !app_nil_r, <- app_assoc. }
    rewrite HT. unfold w3. simpl. rewrite Ht2. unfold w1. simpl. lia.
Qed.

Lemma bucket_add_has s0 k0 buckets s k :
  bucket_has (bucket_add s0 k0 buckets) s k
  = bucket_has buckets s k || bool_decide (s = s0 ∧ k = k0).
Proof.
  induction buckets as [|[s1 ks1] rest IH]; simpl.
  - repeat case_bool_decide; try done; exfalso; set_unfold; intuition (subst; auto; congruence).
  - destruct (decide (s1 = s0)) as [->|Hne]; simpl.
    + repeat case_bool_decide; destruct (bucket_has rest s k); simpl;
        try done; exfalso; set_unfold; intuition (subst; auto; congruence).
    + rewrite IH. by rewrite orb_assoc.
Qed.

Lemma keys_by_stripe_has lock_map ks s k :
  bucket_has (keys_by_stripe lock_map ks) s k
  = bool_decide (k ∈ ks ∧ s = GetStripe lock_map k).
Proof.
  unfold keys_by_stripe.
  assert (H : ∀ acc,
    bucket_has
      (fold_left (λ buckets key,
                    bucket_add (GetStripe lock_map key) key buckets) ks acc)
      s k
    = bucket_has acc s k
      || bool_decide (k ∈ ks ∧ s = GetStripe lock_map k)).
  { induction ks as [|k0 ks IH]; intros acc; cbn [fold_left].
    - rewrite bool_decide_false; [by rewrite orb_false_r|].
      intros [H _]. by apply elem_of_nil in H.
    - rewrite IH, bucket_add_has.
      repeat case_bool_decide; destruct (bucket_has acc s k); simpl;
        try done; exfalso; set_unfold; intuition (subst; auto; congruence). }
  by rewrite H.
Qed.

Lemma bucket_add_fst s0 k0 buckets :
  (bucket_add s0 k0 buckets).*1
  = if decide (s0 ∈ buckets.*1) then buckets.*1 else buckets.*1 ++ [s0].
Proof.
  induction buckets as [|[s1 ks1] rest IH].
  - destruct (decide (s0 ∈ ([] : list (nat * list string)).*1)) as [H|_];
      [by apply elem_of_nil in H|done].
  - cbn [bucket_add]. destruct (decide (s1 = s0)) as [->|Hne].
    + destruct (decide (s0 ∈ ((s0, ks1) :: rest).*1)) as [_|H]; [done|].
      destruct H. by left.
    + rewrite fmap_cons, IH. cbn [fst].
      destruct (decide (s0 ∈ rest.*1)) as [Hin|Hin];
        destruct (decide (s0 ∈ ((s1, ks1) :: rest).*1)) as [Hin'|Hin'];
        try done.
      * destruct Hin'. by right.
      * apply elem_of_cons in Hin' as [->|Hin']; done.
Qed.

Lemma keys_by_stripe_fst lock_map ks :
  NoDup (keys_by_stripe lock_map ks).*1
  ∧ ∀ s, s ∈ (keys_by_stripe lock_map ks).*1
         ↔ ∃ key, key ∈ ks ∧ GetStripe lock_map key = s.
Proof.
  unfold keys_by_stripe.
  assert (H : ∀ acc,
    NoDup acc.*1 →
    let b := fold_left (λ buckets key,
                          bucket_add (GetStripe lock_map key) key buckets)
                       ks acc in
    NoDup b.*1
    ∧ ∀ s, s ∈ b.*1
           ↔ s ∈ acc.*1 ∨ ∃ key, key ∈ ks ∧ GetStripe lock_map key = s).
  { induction ks as [|k0 ks IH]; intros acc Hnd; simpl.
    - split; [done|]. intros s. split; [by left|].
      intros [H|(key & H & _)]; [done|]. by apply elem_of_nil in H.
    - destruct (IH (bucket_add (GetStripe lock_map k0) k0 acc)) as [N E].
      { rewrite bucket_add_fst.
        destruct (decide (GetStripe lock_map k0 ∈ acc.*1)); [done|].
        apply NoDup_app. split; [done|].
        split; [|apply NoDup_singleton].
        intros x Hx Hx'. apply list_elem_of_singleton in Hx'. congruence. }
      split; [done|]. intros s. rewrite E, bucket_add_fst.
      destruct (decide (GetStripe lock_map k0 ∈ acc.*1)) as [Hin|Hin].
      * split.
        -- intros [H|(key & H & Hk)]; [by left|].
           right. exists key. split; [by right|done].
        -- intros [H|(key & H & Hk)]; [by left|].
           apply elem_of_cons in H as [->|H]; [left; congruence|].
           right. by exists key.
      * rewrite elem_of_app, list_elem_of_singleton. split.
        -- intros [[H| ->]|(key & H & Hk)]; [by left| |].
           ++ right. exists k0. split; [by left|done].
           ++ right. exists key. split; [by right|done].
        -- intros [H|(key & H & Hk)]; [by left; left|].
           apply elem_of_cons in H as [->|H]; [left; by right|].
           right. by exists key. }
  destruct (H [] (NoDup_nil_2 : NoDup ([] : list (nat * list string)).*1)) as [N E]. split; [done|].
  intros s. rewrite E. split; [|by right].
  intros [Hs|Hs]; [|done]. by apply elem_of_nil in Hs.
Qed.

Lemma UnLock_batch_step txn cf ks w p w0 lock_map :
  GetLockMap cf w = Some (Some p, w0) →
  heap w !! p = Some lock_map →
  wf_LockMap lock_map →
  ∃ w' lock_map',
    (∀ rest, UnLock_batch txn ((cf, ks) :: rest) w = UnLock_batch txn rest w')
    ∧ heap w' !! p = Some lock_map'
    ∧ wf_LockMap lock_map'
    ∧ (∀ p', p' ≠ p → heap w' !! p' = heap w !! p')
    ∧ lock_maps_ w' = lock_maps_ w
    ∧ graph_of w' = graph_of w
    ∧ (∀ s key,
         record_at w' p s key
         = if bool_decide (key ∈ ks ∧ s = GetStripe lock_map key)
           then release (GetID txn) (record_at w p s key)
           else record_at w p s key)
    ∧ locked_stripes w'
      = locked_stripes w
        ++ ((λ s, (p, s)) <$> (keys_by_stripe lock_map ks).*1)
    ∧ unlocked_stripes w'
      = unlocked_stripes w
        ++ ((λ s, (p, s)) <$> (keys_by_stripe lock_map ks).*1)
    ∧ notified_stripes w'
      = notified_stripes w
        ++ ((λ s, (p, s)) <$> (keys_by_stripe lock_map ks).*1)
    ∧ length (trace w')
      = (length (trace w) + 3 * length (keys_by_stripe lock_map ks))%nat.
Proof.
  intros Hg Hp [Hlen Hpos].
  destruct (GetLockMap_total cf w) as (r & c & Hg' & _).
  rewrite Hg in Hg'. injection Hg' as _ ->.
  destruct (unlock_stripes_records (GetID txn) (keys_by_stripe lock_map ks)
              (set_cache (Some c) w) p lock_map Hp)
    as (w' & lm' & E & Hp' & Hl' & Hk' & Ho' & Hr' & Hw' & Hrec & HL & HU & HN
        & HT).
  { intros s Hs. apply (keys_by_stripe_fst lock_map ks) in Hs
      as (key & _ & <-).
    rewrite <- Hlen. unfold GetStripe. apply Nat.mod_upper_bound. lia. }
  exists w', lm'. split.
  { intros rest. simpl. unfold bind at 1. rewrite Hg.
    unfold load_LockMap, bind at 1. simpl. rewrite Hp.
    unfold bind at 1. by rewrite E. }
  split; [done|].
  split. { split; congruence. }
  split; [done|]. split. { by destruct Hr'. }
  split; [done|].
  split. { intros s key. rewrite Hrec, keys_by_stripe_has. done. }
  done.
Qed.

(** X20 (a batch releases the listed keys the transaction holds).  When
    the lock map of [cf] is found, the batch [UnLock] goes through the keys
    [ks] of [cf] and on to the rest of the batch.  It then has removed a
    record exactly where a listed key, in its own stripe, was locked by
    the transaction: every other record of the lock map, the other lock
    maps, the registry and the wait-for graph are as before. *)
Theorem UnLock_batch_releases_held_keys txn cf ks w p w0 lock_map :
  GetLockMap cf w = Some (Some p, w0) →
  heap w !! p = Some lock_map →
  wf_LockMap lock_map →
  ∃ w',
    (∀ rest, UnLock_batch txn ((cf, ks) :: rest) w = UnLock_batch txn rest w')
    ∧ (∀ s key,
         record_at w' p s key
         = if bool_decide (key ∈ ks ∧ s = GetStripe lock_map key)
           then release (GetID txn) (record_at w p s key)
           else record_at w p s key)
    ∧ (∀ p', p' ≠ p → heap w' !! p' = heap w !! p')
    ∧ lock_maps_ w' = lock_maps_ w
    ∧ graph_of w' = graph_of w.
Proof.
  intros Hg Hp Hwf.
  destruct (UnLock_batch_step txn cf ks w p w0 lock_map Hg Hp Hwf)
    as (w' & lm' & E & _ & _ & Ho & Hr & Hw & Hrec & _).
  exists w'. by split_and!.
Qed.

Lemma bucket_has_spec buckets s k :
  bucket_has buckets s k = true ↔ ∃ ks, (s, ks) ∈ buckets ∧ k ∈ ks.
Proof.
  induction buckets as [|[s0 ks0] rest IH]; simpl.
  - split; [done|]. intros (ks & H & _). by apply elem_of_nil in H.
  - rewrite orb_true_iff, bool_decide_eq_true, IH. split.
    + intros [[-> Hk]|(ks & Hin & Hk)].
      * exists ks0. split; [by left|done].
      * exists ks. split; [by right|done].
    + intros (ks & Hin & Hk). apply elem_of_cons in Hin as [[= -> ->]|Hin].
      * by left.
      * right. by exists ks.
Qed.

Lemma bucket_has_perm buckets buckets' s k :
  buckets ≡ₚ buckets' → bucket_has buckets s k = bucket_has buckets' s k.
Proof.
  intros Hperm.
  assert (H : bucket_has buckets s k = true ↔ bucket_has buckets' s k = true).
  { rewrite !bucket_has_spec. split; intros (ks & Hin & Hk); exists ks.
    - by rewrite <- Hperm.
    - by rewrite Hperm. }
  destruct (bucket_has buckets s k), (bucket_has buckets' s k); try done.
  - symmetry. by apply H.
  - by apply H.
Qed.

(** X21 (a batch visits each stripe once).  For the keys [ks] of one
    column family the batch [UnLock] visits the stripes that one of the
    keys hashes to, each of them once, however many of the keys fall into
    it, and no other stripe: the mutex of each is locked once and unlocked
    once, there is one broadcast on its condition variable, and no other
    call is made to a collaborator.  The
    source does not fix the order in which the buckets are visited: in
    whatever order they are, each of their stripes is locked, unlocked and
    notified once, and the records are left the same. *)
Theorem UnLock_batch_notifies_each_stripe_once txn cf ks w p w0 lock_map :
  GetLockMap cf w = Some (Some p, w0) →
  heap w !! p = Some lock_map →
  wf_LockMap lock_map →
  ∃ w' stripes,
    (∀ rest, UnLock_batch txn ((cf, ks) :: rest) w = UnLock_batch txn rest w')
    ∧ NoDup stripes
    ∧ (∀ s, s ∈ stripes ↔ ∃ key, key ∈ ks ∧ GetStripe lock_map key = s)
    ∧ locked_stripes w' = locked_stripes w ++ ((λ s, (p, s)) <$> stripes)
    ∧ unlocked_stripes w' = unlocked_stripes w ++ ((λ s, (p, s)) <$> stripes)
    ∧ notified_stripes w' = notified_stripes w ++ ((λ s, (p, s)) <$> stripes)
    ∧ length (trace w') = (length (trace w) + 3 * length stripes)%nat
    ∧ ∀ buckets,
        buckets ≡ₚ keys_by_stripe lock_map ks →
        ∃ v,
          unlock_stripes p (GetID txn) buckets w0 = Some (tt, v)
          ∧ NoDup buckets.*1
          ∧ buckets.*1 ≡ₚ stripes
          ∧ locked_stripes v
            = locked_stripes w ++ ((λ s, (p, s)) <$> buckets.*1)
          ∧ unlocked_stripes v
            = unlocked_stripes w ++ ((λ s, (p, s)) <$> buckets.*1)
          ∧ notified_stripes v
            = notified_stripes w ++ ((λ s, (p, s)) <$> buckets.*1)
          ∧ length (trace v) = (length (trace w) + 3 * length buckets)%nat
          ∧ ∀ s key, record_at v p s key = record_at w' p s key.
Proof.
  intros Hg Hp Hwf.
  destruct (UnLock_batch_step txn cf ks w p w0 lock_map Hg Hp Hwf)
    as (w' & lm' & E & _ & _ & _ & _ & _ & Hrec & HL & HU & HN & HT).
  destruct (keys_by_stripe_fst lock_map ks) as [Hnd Hin].
  exists w', (keys_by_stripe lock_map ks).*1.
  split_and!; try done; [by rewrite length_fmap|].
  intros buckets Hperm.
  destruct (GetLockMap_total cf w) as (r & c & Hg' & _).
  rewrite Hg in Hg'. injection Hg' as _ ->.
  assert (Hfst : buckets.*1 ≡ₚ (keys_by_stripe lock_map ks).*1)
    by (by rewrite Hperm).
  destruct (unlock_stripes_records (GetID txn) buckets
              (set_cache (Some c) w) p lock_map Hp)
    as (v & lm_v & Ev & _ & _ & _ & _ & _ & _ & Hrec_v & VL & VU & VN & VT).
  { intros s Hs. rewrite Hfst in Hs. apply Hin in Hs as (key & _ & <-).
    destruct Hwf as [Hlen Hpos]. rewrite <- Hlen.
    unfold GetStripe. apply Nat.mod_upper_bound. lia. }
  exists v. split; [exact Ev|]. split; [by rewrite Hfst|].
  split; [exact Hfst|].
  split; [exact VL|]. split; [exact VU|]. split; [exact VN|].
  split; [exact VT|].
  intros s key. rewrite Hrec_v, Hrec.
  rewrite (record_at_heap w (set_cache (Some c) w)) by done.
  by rewrite (bucket_has_perm _ _ s key Hperm), keys_by_stripe_has.
Qed.

Lemma bind_at {A B} (m : M A) (k : A → M B) w :
  bind m k w = match m w with Some (a, w') => k a w' | None => None end.
Proof. done. Qed.

(** X22 (a batch of one key is the single release).  The batch [UnLock]
    called with one key of one column family does what the [UnLock] of
    that key does: the same calls in the same order, the same lock maps,
    whether or not the column family is still there. *)
Theorem UnLock_batch_single_key txn cf key w :
  UnLock_batch txn [(cf, [key])] w = UnLock txn cf key w.
Proof.
  cbn [UnLock_batch]. unfold UnLock. rewrite !bind_at.
  destruct (GetLockMap cf w) as [[[p|] w0]|]; [|done|done].
  rewrite !bind_at.
  destruct (load_LockMap p w0) as [[lock_map w1]|]; [|done].
  cbn [keys_by_stripe fold_left bucket_add unlock_stripes unlock_keys].
  rewrite !bind_at.
  destruct (load_stripe p (GetStripe lock_map key) w1) as [[stripe w2]|];
    [|done].
  rewrite !bind_at.
  destruct (stripe_mutex_Lock p (GetStripe lock_map key) w2) as [[r w3]|];
    [|done].
  rewrite !bind_at.
  destruct (unlock_key p (GetStripe lock_map key) (GetID txn) key w3)
    as [[[] w4]|]; [|done].
  done.
Qed.

(** *** Lock status *)

Lemma same_state_refl w : same_state w w.
Proof. by repeat split. Qed.

Lemma same_state_trans w1 w2 w3 :
  same_state w1 w2 → same_state w2 w3 → same_state w1 w3.
Proof.
  intros (A1 & [A2 A3] & A4) (B1 & [B2 B3] & B4).
  repeat split; congruence.
Qed.

Lemma same_state_emit e w : same_state w (emit e w).
Proof. by repeat split. Qed.

Lemma lock_stripes_from_spec p cf js : ∀ w lock_map,
  heap w !! p = Some lock_map →
  (∀ j, j ∈ js → (j < length (lock_map_stripes_ lock_map))%nat) →
  ∃ data w',
    lock_stripes_from p cf js w = Some (data, w')
    ∧ same_state w w'
    ∧ locked_stripes w' = locked_stripes w ++ ((λ j, (p, j)) <$> js)
    ∧ unlocked_stripes w' = unlocked_stripes w
    ∧ ∀ cf' key id,
        (cf', (key, id)) ∈ data
        ↔ cf' = cf ∧ ∃ j, j ∈ js ∧ holds w p j key id.
Proof.
  induction js as [|j js IH]; intros w lock_map Hp Hjs.
  - exists [], w. split; [done|]. split; [apply same_state_refl|].
    split. { simpl. by rewrite app_nil_r. }
    split; [done|]. intros cf' key id. split.
    + intros H. by apply elem_of_nil in H.
    + intros (_ & j & H & _). by apply elem_of_nil in H.
  - destruct (lookup_lt_is_Some_2 (lock_map_stripes_ lock_map) j)
      as [stripe Hs].
    { apply Hjs. by left. }
    set (w1 := emit (EvMutexLock p j (mutex_result env (ticks w))) w).
    destruct (IH w1 lock_map Hp) as (more & w' & E & Hsame & Hl & Hu & Hd).
    { intros j' Hj'. apply Hjs. by right. }
    exists (stripe_entries cf stripe ++ more), w'.
    split.
    { cbn [lock_stripes_from]. rewrite bind_at.
      unfold stripe_mutex_Lock. fold w1. rewrite bind_at.
      unfold load_stripe, load_LockMap. rewrite bind_at.
      change (heap w1) with (heap w). rewrite Hp, Hs.
      unfold ret at 1. rewrite bind_at, E. done. }
    split.
    { eapply same_state_trans; [|exact Hsame]. apply same_state_emit. }
    split.
    { rewrite Hl. unfold w1. rewrite locked_stripes_emit, fmap_cons.
      by rewrite <- app_assoc. }
    split.
    { rewrite Hu. unfold w1. rewrite unlocked_stripes_emit.
      by rewrite app_nil_r. }
    intros cf' key id. rewrite elem_of_app, Hd. unfold stripe_entries.
    rewrite list_elem_of_fmap. split.
    + intros [([k info] & [= -> -> ->] & Hin)|(-> & j' & Hj' & Hh)].
      * split; [done|]. exists j. split; [by left|].
        apply elem_of_map_to_list in Hin. exists info.
        unfold record_at, stripe_at. by rewrite Hp, Hs.
      * split; [done|]. exists j'. split; [by right|].
        destruct Hh as (info & Hr & Hid). exists info.
        by rewrite <- (record_at_heap w w1).
    + intros (-> & j' & Hj' & info & Hr & Hid).
      apply elem_of_cons in Hj' as [->|Hj'].
      * left. exists (key, info). split; [by rewrite <- Hid|].
        apply elem_of_map_to_list. unfold record_at, stripe_at in Hr.
        by rewrite Hp, Hs in Hr.
      * right. split; [done|]. exists j'. split; [done|]. by exists info.
Qed.

Lemma lock_column_families_spec cf_ids : ∀ w,
  lock_maps_allocated w →
  (∀ cf, cf ∈ cf_ids → is_Some (lock_maps_ w !! cf)) →
  ∃ data w',
    lock_column_families cf_ids w = Some (data, w')
    ∧ same_state w w'
    ∧ locked_stripes w' = locked_stripes w ++ (cf_ids ≫= stripes_of w)
    ∧ unlocked_stripes w' = unlocked_stripes w
    ∧ ∀ cf key id,
        (cf, (key, id)) ∈ data
        ↔ cf ∈ cf_ids
          ∧ ∃ p s, lock_maps_ w !! cf = Some p ∧ holds w p s key id.
Proof.
  induction cf_ids as [|i cf_ids IH]; intros w Halloc Hreg.
  - exists [], w. split; [done|]. split; [apply same_state_refl|].
    split. { simpl. by rewrite app_nil_r. }
    split; [done|]. intros cf key id. split.
    + intros H. by apply elem_of_nil in H.
    + intros (H & _). by apply elem_of_nil in H.
  - destruct (Hreg i) as [p Hi]; [by left|].
    destruct (Halloc i p Hi) as [lock_map Hp].
    destruct (lock_stripes_from_spec p i
                (seq 0 (length (lock_map_stripes_ lock_map))) w lock_map Hp)
      as (here & w1 & E1 & Hs1 & Hl1 & Hu1 & Hd1).
    { intros j Hj. apply elem_of_seq in Hj. lia. }
    destruct Hs1 as (Hh1 & [Hr1 Hc1] & Hg1).
    destruct (IH w1) as (more & w' & E & Hs & Hl & Hu & Hd).
    { intros cf q. rewrite Hr1, Hh1. apply Halloc. }
    { intros cf Hcf. rewrite Hr1. apply Hreg. by right. }
    exists (here ++ more), w'.
    split.
    { cbn [lock_column_families]. rewrite bind_at.
      unfold lock_maps_at. rewrite Hi, bind_at.
      unfold load_LockMap. rewrite Hp, bind_at, E1, bind_at, E. done. }
    split.
    { eapply same_state_trans; [|exact Hs]. by repeat split. }
    split.
    { rewrite Hl, Hl1, bind_cons, <- app_assoc. f_equal. f_equal.
      - unfold stripes_of. by rewrite Hi, Hp.
      - apply list_bind_ext; [|done]. intros cf. unfold stripes_of.
        by rewrite Hr1, Hh1. }
    split; [congruence|].
    intros cf key id. rewrite elem_of_app, Hd1, Hd. split.
    + intros [(-> & j & Hj & Hh)|(Hcf & q & s & Hq & Hh)].
      * split; [by left|]. by exists p, j.
      * split; [by right|]. exists q, s. split; [congruence|].
        destruct Hh as (info & Hr & Hid). exists info.
        by rewrite <- (record_at_heap w w1).
    + intros (Hcf & q & s & Hq & info & Hr & Hid).
      destruct (decide (cf = i)) as [->|Hne].
      * left. split; [done|]. rewrite Hi in Hq. injection Hq as <-.
        exists s. split; [|by exists info].
        apply elem_of_seq. split; [lia|]. simpl.
        unfold record_at, stripe_at in Hr. rewrite Hp in Hr.
        destruct (lock_map_stripes_ lock_map !! s) eqn:Hs'; [|done].
        by eapply lookup_lt_Some.
      * right. split.
        { apply elem_of_cons in Hcf as [?|?]; done. }
        exists q, s. split; [congruence|]. exists info.
        by rewrite (record_at_heap w w1).
Qed.

Lemma unlock_stripes_from_spec p js : ∀ w,
  ∃ w',
    unlock_stripes_from p js w = Some (tt, w')
    ∧ same_state w w'
    ∧ locked_stripes w' = locked_stripes w
    ∧ unlocked_stripes w' = unlocked_stripes w ++ ((λ j, (p, j)) <$> js).
Proof.
  induction js as [|j js IH]; intros w.
  - exists w. split; [done|]. split; [apply same_state_refl|].
    split; [done|]. simpl. by rewrite app_nil_r.
  - destruct (IH (emit (EvMutexUnLock p j) w)) as (w' & E & Hs & Hl & Hu).
    exists w'. split.
    { cbn [unlock_stripes_from]. by rewrite bind_at. }
    split.
    { eapply same_state_trans; [|exact Hs]. apply same_state_emit. }
    split.
    { rewrite Hl, locked_stripes_emit. by rewrite app_nil_r. }
    rewrite Hu, unlocked_stripes_emit, fmap_cons. by rewrite <- app_assoc.
Qed.

Lemma unlock_column_families_spec cf_ids : ∀ w,
  lock_maps_allocated w →
  (∀ cf, cf ∈ cf_ids → is_Some (lock_maps_ w !! cf)) →
  ∃ w',
    unlock_column_families cf_ids w = Some (tt, w')
    ∧ same_state w w'
    ∧ locked_stripes w' = locked_stripes w
    ∧ unlocked_stripes w' = unlocked_stripes w ++ (cf_ids ≫= stripes_of w).
Proof.
  induction cf_ids as [|i cf_ids IH]; intros w Halloc Hreg.
  - exists w. split; [done|]. split; [apply same_state_refl|].
    split; [done|]. simpl. by rewrite app_nil_r.
  - destruct (Hreg i) as [p Hi]; [by left|].
    destruct (Halloc i p Hi) as [lock_map Hp].
    destruct (unlock_stripes_from_spec p
                (seq 0 (length (lock_map_stripes_ lock_map))) w)
      as (w1 & E1 & Hs1 & Hl1 & Hu1).
    destruct Hs1 as (Hh1 & [Hr1 Hc1] & Hg1).
    destruct (IH w1) as (w' & E & Hs & Hl & Hu).
    { intros cf q. rewrite Hr1, Hh1. apply Halloc. }
    { intros cf Hcf. rewrite Hr1. apply Hreg. by right. }
    exists w'. split.
    { cbn [unlock_column_families]. rewrite bind_at.
      unfold lock_maps_at. rewrite Hi, bind_at.
      unfold load_LockMap. rewrite Hp, bind_at, E1. done. }
    split.
    { eapply same_state_trans; [|exact Hs]. by repeat split. }
    split; [congruence|].
    rewrite Hu, Hu1, bind_cons, <- app_assoc. f_equal. f_equal.
    + unfold stripes_of. by rewrite Hi, Hp.
    + apply list_bind_ext; [|done]. intros cf. unfold stripes_of.
      by rewrite Hr1, Hh1.
Qed.

Lemma sorted_cf_ids_spec (m : gmap N positive) :
  let cf_ids := merge_sort N.le (map_to_list m).*1 in
  StronglySorted N.lt cf_ids ∧ ∀ cf, cf ∈ cf_ids ↔ is_Some (m !! cf).
Proof.
  intros cf_ids.
  assert (Hperm : cf_ids ≡ₚ (map_to_list m).*1)
    by apply merge_sort_Permutation.
  split.
  - assert (Hnd : NoDup cf_ids).
    { rewrite Hperm. apply NoDup_fst_map_to_list. }
    assert (Hsort : StronglySorted N.le cf_ids)
      by apply (StronglySorted_merge_sort _).
    clearbody cf_ids. clear Hperm.
    induction Hsort as [|x l Hl IH Hall]; [constructor|].
    apply NoDup_cons in Hnd as [Hx Hnd].
    constructor; [by apply IH|].
    apply Forall_forall. intros y Hy.
    pose proof (proj1 (Forall_forall _ _) Hall y Hy) as Hle.
    assert (x ≠ y) by (by intros ->). lia.
  - intros cf. rewrite Hperm, list_elem_of_fmap. split.
    + intros ([k q] & -> & Hin). apply elem_of_map_to_list in Hin.
      by exists q.
    + intros [q Hq]. exists (cf, q). split; [done|].
      by apply elem_of_map_to_list.
Qed.

Lemma GetLockStatusData_spec w :
  lock_maps_allocated w →
  let cf_ids := merge_sort N.le (map_to_list (lock_maps_ w)).*1 in
  ∃ data w',
    GetLockStatusData w = Some (data, w')
    ∧ same_state w w'
    ∧ locked_stripes w' = locked_stripes w ++ (cf_ids ≫= stripes_of w)
    ∧ unlocked_stripes w' = unlocked_stripes w ++ (cf_ids ≫= stripes_of w)
    ∧ ∀ cf key id,
        (cf, (key, id)) ∈ data
        ↔ ∃ p s, lock_maps_ w !! cf = Some p ∧ holds w p s key id.
Proof.
  intros Halloc cf_ids.
  destruct (sorted_cf_ids_spec (lock_maps_ w)) as [_ Hin].
  fold cf_ids in Hin.
  destruct (lock_column_families_spec cf_ids w Halloc)
    as (data & w1 & E1 & Hs1 & Hl1 & Hu1 & Hd1).
  { intros cf Hcf. by apply Hin. }
  pose proof Hs1 as (Hh1 & [Hr1 Hc1] & Hg1).
  destruct (unlock_column_families_spec cf_ids w1)
    as (w' & E & Hs & Hl & Hu).
  { intros cf q. rewrite Hr1, Hh1. apply Halloc. }
  { intros cf Hcf. rewrite Hr1. by apply Hin. }
  exists data, w'. split.
  { unfold GetLockStatusData. fold cf_ids. by rewrite bind_at, E1, bind_at, E. }
  split; [by eapply same_state_trans|].
  split; [congruence|].
  split.
  { rewrite Hu, Hu1. f_equal. apply list_bind_ext; [|done].
    intros cf. unfold stripes_of. by rewrite Hr1, Hh1. }
  intros cf key id. rewrite Hd1. split.
  - by intros [_ H].
  - intros (p & s & Hp & Hh). split; [|by exists p, s].
    apply Hin. by exists p.
Qed.

(** X23 (the lock status lists the held locks).  When every lock map of
    the registry is allocated, [GetLockStatusData] returns, and its
    entries are exactly the locks held at the call: a column family of
    the registry, a key recorded in one of its stripes, and the id of the
    transaction in the record.  The lock maps, the registry and the
    wait-for graph are left as they were. *)
Theorem GetLockStatusData_lists_held_locks w :
  lock_maps_allocated w →
  ∃ data w',
    GetLockStatusData w = Some (data, w')
    ∧ same_state w w'
    ∧ ∀ cf key id,
        (cf, (key, id)) ∈ data
        ↔ ∃ p s, lock_maps_ w !! cf = Some p ∧ holds w p s key id.
Proof.
  intros Halloc.
  destruct (GetLockStatusData_spec w Halloc)
    as (data & w' & E & Hs & _ & _ & Hd).
  by exists data, w'.
Qed.

(** X24 (the lock status takes the stripe mutexes in ascending order).
    [GetLockStatusData] locks the stripes column family by column family
    in strictly ascending order of the ids of the registry, within a
    column family in ascending order of the stripes, each stripe once;
    and it unlocks every stripe it locked before it returns. *)
Theorem GetLockStatusData_lock_order w :
  lock_maps_allocated w →
  ∃ data w' cf_ids,
    GetLockStatusData w = Some (data, w')
    ∧ StronglySorted N.lt cf_ids
    ∧ (∀ cf, cf ∈ cf_ids ↔ is_Some (lock_maps_ w !! cf))
    ∧ locked_stripes w' = locked_stripes w ++ (cf_ids ≫= stripes_of w)
    ∧ unlocked_stripes w' = unlocked_stripes w ++ (cf_ids ≫= stripes_of w).
Proof.
  intros Halloc.
  destruct (GetLockStatusData_spec w Halloc)
    as (data & w' & E & _ & Hl & Hu & _).
  destruct (sorted_cf_ids_spec (lock_maps_ w)) as [Hsort Hin].
  by eexists data, w', _.
Qed.

End TransactionLockMgr.

(** ** The statements at concrete states *)

Import Scenario.

(** Transaction 2 asks for ["a"], which transaction 1 held until 50: the
    clock reads 100 and the database agrees, so the lock changes hands. *)
Lemma steal_iff_stealable_witness :
  heap w_held !! 1%positive = Some lock_map_a
  ∧ lock_map_stripes_ lock_map_a !! 0%nat = Some stripe_a
  ∧ keys stripe_a !! "a" = Some held_a
  ∧ txn_id held_a ≠ txn_id (mkLockInfo 2 0)
  ∧ ∃ result hint' wid' w',
      AcquireLocked 2 env0 1 0 "a" (mkLockInfo 2 0) 0 0%N w_held
      = Some ((result, hint', wid'), w')
      ∧ (record_at w' 1 0 "a" = Some (mkLockInfo 2 0)
         ↔ stealable env0 w_held held_a).
Proof.
  assert (H1 : heap w_held !! 1%positive = Some lock_map_a) by reflexivity.
  assert (H2 : lock_map_stripes_ lock_map_a !! 0%nat = Some stripe_a)
    by reflexivity.
  assert (H3 : keys stripe_a !! "a" = Some held_a) by reflexivity.
  assert (H4 : txn_id held_a ≠ txn_id (mkLockInfo 2 0)) by (simpl; lia).
  split_and!; try assumption.
  destruct (steal_iff_stealable 2 env0 w_held 1 0 lock_map_a stripe_a "a"
              held_a (mkLockInfo 2 0) 0 0%N H1 H2 H3 H4)
    as (result & hint' & wid' & w' & Ha & Hiff & _).
  exists result, hint', wid', w'. by split.
Defined.

(** Transaction 2 asks for ["a"], which transaction 1 holds without
    expiration. *)
Lemma never_expiring_lock_not_stolen_witness :
  heap w_forever !! 1%positive = Some lock_map_forever
  ∧ lock_map_stripes_ lock_map_forever !! 0%nat = Some stripe_forever
  ∧ keys stripe_forever !! "a" = Some held_forever
  ∧ txn_id held_forever ≠ txn_id (mkLockInfo 2 0)
  ∧ expiration_time held_forever = 0
  ∧ ∃ w',
      AcquireLocked 2 env0 1 0 "a" (mkLockInfo 2 0) 7 0%N w_forever
      = Some ((Status.TimedOut kLockTimeout, 0, 1%N), w')
      ∧ heap w' = heap w_forever.
Proof.
  assert (H1 : heap w_forever !! 1%positive = Some lock_map_forever)
    by reflexivity.
  assert (H2 : lock_map_stripes_ lock_map_forever !! 0%nat
               = Some stripe_forever) by reflexivity.
  assert (H3 : keys stripe_forever !! "a" = Some held_forever) by reflexivity.
  assert (H4 : txn_id held_forever ≠ txn_id (mkLockInfo 2 0))
    by (simpl; lia).
  assert (H5 : expiration_time held_forever = 0) by reflexivity.
  split_and!; try assumption.
  destruct (never_expiring_lock_not_stolen 2 env0 w_forever 1 0
              lock_map_forever stripe_forever "a" held_forever
              (mkLockInfo 2 0) 7 0%N H1 H2 H3 H4 H5)
    as (w' & Ha & _ & Hh & _).
  exists w'. by split.
Defined.

(** A limit of 2 locks and one lock taken: ["b"] can still be locked, in
    one go or with the check and the insertion apart. *)
Lemma lock_limit_cap_witness :
  0 < 2
  ∧ is_int64 2
  ∧ is_int64 (lock_cnt lock_map_a)
  ∧ heap w_held !! 1%positive = Some lock_map_a
  ∧ lock_map_stripes_ lock_map_a !! 0%nat = Some stripe_a
  ∧ (∃ result hint' wid' w' lock_map',
       AcquireLocked 2 env0 1 0 "b" (mkLockInfo 2 0) 0 0%N w_held
       = Some ((result, hint', wid'), w')
       ∧ heap w' !! 1%positive = Some lock_map'
       ∧ (lock_cnt lock_map' = lock_cnt lock_map_a
          ∨ lock_cnt lock_map' = lock_cnt lock_map_a + 1
            ∧ lock_cnt lock_map' <= 2))
  ∧ lock_limit_reached 2 1 w_held = Some (false, w_held)
  ∧ ∃ v' lock_map_v',
      insert_lock 2 1 0 "b" (mkLockInfo 2 0) w_held = Some (tt, v')
      ∧ heap v' !! 1%positive = Some lock_map_v'
      ∧ lock_cnt lock_map_v' = 2.
Proof.
  assert (H0 : 0 < 2) by lia.
  assert (Hm : is_int64 2) by (unfold is_int64; lia).
  assert (Hc : is_int64 (lock_cnt lock_map_a))
    by (unfold is_int64; simpl; lia).
  assert (H1 : heap w_held !! 1%positive = Some lock_map_a) by reflexivity.
  assert (H2 : lock_map_stripes_ lock_map_a !! 0%nat = Some stripe_a)
    by reflexivity.
  split_and!; try assumption.
  - destruct (lock_limit_cap 2 env0 w_held 1 0 lock_map_a stripe_a "b"
                (mkLockInfo 2 0) 0 0%N H0 Hm Hc H1 H2)
      as [(result & hint' & wid' & w' & lock_map' & Ha & Hh & _ & Hcnt) _].
    exists result, hint', wid', w', lock_map'. by split_and!.
  - exact (proj1 (proj2 (lock_limit_cap 2 env0 w_held 1 0 lock_map_a
                           stripe_a "b" (mkLockInfo 2 0) 0 0%N
                           H0 Hm Hc H1 H2))).
  - destruct (proj2 (proj2 (lock_limit_cap 2 env0 w_held 1 0 lock_map_a
                              stripe_a "b" (mkLockInfo 2 0) 0 0%N
                              H0 Hm Hc H1 H2))
                w_held lock_map_a H1 H2 Hc)
      as (v' & lock_map_v' & Hi & Hh & _ & _ & Hcap).
    exists v', lock_map_v'. split; [exact Hi|]. split; [exact Hh|].
    destruct Hcap as [Heq _]; [simpl; lia|lia|]. rewrite Heq. reflexivity.
Defined.

(** Transaction 1 releases ["a"], which it holds. *)
Lemma unlock_removes_iff_holder_witness :
  ∃ w',
    UnLock hash0 2 env0 txn1 1 "a" w_held = Some (tt, w')
    ∧ record_at w_held 1 0 "a" = Some held_a
    ∧ record_at w' 1 0 "a" = None.
Proof.
  destruct (unlock_removes_iff_holder hash0 2 env0 txn1 1 "a" w_held)
    as (ptr & w0 & Hg & Hu).
  vm_compute in Hg. injection Hg as <- <-.
  destruct (Hu lock_map_a stripe_a eq_refl eq_refl)
    as (w' & Hun & Hiff & _).
  exists w'. split_and!; [exact Hun|reflexivity|].
  apply Hiff. exists held_a. split; reflexivity.
Defined.

(** Transaction 1 locks the free key ["a"], then releases it. *)
Lemma lock_then_unlock_restores_witness :
  0 <= 0
  ∧ is_int64 (lock_cnt (new_LockMap 1))
  ∧ heap w_fresh !! 1%positive = Some (new_LockMap 1)
  ∧ ∃ w0 w1,
      GetLockMap 1 w_fresh = Some (Some 1%positive, w0)
      ∧ TryLock hash0 0 env0 0 txn1 1 "a" w_fresh = Some (Status.OK, w1)
      ∧ ∃ w2, UnLock hash0 0 env0 txn1 1 "a" w1 = Some (tt, w2)
              ∧ heap w2 = heap w_fresh.
Proof.
  assert (H0 : 0 <= 0) by lia.
  assert (Hc : is_int64 (lock_cnt (new_LockMap 1)))
    by (unfold is_int64; simpl; lia).
  assert (H1 : heap w_fresh !! 1%positive = Some (new_LockMap 1))
    by reflexivity.
  split_and!; try assumption.
  assert (Hg : GetLockMap 1 w_fresh
               = Some (Some 1%positive,
                       set_cache (Some {[1%N := 1%positive]}) w_fresh))
    by reflexivity.
  destruct (TryLock hash0 0 env0 0 txn1 1 "a" w_fresh) as [[st w1]|] eqn:Hl;
    [|vm_compute in Hl; discriminate].
  assert (Hst : st = Status.OK)
    by (vm_compute in Hl; by injection Hl as <- _).
  subst st.
  exists (set_cache (Some {[1%N := 1%positive]}) w_fresh), w1.
  split; [exact Hg|]. split; [reflexivity|].
  apply (lock_then_unlock_restores hash0 0 env0 0 txn1 1 "a" w_fresh
           1%positive _ (new_LockMap 1) (mkStripe ∅) Status.OK w1
           H0 Hc Hg H1 eq_refl eq_refl (or_introl eq_refl) Hl eq_refl).
Defined.

(** A zero timeout on a free key: one attempt, no wait. *)
Lemma timeout_zero_single_attempt_witness :
  GetLockTimeout txn1 = 0
  ∧ ∃ status w',
      TryLock hash0 0 env0 3 txn1 1 "a" w_fresh = Some (status, w')
      ∧ cv_waits w' = cv_waits w_fresh
      ∧ attempts w' = S (attempts w_fresh).
Proof.
  assert (H0 : GetLockTimeout txn1 = 0) by reflexivity.
  split; [assumption|].
  destruct (timeout_zero_single_attempt hash0 0 env0 3 txn1 1 "a" w_fresh H0)
    as (ptr & w0 & Hg & Ht).
  vm_compute in Hg. injection Hg as <- <-.
  destruct (Ht (new_LockMap 1) (mkStripe ∅) eq_refl eq_refl)
    as (status & w' & Hl & Hcv & Hrest).
  exists status, w'. split_and!; [exact Hl|exact Hcv|].
  simpl in Hrest. by destruct Hrest as (_ & Hat & _).
Defined.

(** A batch over column families 1, 7 and 2, where 7 has been dropped:
    ["a"] in column family 1 is released, ["b"] in column family 2 stays
    locked. *)
Lemma batch_unlock_stops_at_dropped_cf_witness :
  unknown_cf w_two 7
  ∧ ∃ w1 w2,
      UnLock_batch hash0 2 env0 txn1 [(1%N, ["a"])] w_two = Some (tt, w1)
      ∧ UnLock_batch hash0 2 env0 txn1
          ([(1%N, ["a"])] ++ (7%N, ["x"]) :: [(2%N, ["b"])]) w_two
        = Some (tt, w2)
      ∧ heap w2 = heap w1
      ∧ notifications w2 = notifications w1
      ∧ record_at w2 2 0 "b" = Some held_b.
Proof.
  assert (Hun : unknown_cf w_two 7).
  { split; [reflexivity|]. intros c Hc. discriminate Hc. }
  split; [assumption|].
  destruct (UnLock_batch hash0 2 env0 txn1 [(1%N, ["a"])] w_two)
    as [[[] w1]|] eqn:Hpre; [|vm_compute in Hpre; discriminate].
  destruct (batch_unlock_stops_at_dropped_cf hash0 2 env0 txn1
              [(1%N, ["a"])] 7%N ["x"] [(2%N, ["b"])] w_two w1 Hun Hpre)
    as (w2 & Hb & Hh & _ & Hn).
  exists w1, w2. split_and!; [reflexivity|exact Hb|exact Hh|exact Hn|].
  unfold record_at, stripe_at. rewrite Hh.
  vm_compute in Hpre. injection Hpre as <-. reflexivity.
Defined.

(** Transaction 1 waits for 2; transaction 2 registers a wait for 1. *)
Lemma deadlock_report_sound_witness :
  IncrementWaiters txn2 1 w_waiting = Some (true, w_waiting)
  ∧ ((∃ len, (1 <= len <= 10)%nat
             ∧ cycle_through (<[2%N := 1%N]> (wait_txn_map_ w_waiting))
                             2 len)
     ∨ ((∀ len, (1 <= len <= 10)%nat →
                ¬ cycle_through (<[2%N := 1%N]> (wait_txn_map_ w_waiting))
                                2 len)
        ∧ ∀ n, (n < 10)%nat →
               ∃ x, chain (<[2%N := 1%N]> (wait_txn_map_ w_waiting)) 1 n
                    = Some x ∧ x ≠ 2%N)).
Proof.
  assert (H : IncrementWaiters txn2 1 w_waiting = Some (true, w_waiting))
    by (vm_compute; reflexivity).
  split; [exact H|].
  destruct (deadlock_report_sound txn2 1 w_waiting) as (r & w' & Hr & Hsound & _).
  apply Hsound. rewrite H in Hr. by injection Hr as <- _.
Defined.

(** The graph in which transaction 1 waits for 2 is built from the empty
    one by one registration. *)
Lemma graph_accounting_invariant_witness :
  reachable_graph w_waiting
  ∧ graph_accounting w_waiting
  ∧ rev_wait_txn_map_ w_waiting !! 2%N = Some 1%N
  ∧ wait_txn_map_ w_waiting !! GetID txn2 = None
  ∧ (N.of_nat (size (wait_txn_map_ w_waiting)) < 2 ^ 32 - 1)%N
  ∧ ∃ w',
      IncrementWaiters txn2 1 w_waiting = Some (true, w')
      ∧ wait_txn_map_ w' = wait_txn_map_ w_waiting
      ∧ rev_wait_txn_map_ w' = rev_wait_txn_map_ w_waiting.
Proof.
  assert (Hr : reachable_graph w_waiting).
  { apply (reachable_register empty_World txn1 2 false w_waiting).
    - by apply reachable_empty.
    - reflexivity.
    - vm_compute. reflexivity.
    - vm_compute. reflexivity. }
  assert (Hid : wait_txn_map_ w_waiting !! GetID txn2 = None) by reflexivity.
  assert (Hroom : (N.of_nat (size (wait_txn_map_ w_waiting)) < 2 ^ 32 - 1)%N)
    by (vm_compute; reflexivity).
  assert (Hincr : IncrementWaiters txn2 1 w_waiting = Some (true, w_waiting))
    by (vm_compute; reflexivity).
  destruct (graph_accounting_invariant w_waiting Hr) as (Hacc & _ & Hroll).
  split_and!; [exact Hr|exact Hacc|reflexivity|exact Hid|exact Hroom|].
  exists w_waiting. split; [exact Hincr|].
  exact (Hroll txn2 1%N w_waiting Hid Hroom Hincr).
Defined.

(** C3: the failing input.  With [max_num_locks_ = -1] the limit is off, yet
    locking the free key ["a"] raises [lock_cnt] from 0 to 1, and the
    [UnLock] that follows removes the record and leaves [lock_cnt] at 1. *)
Theorem negative_limit_counts_locks :
  ∃ w1 w2,
    TryLock hash0 (-1) env0 0 txn1 1 "a" w_fresh = Some (Status.OK, w1)
    ∧ lock_cnt <$> heap w_fresh !! 1%positive = Some 0
    ∧ lock_cnt <$> heap w1 !! 1%positive = Some 1
    ∧ UnLock hash0 (-1) env0 txn1 1 "a" w1 = Some (tt, w2)
    ∧ record_at w2 1 0 "a" = None
    ∧ lock_cnt <$> heap w2 !! 1%positive = Some 1.
Proof.
  eexists _, _. split_and!.
  - vm_compute. reflexivity.
  - reflexivity.
  - reflexivity.
  - vm_compute. reflexivity.
  - reflexivity.
  - reflexivity.
Qed.

(** C4 does not extend to a key the transaction holds already:
    transaction 1 holds ["a"]; its [TryLock] succeeds without changing
    anything, and the [UnLock] that follows removes the lock that was there
    before. *)
Lemma relock_then_unlock_loses_lock :
  ∃ w1 w2,
    TryLock hash0 2 env0 0 txn1 1 "a" w_forever = Some (Status.OK, w1)
    ∧ UnLock hash0 2 env0 txn1 1 "a" w1 = Some (tt, w2)
    ∧ record_at w_forever 1 0 "a" = Some held_forever
    ∧ record_at w2 1 0 "a" = None
    ∧ heap w2 ≠ heap w_forever.
Proof.
  eexists _, _. split_and!.
  - vm_compute. reflexivity.
  - vm_compute. reflexivity.
  - reflexivity.
  - reflexivity.
  - intros Heq.
    assert (Hrec : ∀ w w' : World, heap w = heap w' →
                   record_at w 1 0 "a" = record_at w' 1 0 "a").
    { intros w w' Hh. unfold record_at, stripe_at. by rewrite Hh. }
    apply Hrec in Heq. vm_compute in Heq. discriminate Heq.
Qed.

(** C6 needs the schedule.  The limit is one lock and the lock map, of two
    stripes, is empty.  Transaction 1 asks for ["ab"], in stripe 0, and
    transaction 2 for ["a"], in stripe 1, each under the mutex of its own
    stripe.  Both limit checks read a count of 0 before either insertion
    is made; both attempts insert, and the second raises [lock_cnt] to 2,
    above the limit.  Run after the first attempt is over, the second
    returns [Busy(LockLimit)]. *)
Lemma concurrent_inserts_exceed_lock_limit :
  GetStripe hash_length (new_LockMap 2) "ab" = 0%nat
  ∧ GetStripe hash_length (new_LockMap 2) "a" = 1%nat
  ∧ ∃ w1 w2 w3 w4 lock_map,
      lock_limit_reached 1 1 w_two_stripes = Some (false, w1)
      ∧ lock_limit_reached 1 1 w1 = Some (false, w2)
      ∧ insert_lock 1 1 0 "ab" (mkLockInfo 1 0) w2 = Some (tt, w3)
      ∧ insert_lock 1 1 1 "a" (mkLockInfo 2 0) w3 = Some (tt, w4)
      ∧ record_at w4 1 0 "ab" = Some (mkLockInfo 1 0)
      ∧ record_at w4 1 1 "a" = Some (mkLockInfo 2 0)
      ∧ heap w4 !! 1%positive = Some lock_map
      ∧ lock_cnt lock_map = 2
      ∧ ¬ lock_cnt lock_map <= 1
      ∧ ∃ w5, AcquireLocked 1 env0 1 1 "a" (mkLockInfo 2 0) 0 0%N w3
              = Some ((Status.Busy kLockLimit, 0, 0%N), w5).
Proof.
  split; [reflexivity|]. split; [reflexivity|].
  eexists _, _, _, _, _. split_and!.
  - vm_compute. reflexivity.
  - vm_compute. reflexivity.
  - vm_compute. reflexivity.
  - vm_compute. reflexivity.
  - reflexivity.
  - reflexivity.
  - reflexivity.
  - reflexivity.
  - simpl. lia.
  - eexists. vm_compute. reflexivity.
Qed.

(** C8 needs the stripe mutex: with a zero timeout and a contended stripe mutex,
    [TryLock] makes no attempt at all and returns the status of the mutex,
    [TimedOut(MutexTimeout)], although the key is free. *)
Lemma timeout_zero_contended_mutex_no_attempt :
  GetLockTimeout txn1 = 0
  ∧ record_at w_fresh 1 0 "a" = None
  ∧ ∃ w',
      TryLock hash0 0 env_contended 5 txn1 1 "a" w_fresh
      = Some (Status.TimedOut kMutexTimeout, w')
      ∧ attempts w' = attempts w_fresh
      ∧ heap w' = heap w_fresh.
Proof.
  split; [reflexivity|]. split; [reflexivity|].
  eexists. split_and!.
  - vm_compute. reflexivity.
  - reflexivity.
  - reflexivity.
Qed.

(** ** Scenarios *)

(** A column family is added to the empty manager. *)
Example scenario_add_column_family :
  AddColumnFamily 1 1 empty_World = Some (tt, w_fresh).
Proof. vm_compute. reflexivity. Qed.

(** Contention, then timeout: transaction 2 waits 10 ms for ["a"], which
    transaction 1 holds; the wait on the condition variable times out, one
    more attempt is made, and the call returns [TimedOut(LockTimeout)] with
    the wait-for graph empty again. *)
Example scenario_contention_then_timeout :
  ∃ w',
    TryLock hash0 2 env0 3 (mkTxn 2 0 10000 true 10) 1 "a" w_forever
    = Some (Status.TimedOut kLockTimeout, w')
    ∧ attempts w' = 2%nat
    ∧ cv_waits w' = 1%nat
    ∧ wait_txn_map_ w' = ∅ ∧ rev_wait_txn_map_ w' = ∅
    ∧ heap w' = heap w_forever.
Proof.
  eexists. split_and!; [vm_compute; reflexivity|reflexivity..].
Qed.

(** Deadlock: transaction 1 holds ["a"] and waits for transaction 2, which
    now asks for ["a"]: the cycle 2 -> 1 -> 2 is found, the call returns
    [Busy(Deadlock)] without waiting, and the graph is as before. *)
Example scenario_deadlock :
  let w := set_graph {[1%N := 2%N]} {[2%N := 1%N]} w_forever in
  ∃ w',
    TryLock hash0 2 env0 3 (mkTxn 2 0 10000 true 10) 1 "a" w
    = Some (Status.Busy kDeadlock, w')
    ∧ cv_waits w' = 0%nat
    ∧ wait_txn_map_ w' = wait_txn_map_ w
    ∧ rev_wait_txn_map_ w' = rev_wait_txn_map_ w.
Proof.
  eexists. split_and!; [vm_compute; reflexivity|reflexivity..].
Qed.

(** A conservative answer: 1 waits for 2, 2 for 3, and 3 registers a wait
    for 1 with a depth of 1.  The cycle has three edges; the walk stops
    after one successor and reports a deadlock all the same. *)
Example scenario_conservative_deadlock :
  let w := mkWorld ∅ ∅ None {[1%N := 2%N; 2%N := 3%N]}
                   {[2%N := 1%N; 3%N := 1%N]} 0 0 [] in
  IncrementWaiters (mkTxn 3 0 0 true 1) 1 w = Some (true, w)
  ∧ walk (<[3%N := 1%N]> (wait_txn_map_ w)) 3 1 0 1 = WalkTooBig
  ∧ walk (<[3%N := 1%N]> (wait_txn_map_ w)) 3 1 0 10 = WalkCycle 2.
Proof. split_and!; vm_compute; reflexivity. Qed.

(** ** The further properties at concrete states *)

Lemma cache_coherent_no_cache w :
  lock_maps_cache_ w = None → cache_coherent w.
Proof. intros H c cf p Hc. congruence. Qed.

Lemma graph_ok_no_wait w :
  wait_txn_map_ w = ∅ → rev_wait_txn_map_ w = ∅ → graph_ok w.
Proof. intros H1 H2. apply reachable_graph_ok. by apply reachable_empty. Qed.

Lemma graph_ok_w_waiting : graph_ok w_waiting.
Proof.
  apply reachable_graph_ok.
  apply (reachable_register empty_World txn1 2 false w_waiting).
  - by apply reachable_empty.
  - reflexivity.
  - vm_compute. reflexivity.
  - vm_compute. reflexivity.
Qed.

Lemma graph_ok_w_forever_waiting : graph_ok w_forever_waiting.
Proof.
  apply reachable_graph_ok.
  apply (reachable_register w_forever txn1 2 false w_forever_waiting).
  - by apply reachable_empty.
  - reflexivity.
  - vm_compute. reflexivity.
  - vm_compute. reflexivity.
Qed.

Lemma lock_maps_allocated_w_two : lock_maps_allocated w_two.
Proof.
  intros cf p H. unfold w_two, world_of in H. simpl in H.
  apply lookup_insert_Some in H as [[<- <-]|[_ H]]; [by eexists|].
  apply lookup_singleton_Some in H as [<- <-]. by eexists.
Qed.

Lemma wf_lock_map_wide : wf_LockMap lock_map_wide.
Proof. split; [reflexivity|simpl; lia]. Qed.

(** The lookup of column family 2 before anything is cached. *)
Lemma GetLockMap_answers_registry_witness :
  cache_coherent w_two
  ∧ ∃ w',
      GetLockMap 2 w_two = Some (Some 2%positive, w')
      ∧ cache_coherent w'
      ∧ heap w' = heap w_two.
Proof.
  assert (H : cache_coherent w_two) by (by apply cache_coherent_no_cache).
  split; [assumption|].
  destruct (GetLockMap_answers_registry 2 w_two H)
    as (w' & Hg & Hc & Hh & _).
  exists w'. split_and!; [exact Hg|exact Hc|exact Hh].
Defined.

(** Column family 2 is added, with 4 stripes, beside column family 1. *)
Lemma AddColumnFamily_makes_empty_lock_map_witness :
  lock_maps_ w_fresh !! 2%N = None
  ∧ cache_coherent w_fresh
  ∧ ∃ p w1 w2,
      AddColumnFamily 4 2 w_fresh = Some (tt, w1)
      ∧ heap w_fresh !! p = None
      ∧ heap w1 !! p = Some (new_LockMap 4)
      ∧ GetLockMap 2 w1 = Some (Some p, w2)
      ∧ lock_maps_ w1 !! 1%N = lock_maps_ w_fresh !! 1%N.
Proof.
  assert (H1 : lock_maps_ w_fresh !! 2%N = None) by reflexivity.
  assert (H2 : cache_coherent w_fresh) by (by apply cache_coherent_no_cache).
  split_and!; try assumption.
  destruct (AddColumnFamily_makes_empty_lock_map 4 2 w_fresh H1 H2)
    as (p & w1 & w2 & Ha & Hf & Hn & Hg & _ & Hr).
  exists p, w1, w2. split_and!; try assumption. by apply Hr.
Defined.

(** Transaction 2 asks for ["a"], which transaction 1 holds until 200; the
    clock reads 100. *)
Lemma unexpired_lock_gives_hint_witness :
  heap w_late !! 1%positive = Some lock_map_late
  ∧ lock_map_stripes_ lock_map_late !! 0%nat = Some stripe_late
  ∧ keys stripe_late !! "a" = Some held_late
  ∧ txn_id held_late ≠ txn_id (mkLockInfo 2 0)
  ∧ 0 < expiration_time held_late
  ∧ NowMicros env0 (ticks w_late) < expiration_time held_late
  ∧ ∃ w',
      AcquireLocked 0 env0 1 0 "a" (mkLockInfo 2 0) 0 0%N w_late
      = Some ((Status.TimedOut kLockTimeout, 200, 1%N), w')
      ∧ heap w' = heap w_late.
Proof.
  assert (H1 : heap w_late !! 1%positive = Some lock_map_late) by reflexivity.
  assert (H2 : lock_map_stripes_ lock_map_late !! 0%nat = Some stripe_late)
    by reflexivity.
  assert (H3 : keys stripe_late !! "a" = Some held_late) by reflexivity.
  assert (H4 : txn_id held_late ≠ txn_id (mkLockInfo 2 0)) by (simpl; lia).
  assert (H5 : 0 < expiration_time held_late) by (simpl; lia).
  assert (H6 : NowMicros env0 (ticks w_late) < expiration_time held_late)
    by (simpl; lia).
  split_and!; try assumption.
  destruct (unexpired_lock_gives_hint 0 env0 w_late 1 0 lock_map_late
              stripe_late "a" held_late (mkLockInfo 2 0) 0 0%N
              H1 H2 H3 H4 H5 H6) as (w' & Ha & _ & Hh).
  exists w'. by split.
Defined.

(** Transaction 2 locks ["b"]: the record of ["a"] stays. *)
Lemma AcquireLocked_touches_one_key_witness :
  heap w_held !! 1%positive = Some lock_map_a
  ∧ lock_map_stripes_ lock_map_a !! 0%nat = Some stripe_a
  ∧ ∃ r w',
      AcquireLocked 0 env0 1 0 "b" (mkLockInfo 2 0) 0 0%N w_held
      = Some (r, w')
      ∧ record_at w' 1 0 "a" = Some held_a.
Proof.
  assert (H1 : heap w_held !! 1%positive = Some lock_map_a) by reflexivity.
  assert (H2 : lock_map_stripes_ lock_map_a !! 0%nat = Some stripe_a)
    by reflexivity.
  split_and!; try assumption.
  destruct (AcquireLocked 0 env0 1 0 "b" (mkLockInfo 2 0) 0 0%N w_held)
    as [[r w']|] eqn:Ha; [|vm_compute in Ha; discriminate].
  exists r, w'. split; [reflexivity|].
  destruct (AcquireLocked_touches_one_key 0 env0 w_held 1 0 lock_map_a
              stripe_a "b" (mkLockInfo 2 0) 0 0%N r w' H1 H2 Ha)
    as (Hrec & _).
  rewrite (Hrec 1%positive 0%nat "a"); [reflexivity|]. intros [=].
Defined.

(** With a limit of 2 locks, transaction 1 releases the one lock of the
    lock map. *)
Lemma lock_cnt_counts_records_witness :
  0 < 2
  ∧ is_int64 2
  ∧ heap w_held !! 1%positive = Some lock_map_a
  ∧ count_consistent lock_map_a
  ∧ ∃ w' lock_map',
      UnLock hash0 2 env0 txn1 1 "a" w_held = Some (tt, w')
      ∧ heap w' !! 1%positive = Some lock_map'
      ∧ count_consistent lock_map'.
Proof.
  assert (H0 : 0 < 2) by lia.
  assert (Hm : is_int64 2) by (unfold is_int64; lia).
  assert (H1 : heap w_held !! 1%positive = Some lock_map_a) by reflexivity.
  assert (Hc : count_consistent lock_map_a).
  { split; [reflexivity|]. unfold is_int64. simpl. lia. }
  split_and!; try assumption.
  assert (Hg : GetLockMap 1 w_held
               = Some (Some 1%positive,
                       set_cache (Some {[1%N := 1%positive]}) w_held))
    by reflexivity.
  destruct (UnLock hash0 2 env0 txn1 1 "a" w_held) as [[[] w']|] eqn:Hu;
    [|vm_compute in Hu; discriminate].
  destruct (lock_cnt_counts_records hash0 2 env0 w_held 1 lock_map_a txn1 1
              "a" H0 Hm H1 Hc) as (_ & Hun).
  destruct (Hun _ stripe_a w' Hg eq_refl Hu) as (lock_map' & Hh & Hcc).
  by exists w', lock_map'.
Defined.

(** Transaction 1 waits for 2; the wait of 2 for 1 closes a cycle of two
    edges. *)
Lemma deadlock_within_depth_detected_witness :
  graph_ok w_waiting
  ∧ wait_txn_map_ w_waiting !! GetID txn2 = None
  ∧ (N.of_nat (size (wait_txn_map_ w_waiting)) < 2 ^ 32 - 1)%N
  ∧ (1 <= 2 <= Z.to_nat (GetDeadlockDetectDepth txn2))%nat
  ∧ cycle_through (<[GetID txn2 := 1%N]> (wait_txn_map_ w_waiting))
                  (GetID txn2) 2
  ∧ IncrementWaiters txn2 1 w_waiting = Some (true, w_waiting).
Proof.
  assert (H1 : graph_ok w_waiting) by apply graph_ok_w_waiting.
  assert (H2 : wait_txn_map_ w_waiting !! GetID txn2 = None) by reflexivity.
  assert (H3 : (N.of_nat (size (wait_txn_map_ w_waiting)) < 2 ^ 32 - 1)%N)
    by (vm_compute; reflexivity).
  assert (H4 : (1 <= 2 <= Z.to_nat (GetDeadlockDetectDepth txn2))%nat)
    by (simpl; lia).
  assert (H5 : cycle_through
                 (<[GetID txn2 := 1%N]> (wait_txn_map_ w_waiting))
                 (GetID txn2) 2)
    by (split; [lia|reflexivity]).
  split_and!; try assumption; try (simpl; lia).
  exact (deadlock_within_depth_detected txn2 1 w_waiting 2 H1 H2 H3 H4 H5).
Defined.

(** Transaction 1 registers its wait for 2 in the empty graph, and ends
    it. *)
Lemma wait_registered_then_undone_witness :
  graph_ok empty_World
  ∧ wait_txn_map_ empty_World !! GetID txn1 = None
  ∧ (N.of_nat (size (wait_txn_map_ empty_World)) < 2 ^ 32 - 1)%N
  ∧ IncrementWaiters txn1 2 empty_World = Some (false, w_waiting)
  ∧ graph_ok w_waiting
  ∧ DecrementWaiters txn1 2 w_waiting = Some (tt, empty_World).
Proof.
  assert (H1 : graph_ok empty_World) by (by apply graph_ok_no_wait).
  assert (H2 : wait_txn_map_ empty_World !! GetID txn1 = None)
    by reflexivity.
  assert (H3 : (N.of_nat (size (wait_txn_map_ empty_World)) < 2 ^ 32 - 1)%N)
    by (vm_compute; reflexivity).
  assert (H4 : IncrementWaiters txn1 2 empty_World = Some (false, w_waiting))
    by (vm_compute; reflexivity).
  split_and!; try assumption.
  - exact (proj1 (proj2 (proj2 (wait_registered_then_undone txn1 2
             empty_World w_waiting H1 H2 H3 H4)))).
  - exact (proj2 (proj2 (proj2 (proj2 (wait_registered_then_undone txn1 2
             empty_World w_waiting H1 H2 H3 H4))))).
Defined.

(** Transaction 1 locks the free key ["a"]. *)
Lemma TryLock_ok_holds_witness :
  ∃ w0 w',
    GetLockMap 1 w_fresh = Some (Some 1%positive, w0)
    ∧ heap w_fresh !! 1%positive = Some (new_LockMap 1)
    ∧ TryLock hash0 0 env0 0 txn1 1 "a" w_fresh = Some (Status.OK, w')
    ∧ holds w' 1 0 "a" 1.
Proof.
  assert (Hg : GetLockMap 1 w_fresh
               = Some (Some 1%positive,
                       set_cache (Some {[1%N := 1%positive]}) w_fresh))
    by reflexivity.
  assert (H1 : heap w_fresh !! 1%positive = Some (new_LockMap 1))
    by reflexivity.
  destruct (TryLock hash0 0 env0 0 txn1 1 "a" w_fresh) as [[st w']|] eqn:Hl;
    [|vm_compute in Hl; discriminate].
  assert (Hst : st = Status.OK)
    by (vm_compute in Hl; by injection Hl as <- _).
  subst st.
  exists (set_cache (Some {[1%N := 1%positive]}) w_fresh), w'.
  split_and!; [exact Hg|exact H1|reflexivity|].
  exact (TryLock_ok_holds hash0 0 env0 0 txn1 1 "a" w_fresh 1%positive _
           (new_LockMap 1) (mkStripe ∅) Status.OK w' Hg H1 eq_refl Hl
           eq_refl).
Defined.

(** Transaction 2, with a timeout of 0, asks for ["a"], which transaction
    1 holds without expiration. *)
Lemma TryLock_statuses_witness :
  ∃ w0 st w',
    GetLockMap 1 w_forever = Some (Some 1%positive, w0)
    ∧ heap w_forever !! 1%positive = Some lock_map_forever
    ∧ TryLock hash0 0 env0 2 txn2 1 "a" w_forever = Some (st, w')
    ∧ (st = Status.OK ∨ st = Status.TimedOut kLockTimeout
       ∨ st = Status.Busy kLockLimit ∨ st = Status.Busy kDeadlock).
Proof.
  assert (Hg : GetLockMap 1 w_forever
               = Some (Some 1%positive,
                       set_cache (Some {[1%N := 1%positive]}) w_forever))
    by reflexivity.
  assert (H1 : heap w_forever !! 1%positive = Some lock_map_forever)
    by reflexivity.
  destruct (TryLock hash0 0 env0 2 txn2 1 "a" w_forever) as [[st w']|] eqn:Hl;
    [|vm_compute in Hl; discriminate].
  exists (set_cache (Some {[1%N := 1%positive]}) w_forever), st, w'.
  split_and!; [exact Hg|exact H1|reflexivity|].
  exact (TryLock_statuses hash0 0 env0 2 txn2 1 "a" w_forever 1%positive _
           lock_map_forever stripe_forever st w' Hg H1 eq_refl Hl).
Defined.

(** Transaction 2, with a timeout of 5, waits once for ["a"] and gives
    up: the mutex is unlocked once. *)
Lemma TryLock_releases_mutex_witness :
  ∃ w0 st w',
    GetLockMap 1 w_forever = Some (Some 1%positive, w0)
    ∧ heap w_forever !! 1%positive = Some lock_map_forever
    ∧ TryLock hash0 0 env0 2 txn2_patient 1 "a" w_forever = Some (st, w')
    ∧ mutex_unlocks w' = S (mutex_unlocks w_forever)
    ∧ ∃ tr, trace w' = EvMutexUnLock 1 0 :: tr.
Proof.
  assert (Hg : GetLockMap 1 w_forever
               = Some (Some 1%positive,
                       set_cache (Some {[1%N := 1%positive]}) w_forever))
    by reflexivity.
  assert (H1 : heap w_forever !! 1%positive = Some lock_map_forever)
    by reflexivity.
  destruct (TryLock hash0 0 env0 2 txn2_patient 1 "a" w_forever)
    as [[st w']|] eqn:Hl; [|vm_compute in Hl; discriminate].
  exists (set_cache (Some {[1%N := 1%positive]}) w_forever), st, w'.
  split; [exact Hg|]. split; [exact H1|]. split; [reflexivity|].
  exact (TryLock_releases_mutex hash0 0 env0 2 txn2_patient 1 "a" w_forever
           1%positive _ lock_map_forever stripe_forever st w' Hg H1 eq_refl
           Hl).
Defined.

(** Transaction 1 asks again for ["a"], which it holds. *)
Lemma TryLock_reentrant_witness :
  ∃ w0 w',
    GetLockMap 1 w_held = Some (Some 1%positive, w0)
    ∧ heap w_held !! 1%positive = Some lock_map_a
    ∧ keys stripe_a !! "a" = Some held_a
    ∧ txn_id held_a = GetID txn1
    ∧ TryLock hash0 1 env0 2 txn1 1 "a" w_held = Some (Status.OK, w')
    ∧ heap w' = heap w_held
    ∧ cv_waits w' = cv_waits w_held.
Proof.
  assert (Hg : GetLockMap 1 w_held
               = Some (Some 1%positive,
                       set_cache (Some {[1%N := 1%positive]}) w_held))
    by reflexivity.
  assert (H1 : heap w_held !! 1%positive = Some lock_map_a) by reflexivity.
  assert (H3 : keys stripe_a !! "a" = Some held_a) by reflexivity.
  assert (H4 : txn_id held_a = GetID txn1) by reflexivity.
  destruct (TryLock_reentrant hash0 1 env0 2 txn1 1 "a" w_held 1%positive _
              lock_map_a stripe_a held_a Hg H1 eq_refl H3 H4 eq_refl)
    as (w' & Hl & Hh & _ & Hcv).
  exists (set_cache (Some {[1%N := 1%positive]}) w_held), w'.
  by split_and!.
Defined.

(** The stripe mutex is contended when transaction 1 asks for ["a"]. *)
Lemma TryLock_mutex_not_obtained_witness :
  ∃ w0 w',
    GetLockMap 1 w_fresh = Some (Some 1%positive, w0)
    ∧ heap w_fresh !! 1%positive = Some (new_LockMap 1)
    ∧ Status.ok (mutex_asked env_contended 1 0 (GetLockTimeout txn1) w0).1
      = false
    ∧ TryLock hash0 0 env_contended 2 txn1 1 "a" w_fresh
      = Some (Status.TimedOut kMutexTimeout, w')
    ∧ heap w' = heap w_fresh
    ∧ attempts w' = attempts w_fresh.
Proof.
  assert (Hg : GetLockMap 1 w_fresh
               = Some (Some 1%positive,
                       set_cache (Some {[1%N := 1%positive]}) w_fresh))
    by reflexivity.
  assert (H1 : heap w_fresh !! 1%positive = Some (new_LockMap 1))
    by reflexivity.
  destruct (TryLock_mutex_not_obtained hash0 0 env_contended 2 txn1 1 "a"
              w_fresh 1%positive _ (new_LockMap 1) (mkStripe ∅) Hg H1
              eq_refl eq_refl) as (Hl & Hh & Hat & _).
  eexists _, _. split; [exact Hg|]. split; [exact H1|].
  split; [reflexivity|]. split; [exact Hl|]. split; [exact Hh|exact Hat].
Defined.

(** Transaction 2, with a timeout of 5, waits for ["a"] and gives up: its
    wait has left the graph. *)
Lemma TryLock_restores_graph_witness :
  graph_undisturbed env0
  ∧ graph_ok w_forever
  ∧ wait_txn_map_ w_forever !! GetID txn2_patient = None
  ∧ (N.of_nat (size (wait_txn_map_ w_forever)) < 2 ^ 32 - 1)%N
  ∧ ∃ st w',
      TryLock hash0 0 env0 2 txn2_patient 1 "a" w_forever = Some (st, w')
      ∧ wait_txn_map_ w' = wait_txn_map_ w_forever
      ∧ rev_wait_txn_map_ w' = rev_wait_txn_map_ w_forever.
Proof.
  assert (H1 : graph_undisturbed env0) by (intros n w; reflexivity).
  assert (H2 : graph_ok w_forever) by (by apply graph_ok_no_wait).
  assert (H3 : wait_txn_map_ w_forever !! GetID txn2_patient = None)
    by reflexivity.
  assert (H4 : (N.of_nat (size (wait_txn_map_ w_forever)) < 2 ^ 32 - 1)%N)
    by (vm_compute; reflexivity).
  split_and!; try assumption.
  destruct (TryLock hash0 0 env0 2 txn2_patient 1 "a" w_forever)
    as [[st w']|] eqn:Hl; [|vm_compute in Hl; discriminate].
  exists st, w'. split; [reflexivity|].
  exact (TryLock_restores_graph hash0 0 env0 2 txn2_patient 1 "a" w_forever
           st w' H1 H2 H3 H4 Hl).
Defined.

(** Transaction 1 holds ["a"] and waits for transaction 2, which asks for
    ["a"]. *)
Lemma TryLock_reports_deadlock_witness :
  graph_ok w_forever_waiting
  ∧ cycle_through (<[GetID txn2_patient := txn_id held_forever]>
                     (wait_txn_map_ w_forever_waiting))
                  (GetID txn2_patient) 2
  ∧ ∃ w',
      TryLock hash0 0 env0 1 txn2_patient 1 "a" w_forever_waiting
      = Some (Status.Busy kDeadlock, w')
      ∧ cv_waits w' = cv_waits w_forever_waiting
      ∧ heap w' = heap w_forever_waiting
      ∧ wait_txn_map_ w' = wait_txn_map_ w_forever_waiting.
Proof.
  assert (Hg : GetLockMap 1 w_forever_waiting
               = Some (Some 1%positive,
                       set_cache (Some {[1%N := 1%positive]})
                                 w_forever_waiting))
    by reflexivity.
  assert (H1 : heap w_forever_waiting !! 1%positive = Some lock_map_forever)
    by reflexivity.
  assert (H3 : keys stripe_forever !! "a" = Some held_forever)
    by reflexivity.
  assert (H4 : txn_id held_forever ≠ GetID txn2_patient) by (simpl; lia).
  assert (H5 : txn_id held_forever ≠ 0%N) by (simpl; lia).
  assert (H6 : ¬ stealable env0
                 (mutex_asked env0 1 0 (GetLockTimeout txn2_patient)
                    (set_cache (Some {[1%N := 1%positive]})
                               w_forever_waiting)).2
                 held_forever).
  { intros [H _]. simpl in H. lia. }
  assert (H7 : GetLockTimeout txn2_patient ≠ 0) by (simpl; lia).
  assert (H8 : graph_ok w_forever_waiting)
    by apply graph_ok_w_forever_waiting.
  assert (H9 : wait_txn_map_ w_forever_waiting !! GetID txn2_patient = None)
    by reflexivity.
  assert (H10 : (N.of_nat (size (wait_txn_map_ w_forever_waiting))
                 < 2 ^ 32 - 1)%N) by (vm_compute; reflexivity).
  assert (H11 : (1 <= 2 <= Z.to_nat (GetDeadlockDetectDepth txn2_patient))%nat)
    by (simpl; lia).
  assert (H12 : cycle_through
                  (<[GetID txn2_patient := txn_id held_forever]>
                     (wait_txn_map_ w_forever_waiting))
                  (GetID txn2_patient) 2)
    by (split; [lia|reflexivity]).
  split; [exact H8|]. split; [exact H12|].
  destruct (TryLock_reports_deadlock hash0 0 env0 0 txn2_patient 1 "a"
              w_forever_waiting 1%positive _ lock_map_forever stripe_forever
              held_forever 2 Hg H1 eq_refl H3 H4 H5 eq_refl H6 H7 eq_refl
              H8 H9 H10 H11 H12)
    as (w' & Hl & Hcv & _ & Hh & Hw & _).
  exists w'. by split_and!.
Defined.


(** The limit of one lock is reached, transaction 3 asks for the free key
    ["b"] with a timeout of 100, and the clock, which read 100 at the
    start, reads 300 from then on. *)
Lemma TryLock_spins_past_deadline_witness :
  keys stripe_a !! "b" = None
  ∧ 0 < 1 <= lock_cnt lock_map_a
  ∧ 0 < GetLockTimeout txn3
  ∧ (∀ n, (ticks w_held < n)%nat →
          u64 (NowMicros env_late_clock (ticks w_held) + GetLockTimeout txn3)
          <= NowMicros env_late_clock n)
  ∧ TryLock hash0 1 env_late_clock 1000 txn3 1 "b" w_held = None.
Proof.
  assert (Hg : GetLockMap 1 w_held
               = Some (Some 1%positive,
                       set_cache (Some {[1%N := 1%positive]}) w_held))
    by reflexivity.
  assert (H1 : heap w_held !! 1%positive = Some lock_map_a) by reflexivity.
  assert (H3 : keys stripe_a !! "b" = None) by reflexivity.
  assert (H4 : 0 < 1 <= lock_cnt lock_map_a) by (simpl; lia).
  assert (H5 : 0 < GetLockTimeout txn3) by (simpl; lia).
  assert (H6 : u64 (NowMicros env_late_clock (ticks w_held)
                    + GetLockTimeout txn3) < 2 ^ 63)
    by (vm_compute; reflexivity).
  assert (H7 : ∀ n, (ticks w_held < n)%nat →
                 u64 (NowMicros env_late_clock (ticks w_held)
                      + GetLockTimeout txn3)
                 <= NowMicros env_late_clock n).
  { intros [|n] Hn; [simpl in Hn; lia|]. vm_compute. intros H. discriminate H. }
  split; [exact H3|]. split; [exact H4|]. split; [exact H5|].
  split; [exact H7|].
  exact (proj1 (TryLock_spins_past_deadline hash0 1 env_late_clock txn3 1 "b"
                  w_held 1%positive _ lock_map_a stripe_a Hg H1 eq_refl H3
                  H4 H5 eq_refl H6 H7) 1000%nat).
Defined.

(** Transaction 1 releases ["a"], ["ab"] and ["c"] in one batch: it held
    ["a"] and ["ab"]; ["c"] is held by transaction 2 and stays. *)
Lemma UnLock_batch_releases_held_keys_witness :
  wf_LockMap lock_map_wide
  ∧ ∃ w0 w',
      GetLockMap 1 w_wide = Some (Some 1%positive, w0)
      ∧ UnLock_batch hash_length 0 env0 txn1 [(1%N, ["a"; "ab"; "c"])] w_wide
        = Some (tt, w')
      ∧ record_at w' 1 1 "a" = None
      ∧ record_at w' 1 0 "ab" = None
      ∧ record_at w' 1 1 "c" = Some (mkLockInfo 2 0).
Proof.
  assert (Hg : GetLockMap 1 w_wide
               = Some (Some 1%positive,
                       set_cache (Some {[1%N := 1%positive]}) w_wide))
    by reflexivity.
  assert (H1 : heap w_wide !! 1%positive = Some lock_map_wide)
    by reflexivity.
  assert (H2 : wf_LockMap lock_map_wide) by apply wf_lock_map_wide.
  split; [exact H2|].
  destruct (UnLock_batch_releases_held_keys hash_length 0 env0 txn1 1
              ["a"; "ab"; "c"] w_wide 1%positive _ lock_map_wide Hg H1 H2)
    as (w' & Hb & Hrec & _).
  exists (set_cache (Some {[1%N := 1%positive]}) w_wide), w'.
  split; [exact Hg|]. split; [exact (Hb [])|].
  rewrite !Hrec. split_and!; reflexivity.
Defined.

(** The same batch: the three keys fall into two stripes, and each of the
    two is locked, unlocked and notified once, also when the buckets are
    visited in the opposite order. *)
Lemma UnLock_batch_notifies_each_stripe_once_witness :
  wf_LockMap lock_map_wide
  ∧ ∃ w0 w' stripes,
      GetLockMap 1 w_wide = Some (Some 1%positive, w0)
      ∧ UnLock_batch hash_length 0 env0 txn1 [(1%N, ["a"; "ab"; "c"])] w_wide
        = Some (tt, w')
      ∧ NoDup stripes
      ∧ (∀ s, s ∈ stripes
              ↔ ∃ key, key ∈ ["a"; "ab"; "c"]
                       ∧ GetStripe hash_length lock_map_wide key = s)
      ∧ locked_stripes w'
        = locked_stripes w_wide ++ ((λ s, (1%positive, s)) <$> stripes)
      ∧ unlocked_stripes w'
        = unlocked_stripes w_wide ++ ((λ s, (1%positive, s)) <$> stripes)
      ∧ notified_stripes w'
        = notified_stripes w_wide ++ ((λ s, (1%positive, s)) <$> stripes)
      ∧ length (trace w') = (length (trace w_wide) + 3 * length stripes)%nat
      ∧ ∃ v,
          unlock_stripes 0 env0 1 (GetID txn1)
            (reverse (keys_by_stripe hash_length lock_map_wide
                        ["a"; "ab"; "c"])) w0
          = Some (tt, v)
          ∧ ∀ s key, record_at v 1 s key = record_at w' 1 s key.
Proof.
  assert (Hg : GetLockMap 1 w_wide
               = Some (Some 1%positive,
                       set_cache (Some {[1%N := 1%positive]}) w_wide))
    by reflexivity.
  assert (H1 : heap w_wide !! 1%positive = Some lock_map_wide)
    by reflexivity.
  assert (H2 : wf_LockMap lock_map_wide) by apply wf_lock_map_wide.
  split; [exact H2|].
  destruct (UnLock_batch_notifies_each_stripe_once hash_length 0 env0 txn1 1
              ["a"; "ab"; "c"] w_wide 1%positive _ lock_map_wide Hg H1 H2)
    as (w' & stripes & Hb & Hnd & Hin & HL & HU & HN & HT & Hany).
  destruct (Hany (reverse (keys_by_stripe hash_length lock_map_wide
                             ["a"; "ab"; "c"])))
    as (v & Hv & _ & _ & _ & _ & _ & _ & Hrec); [apply reverse_Permutation|].
  exists (set_cache (Some {[1%N := 1%positive]}) w_wide), w', stripes.
  split; [exact Hg|]. split; [exact (Hb [])|].
  split; [exact Hnd|]. split; [exact Hin|].
  split; [exact HL|]. split; [exact HU|]. split; [exact HN|].
  split; [exact HT|].
  exists v. by split.
Defined.

(** Two column families, in each of which transaction 1 holds a key. *)
Lemma GetLockStatusData_lists_held_locks_witness :
  lock_maps_allocated w_two
  ∧ ∃ data w',
      GetLockStatusData env0 w_two = Some (data, w')
      ∧ same_state w_two w'
      ∧ (1%N, ("a", 1%N)) ∈ data
      ∧ (2%N, ("b", 1%N)) ∈ data
      ∧ (2%N, ("a", 1%N)) ∉ data.
Proof.
  assert (H : lock_maps_allocated w_two) by apply lock_maps_allocated_w_two.
  split; [exact H|].
  destruct (GetLockStatusData_lists_held_locks env0 w_two H)
    as (data & w' & Hd & Hs & Hin).
  exists data, w'. split; [exact Hd|]. split; [exact Hs|]. split_and!.
  - apply Hin. exists 1%positive, 0%nat. split; [reflexivity|].
    exists held_a. by split.
  - apply Hin. exists 2%positive, 0%nat. split; [reflexivity|].
    exists held_b. by split.
  - intros Hx. apply Hin in Hx as (p & s & Hp & info & Hr & _).
    injection Hp as <-. destruct s as [|s]; discriminate Hr.
Defined.

(** The same two column families: the stripe of column family 1 is locked
    before that of column family 2. *)
Lemma GetLockStatusData_lock_order_witness :
  lock_maps_allocated w_two
  ∧ ∃ data w' cf_ids,
      GetLockStatusData env0 w_two = Some (data, w')
      ∧ StronglySorted N.lt cf_ids
      ∧ (∀ cf, cf ∈ cf_ids ↔ is_Some (lock_maps_ w_two !! cf))
      ∧ locked_stripes w'
        = locked_stripes w_two ++ (cf_ids ≫= stripes_of w_two)
      ∧ unlocked_stripes w'
        = unlocked_stripes w_two ++ (cf_ids ≫= stripes_of w_two).
Proof.
  assert (H : lock_maps_allocated w_two) by apply lock_maps_allocated_w_two.
  split; [exact H|].
  exact (GetLockStatusData_lock_order env0 w_two H).
Defined.

(** Column family 2 is dropped: transaction 1 can no longer lock in it,
    and column family 1 is still found. *)
Lemma TryLock_after_RemoveColumnFamily_witness :
  lock_maps_ w_two !! 2%N = Some 2%positive
  ∧ ∃ w1 w2,
      RemoveColumnFamily 2 w_two = Some (tt, w1)
      ∧ TryLock hash0 0 env0 3 txn1 2 "b" w1
        = Some (Status.InvalidArgument, w2)
      ∧ heap w2 = heap w_two
      ∧ trace w2 = trace w_two
      ∧ ∃ w3, GetLockMap 1 w1 = Some (Some 1%positive, w3).
Proof.
  assert (H : lock_maps_ w_two !! 2%N = Some 2%positive) by reflexivity.
  split; [exact H|].
  destruct (TryLock_after_RemoveColumnFamily hash0 0 env0 3 txn1 2 "b" w_two
              2%positive H) as (w1 & w2 & Hrm & Hl & Hh & Ht & _ & Hothers).
  exists w1, w2. split_and!; try assumption.
  apply Hothers; [done|reflexivity].
Defined.
